(** * AIMHi: transcript recording and interview-slot extraction

    A shallow embedding of two parts of the repository:

    - [extract_interview_schedule.py]: the three-stage extractor that finds
      an interview date and time in a call transcript and normalises them;
    - [main.py]: the per-call transcript bookkeeping of the media relay
      ([send_to_twilio], [write_to_transcript_file],
      [close_transcript_file]), a whole call from its start frame to its
      end ([handle_media_stream]), and the record endpoints;
    - [storage.py] with the records of [models.py]: the store behind the
      endpoints.

    Text is a list of 8-bit character codes.  The character classes below
    are those Python's [re] and [str] use on code points 0..255; code
    points above 255 are outside the model. *)

From Stdlib Require Import List Ascii String Arith Bool Lia PeanoNat.
From Stdlib Require ZArith QArith Sorted Lqa.
From stdpp Require Import gmap strings.
Import ListNotations.

Local Open Scope nat_scope.
Local Open Scope list_scope.

(** ** Characters and text *)

Module Chars.

Definition text := list ascii.

Definition txt (s : string) : text := list_ascii_of_string s.

Definition code (c : ascii) : nat := nat_of_ascii c.

Definition in_range (lo hi : nat) (c : ascii) : bool :=
  (lo <=? code c) && (code c <=? hi).

(** [\d] *)
Definition is_digit (c : ascii) : bool := in_range 48 57 c.

Definition is_upper (c : ascii) : bool := in_range 65 90 c.
Definition is_lower (c : ascii) : bool := in_range 97 122 c.

(** [[A-Za-z]] *)
Definition is_alpha (c : ascii) : bool := is_upper c || is_lower c.

(** [\s] and [str.isspace]: TAB..CR, FS..US, space, NEL, NBSP. *)
Definition is_space (c : ascii) : bool :=
  in_range 9 13 c || in_range 28 32 c || (code c =? 133) || (code c =? 160).

(** Alphanumeric code points of Latin-1 outside ASCII. *)
Definition is_latin1_alnum (c : ascii) : bool :=
  (code c =? 170) || (code c =? 178) || (code c =? 179) || (code c =? 181)
  || (code c =? 185) || (code c =? 186) || in_range 188 190 c
  || in_range 192 214 c || in_range 216 246 c || in_range 248 255 c.

(** [\w] *)
Definition is_word (c : ascii) : bool :=
  is_alpha c || is_digit c || (code c =? 95) || is_latin1_alnum c.

(** [.] without DOTALL, and with it. *)
Definition not_newline (c : ascii) : bool := negb (code c =? 10).
Definition any_char (c : ascii) : bool := true.

(** [str.lower] on one character. *)
Definition lower_char (c : ascii) : ascii :=
  if is_upper c || (in_range 192 222 c && negb (code c =? 215))
  then ascii_of_nat (code c + 32) else c.

(** [str.upper] on one character of the ASCII range (the only use is on
    the AM/PM marker). *)
Definition upper_char (c : ascii) : ascii :=
  if is_lower c then ascii_of_nat (code c - 32) else c.

Definition lower (s : text) : text := map lower_char s.
Definition upper (s : text) : text := map upper_char s.

(** A literal character of a pattern, and the same under IGNORECASE. *)
Definition is_char (a c : ascii) : bool := Ascii.eqb a c.
Definition is_char_ci (a c : ascii) : bool := Ascii.eqb (lower_char a) (lower_char c).

Fixpoint lstrip (s : text) : text :=
  match s with
  | c :: s' => if is_space c then lstrip s' else s
  | [] => []
  end.

(** [str.strip()] *)
Definition strip (s : text) : text := rev (lstrip (rev (lstrip s))).

Fixpoint starts_with (p s : text) : bool :=
  match p, s with
  | [], _ => true
  | a :: p', c :: s' => Ascii.eqb a c && starts_with p' s'
  | _ :: _, [] => false
  end.

(** [needle in hay] *)
Fixpoint contains (needle hay : text) : bool :=
  starts_with needle hay ||
  match hay with
  | [] => false
  | _ :: hay' => contains needle hay'
  end.

(** Every character code. *)
Definition all_chars : list ascii := map ascii_of_nat (seq 0 256).

(** The longest prefix of [s] in the class [p], and what follows it. *)
Fixpoint take_while (p : ascii -> bool) (s : text) : text * text :=
  match s with
  | c :: s' =>
      if p c then let (a, b) := take_while p s' in (c :: a, b) else ([], s)
  | [] => ([], [])
  end.

(** [a == b] *)
Definition text_eqb (a b : text) : bool :=
  (length a =? length b) && starts_with a b.

Definition digit_val (c : ascii) : nat := code c - 48.

(** [int(s)] on a string of decimal digits. *)
Definition int_of_digits (s : text) : nat :=
  fold_left (fun acc c => 10 * acc + digit_val c) s 0.

Definition digit_char (n : nat) : ascii := ascii_of_nat (48 + n).

Fixpoint digits_fuel (fuel n : nat) (acc : text) : text :=
  match fuel with
  | 0 => acc
  | S fuel' =>
      let acc' := digit_char (n mod 10) :: acc in
      if n / 10 =? 0 then acc' else digits_fuel fuel' (n / 10) acc'
  end.

(** [str(n)] for a natural number. *)
Definition decimal (n : nat) : text := digits_fuel (S n) n [].

(** [f"{n:0wd}"]: decimal, zero-padded on the left to width [w]. *)
Definition zero_pad (w n : nat) : text :=
  let d := decimal n in
  repeat "0"%char (w - length d) ++ d.

End Chars.

(** ** A backtracking matcher with the priorities of Python's [re] *)

Module Regex.
Import Chars.

Inductive greed := Greedy | Lazy.

(** The fragment of the pattern language the source uses.  Every [*], [+]
    and [{m,n}] of the source applies to a single character class, hence
    [Rep]; [?] also applies to groups, hence [Opt]. *)
Inductive regex :=
| Eps
| Cls (p : ascii -> bool)
| Seq (a b : regex)
| Alt (a b : regex)
| Opt (a : regex)
| Rep (g : greed) (lo : nat) (hi : option nat) (p : ascii -> bool)
| Grp (n : nat) (a : regex)
| WordB.

Definition captures := list (nat * text).

(** The cursor is a zipper: the text already passed, reversed, and the text
    ahead. *)
Definition kont (A : Type) := captures -> text -> text -> option A.

Definition more (hi : option nat) : bool :=
  match hi with Some 0 => false | _ => true end.

Definition dec (hi : option nat) : option nat :=
  match hi with Some n => Some (pred n) | None => None end.

Fixpoint rep_greedy {A} (p : ascii -> bool) (lo : nat) (hi : option nat)
    (bef aft : text) (k : text -> text -> option A) {struct aft} : option A :=
  match aft with
  | c :: aft' =>
      if p c && more hi then
        match rep_greedy p (pred lo) (dec hi) (c :: bef) aft' k with
        | Some x => Some x
        | None => if lo =? 0 then k bef aft else None
        end
      else if lo =? 0 then k bef aft else None
  | [] => if lo =? 0 then k bef aft else None
  end.

Fixpoint rep_lazy {A} (p : ascii -> bool) (lo : nat) (hi : option nat)
    (bef aft : text) (k : text -> text -> option A) {struct aft} : option A :=
  match aft with
  | c :: aft' =>
      match (if lo =? 0 then k bef aft else None) with
      | Some x => Some x
      | None =>
          if p c && more hi
          then rep_lazy p (pred lo) (dec hi) (c :: bef) aft' k
          else None
      end
  | [] => if lo =? 0 then k bef aft else None
  end.

Definition word_at (s : text) : bool :=
  match s with c :: _ => is_word c | [] => false end.

Fixpoint run {A} (r : regex) (caps : captures) (bef aft : text)
    (k : kont A) {struct r} : option A :=
  match r with
  | Eps => k caps bef aft
  | Cls p =>
      match aft with
      | c :: aft' => if p c then k caps (c :: bef) aft' else None
      | [] => None
      end
  | Seq a b => run a caps bef aft (fun caps' bef' aft' => run b caps' bef' aft' k)
  | Alt a b =>
      match run a caps bef aft k with
      | Some x => Some x
      | None => run b caps bef aft k
      end
  | Opt a =>
      match run a caps bef aft k with
      | Some x => Some x
      | None => k caps bef aft
      end
  | Rep Greedy lo hi p => rep_greedy p lo hi bef aft (k caps)
  | Rep Lazy lo hi p => rep_lazy p lo hi bef aft (k caps)
  | Grp n a =>
      run a caps bef aft (fun caps' bef' aft' =>
        k ((n, rev (firstn (length bef' - length bef) bef')) :: caps') bef' aft')
  | WordB => if xorb (word_at bef) (word_at aft) then k caps bef aft else None
  end.

(** A match object: where it starts and ends, and its groups. *)
Record rmatch := {
  m_start : nat;
  m_end : nat;
  m_caps : captures
}.

Fixpoint lookup_cap (n : nat) (caps : captures) : option text :=
  match caps with
  | [] => None
  | (i, t) :: caps' => if i =? n then Some t else lookup_cap n caps'
  end.

(** [m.group(n)]; every group the source reads takes part in every match
    of its pattern. *)
Definition group (m : rmatch) (n : nat) : text :=
  match lookup_cap n (m_caps m) with Some t => t | None => [] end.

(** Try the pattern with the cursor at [bef | aft]; group 0 is the whole
    match. *)
Definition match_at (r : regex) (bef aft : text) : option (rmatch * (text * text)) :=
  run (Grp 0 r) [] bef aft (fun caps bef' aft' =>
    Some ({| m_start := length bef; m_end := length bef'; m_caps := caps |},
          (bef', aft'))).

(** Leftmost match at or after the cursor. *)
Fixpoint search_from (r : regex) (bef aft : text) {struct aft}
    : option (rmatch * (text * text)) :=
  match match_at r bef aft with
  | Some res => Some res
  | None =>
      match aft with
      | [] => None
      | c :: aft' => search_from r (c :: bef) aft'
      end
  end.

(** [re.search] *)
Definition search (r : regex) (s : text) : option rmatch :=
  option_map fst (search_from r [] s).

(** Successive non-overlapping matches, left to right.  After an empty
    match the scan moves one character on. *)
Fixpoint finditer_from (fuel : nat) (r : regex) (bef aft : text) : list rmatch :=
  match fuel with
  | 0 => []
  | S fuel' =>
      match search_from r bef aft with
      | None => []
      | Some (m, (bef', aft')) =>
          if m_end m =? m_start m then
            match aft' with
            | [] => [m]
            | c :: aft'' => m :: finditer_from fuel' r (c :: bef') aft''
            end
          else m :: finditer_from fuel' r bef' aft'
      end
  end.

(** [re.finditer], as the list of its matches. *)
Definition finditer (r : regex) (s : text) : list rmatch :=
  finditer_from (S (length s)) r [] s.

(** [re.findall] for a pattern with exactly one group. *)
Definition findall (r : regex) (s : text) : list text :=
  map (fun m => group m 1) (finditer r s).

(** *** Pattern builders *)

Fixpoint seqs (rs : list regex) : regex :=
  match rs with
  | [] => Eps
  | [r] => r
  | r :: rs' => Seq r (seqs rs')
  end.

Fixpoint alts (rs : list regex) : regex :=
  match rs with
  | [] => Eps
  | [r] => r
  | r :: rs' => Alt r (alts rs')
  end.

(** A literal word, case-sensitive or under IGNORECASE. *)
Definition lit (s : string) : regex := seqs (map (fun a => Cls (is_char a)) (txt s)).
Definition lit_ci (s : string) : regex := seqs (map (fun a => Cls (is_char_ci a)) (txt s)).

Definition star (g : greed) (p : ascii -> bool) : regex := Rep g 0 None p.
Definition plus (p : ascii -> bool) : regex := Rep Greedy 1 None p.
Definition times (lo hi : nat) (p : ascii -> bool) : regex := Rep Greedy lo (Some hi) p.

(** *** What a pattern can match

    [sem r caps bef w aft caps']: with [bef] behind the cursor and
    [w ++ aft] ahead, [r] can match exactly [w], turning the groups
    [caps] into [caps'].  This is the relation the matcher is sound for;
    it says nothing about which of several possible matches is chosen. *)

Definition bounded (hi : option nat) (n : nat) : Prop :=
  match hi with Some m => n <= m | None => True end.

Inductive sem : regex -> captures -> text -> text -> text -> captures -> Prop :=
| sem_eps caps bef aft : sem Eps caps bef [] aft caps
| sem_cls p c caps bef aft : p c = true -> sem (Cls p) caps bef [c] aft caps
| sem_seq a b caps bef w1 w2 aft caps1 caps2 :
    sem a caps bef w1 (w2 ++ aft) caps1 ->
    sem b caps1 (rev w1 ++ bef) w2 aft caps2 ->
    sem (Seq a b) caps bef (w1 ++ w2) aft caps2
| sem_alt_l a b caps bef w aft caps1 :
    sem a caps bef w aft caps1 -> sem (Alt a b) caps bef w aft caps1
| sem_alt_r a b caps bef w aft caps1 :
    sem b caps bef w aft caps1 -> sem (Alt a b) caps bef w aft caps1
| sem_opt_some a caps bef w aft caps1 :
    sem a caps bef w aft caps1 -> sem (Opt a) caps bef w aft caps1
| sem_opt_none a caps bef aft : sem (Opt a) caps bef [] aft caps
| sem_rep g lo hi p caps bef w aft :
    forallb p w = true -> lo <= length w -> bounded hi (length w) ->
    sem (Rep g lo hi p) caps bef w aft caps
| sem_grp n a caps bef w aft caps1 :
    sem a caps bef w aft caps1 ->
    sem (Grp n a) caps bef w aft ((n, w) :: caps1)
| sem_wordb caps bef aft :
    xorb (word_at bef) (word_at aft) = true -> sem WordB caps bef [] aft caps.

(** *** The match that is chosen

    [takes r caps bef w rest caps']: the matcher, started on [w ++ rest],
    first tries to let [r] match [w]; if the rest of the pattern accepts
    what follows, that is the match returned.  [fails r caps bef s]: [r]
    matches nothing at the start of [s]. *)

Definition takes (r : regex) (caps : captures) (bef w rest : text)
    (caps' : captures) : Prop :=
  forall (A : Type) (k : kont A) (x : A),
    k caps' (rev w ++ bef) rest = Some x ->
    run r caps bef (w ++ rest) k = Some x.

Definition fails (r : regex) (caps : captures) (bef s : text) : Prop :=
  forall (A : Type) (k : kont A), run r caps bef s k = None.

(** The text ahead does not continue a run of [p]. *)
Definition stops_at (p : ascii -> bool) (rest : text) : bool :=
  match rest with [] => true | c :: _ => negb (p c) end.

(** A greedy repetition bounded by [hi] takes exactly [n] characters: the
    bound is reached or the run ends there. *)
Definition within (hi : option nat) (n : nat) (stop : bool) : Prop :=
  match hi with
  | None => stop = true
  | Some m => n <= m /\ (n = m \/ stop = true)
  end.

End Regex.

(** ** Calendar dates and the two [datetime] format directives in use *)

Module DateTime.
Import Chars Regex.

Record datetime := {
  year : nat;
  month : nat;
  day : nat;
  hour : nat;
  minute : nat;
  second : nat;
  microsecond : nat
}.

Definition is_leap (y : nat) : bool :=
  ((y mod 4 =? 0) && negb (y mod 100 =? 0)) || (y mod 400 =? 0).

Definition days_in_month (y m : nat) : nat :=
  match m with
  | 2 => if is_leap y then 29 else 28
  | 4 | 6 | 9 | 11 => 30
  | _ => 31
  end.

(** [datetime.MAXYEAR], 9999. *)
Definition MAXYEAR : nat := 99 * 101.

(** The range check of the [datetime] constructor on a calendar date. *)
Definition valid_date (y m d : nat) : bool :=
  (1 <=? y) && (y <=? MAXYEAR) && (1 <=? m) && (m <=? 12)
  && (1 <=? d) && (d <=? days_in_month y m).

Definition midnight (y m d : nat) : datetime :=
  {| year := y; month := m; day := d;
     hour := 0; minute := 0; second := 0; microsecond := 0 |}.

Fixpoint lex_lt (a b : list nat) : bool :=
  match a, b with
  | x :: a', y :: b' => (x <? y) || ((x =? y) && lex_lt a' b')
  | _, _ => false
  end.

Definition fields (d : datetime) : list nat :=
  [year d; month d; day d; hour d; minute d; second d; microsecond d].

(** [a < b] on naive datetimes. *)
Definition dt_lt (a b : datetime) : bool := lex_lt (fields a) (fields b).

(** [d.replace(year=y)]; [None] stands for the [ValueError] raised when
    the result is not a date. *)
Definition replace_year (d : datetime) (y : nat) : option datetime :=
  if valid_date y (month d) (day d) then
    Some {| year := y; month := month d; day := day d; hour := hour d;
            minute := minute d; second := second d;
            microsecond := microsecond d |}
  else None.

(** [d + timedelta(days=1)]; [None] stands for the [OverflowError] past
    year 9999. *)
Definition add_one_day (d : datetime) : option datetime :=
  let with_date y m dd :=
    {| year := y; month := m; day := dd; hour := hour d; minute := minute d;
       second := second d; microsecond := microsecond d |} in
  if day d <? days_in_month (year d) (month d) then
    Some (with_date (year d) (month d) (S (day d)))
  else if month d <? 12 then Some (with_date (year d) (S (month d)) 1)
  else if year d <? MAXYEAR then Some (with_date (S (year d)) 1 1)
  else None.

(** The regular expression CPython's [_strptime] builds for the format
    ['%m-%d-%Y']: [%m] is [(1[0-2]|0[1-9]|[1-9])], [%d] is
    [(3[0-1]|[1-2]\d|0[1-9]|[1-9]| [1-9])], [%Y] is [(\d\d\d\d)]. *)
Definition month_directive : regex :=
  alts [Seq (lit "1") (Cls (in_range 48 50));
        Seq (lit "0") (Cls (in_range 49 57));
        Cls (in_range 49 57)].

Definition day_directive : regex :=
  alts [Seq (lit "3") (Cls (in_range 48 49));
        Seq (Cls (in_range 49 50)) (Cls is_digit);
        Seq (lit "0") (Cls (in_range 49 57));
        Cls (in_range 49 57);
        Seq (lit " ") (Cls (in_range 49 57))].

Definition year_directive : regex := times 4 4 is_digit.

Definition strptime_mdY_pattern : regex :=
  seqs [Grp 1 month_directive; lit "-"; Grp 2 day_directive; lit "-";
        Grp 3 year_directive].

(** [datetime.strptime(s, '%m-%d-%Y')]: the pattern must match at the
    start and leave nothing unconverted, and the fields must form a date.
    [None] stands for [ValueError]. *)
Definition strptime_mdY (s : text) : option datetime :=
  match match_at strptime_mdY_pattern [] s with
  | Some (m, (_, [])) =>
      let mo := int_of_digits (group m 1) in
      let d := int_of_digits (lstrip (group m 2)) in
      let y := int_of_digits (group m 3) in
      if valid_date y mo d then Some (midnight y mo d) else None
  | _ => None
  end.

(** [d.strftime('%d-%m-%Y')], with [%Y] zero-padded to four digits as the
    library documents it.  Some platforms print a year below 1000 without
    the padding; the statements about formatted dates are for years of at
    least 1000. *)
Definition strftime_dmY (d : datetime) : text :=
  zero_pad 2 (day d) ++ txt "-" ++ zero_pad 2 (month d) ++ txt "-"
  ++ zero_pad 4 (year d).

End DateTime.

(** ** A model of [dateutil.parser.parse(text, fuzzy=True)]

    The extractor is parametric in this parser (see [Extract]); the model
    here instantiates it in the worked examples.  It follows the library
    on the texts of those examples, a month name with a day number and
    possibly a year; it does not follow it everywhere (a lone number
    above 31, a word such as "hour" before a number and numbers of five
    digits are read differently), and no general statement rests on
    it. *)

Module Dateutil.
Import Chars DateTime.

Inductive token := Word (w : text) | Number (n : text).

Fixpoint tokens_fuel (fuel : nat) (s : text) : list token :=
  match fuel with
  | 0 => []
  | S fuel' =>
      match s with
      | [] => []
      | c :: s' =>
          if is_alpha c then
            let (w, rest) := take_while is_alpha s in
            Word w :: tokens_fuel fuel' rest
          else if is_digit c then
            let (n, rest) := take_while is_digit s in
            Number n :: tokens_fuel fuel' rest
          else tokens_fuel fuel' s'
      end
  end.

Definition tokens (s : text) : list token := tokens_fuel (length s) s.

Definition month_names : list (string * nat) :=
  [("january", 1); ("february", 2); ("march", 3); ("april", 4); ("may", 5);
   ("june", 6); ("july", 7); ("august", 8); ("september", 9);
   ("october", 10); ("november", 11); ("december", 12);
   ("jan", 1); ("feb", 2); ("mar", 3); ("apr", 4); ("jun", 6); ("jul", 7);
   ("aug", 8); ("sep", 9); ("sept", 9); ("oct", 10); ("nov", 11);
   ("dec", 12)].

Definition month_of_word (w : text) : option nat :=
  option_map snd
    (find (fun e => text_eqb (txt (fst e)) (lower w)) month_names).

Record ymd := { y_ : option nat; m_ : option nat; d_ : option nat }.

Definition set_if_unset (o : option nat) (v : nat) : option nat :=
  match o with Some _ => o | None => Some v end.

(** One token updates the fields found so far; a token that is no part of
    a date is skipped, which is what [fuzzy=True] asks for. *)
Definition feed (acc : ymd) (t : token) : ymd :=
  match t with
  | Word w =>
      match month_of_word w with
      | Some m => {| y_ := y_ acc; m_ := set_if_unset (m_ acc) m; d_ := d_ acc |}
      | None => acc
      end
  | Number n =>
      if length n =? 4 then
        {| y_ := set_if_unset (y_ acc) (int_of_digits n); m_ := m_ acc; d_ := d_ acc |}
      else if length n <=? 2 then
        {| y_ := y_ acc; m_ := m_ acc; d_ := set_if_unset (d_ acc) (int_of_digits n) |}
      else acc
  end.

(** Phrases of the shape "Month Day[st|nd|rd|th][,] [Year]" with an
    English month name or its abbreviation: the fields the phrase gives
    replace those of the default, which is today at midnight, so a phrase
    without a year gets the current year.  [None] stands for the parser's
    exception (no date in the text, or fields that form no date). *)
Definition parse_fuzzy (now : datetime) (s : text) : option datetime :=
  let r := fold_left feed (tokens s) {| y_ := None; m_ := None; d_ := None |} in
  match y_ r, m_ r, d_ r with
  | None, None, None => None
  | _, _, _ =>
      let y := match y_ r with Some y => y | None => year now end in
      let m := match m_ r with Some m => m | None => month now end in
      let d := match d_ r with Some d => d | None => day now end in
      if valid_date y m d then Some (midnight y m d) else None
  end.

End Dateutil.

(** ** [extract_interview_schedule.py] *)

Module Extract.
Import Chars Regex DateTime.

(** *** The patterns of the source *)

(** [confirm.*?interview.*?on\s*(\d{2}-\d{2}-\d{4})\s*at\s*(\d{1,2}:\d{2}\s*(?:AM|PM))],
    IGNORECASE. *)
Definition standardized_date : regex :=
  seqs [times 2 2 is_digit; lit "-"; times 2 2 is_digit; lit "-";
        times 4 4 is_digit].

Definition standardized_clock : regex :=
  seqs [times 1 2 is_digit; lit ":"; times 2 2 is_digit;
        star Greedy is_space; Alt (lit_ci "AM") (lit_ci "PM")].

Definition standardized_pattern : regex :=
  seqs [
    lit_ci "confirm"; star Lazy not_newline;
    lit_ci "interview"; star Lazy not_newline;
    lit_ci "on"; star Greedy is_space;
    Grp 1 standardized_date;
    star Greedy is_space; lit_ci "at"; star Greedy is_space;
    Grp 2 standardized_clock
  ].

(** [(?:st|nd|rd|th)?] *)
Definition ordinal_suffix : regex :=
  Opt (alts [lit_ci "st"; lit_ci "nd"; lit_ci "rd"; lit_ci "th"]).

(** [[A-Za-z]+\s+\d{1,2}(?:st|nd|rd|th)?,?\s*\d{4}] *)
Definition month_day_year : regex :=
  seqs [plus is_alpha; plus is_space; times 1 2 is_digit; ordinal_suffix;
        Opt (lit ","); star Greedy is_space; times 4 4 is_digit].

(** [<keyword>.*?(?:<p>|<q>)\s*(<month_day_year>)], IGNORECASE and DOTALL. *)
Definition legacy (keyword p q : string) : regex :=
  seqs [lit_ci keyword; star Lazy any_char; Alt (lit_ci p) (lit_ci q);
        star Greedy is_space; Grp 1 month_day_year].

Definition legacy_patterns : list regex :=
  [ legacy "scheduled" "for" "on";
    legacy "schedule" "on" "for";
    legacy "meeting" "on" "for";
    legacy "interview" "on" "for" ].

(** [(\d{1,2}[:\.]?\d{0,2}\s*(?:AM|PM|am|pm))], IGNORECASE. *)
Definition time_pattern : regex :=
  Grp 1 (seqs [times 1 2 is_digit;
               Opt (Cls (fun c => is_char ":" c || is_char "." c));
               times 0 2 is_digit; star Greedy is_space;
               alts [lit_ci "AM"; lit_ci "PM"; lit_ci "am"; lit_ci "pm"]]).

(** The three date grammars of the unanchored stage, IGNORECASE:
    [([A-Za-z]+\s+\d{1,2}(?:st|nd|rd|th)?,?\s*\d{4})],
    [(\d{1,2}(?:st|nd|rd|th)?\s+(?:of\s+)?[A-Za-z]+\s+(?:of\s+)?\d{4})],
    [([A-Za-z]+\s+\d{1,2}(?:st|nd|rd|th)?)]. *)
Definition of_word : regex := Opt (Seq (lit_ci "of") (plus is_space)).

Definition day_month_year : regex :=
  seqs [times 1 2 is_digit; ordinal_suffix; plus is_space; of_word;
        plus is_alpha; plus is_space; of_word; times 4 4 is_digit].

Definition month_day : regex :=
  seqs [plus is_alpha; plus is_space; times 1 2 is_digit; ordinal_suffix].

Definition date_patterns : list regex :=
  [Grp 1 month_day_year; Grp 1 day_month_year; Grp 1 month_day].

(** [\b(\d{4})\b] *)
Definition year_pattern : regex :=
  seqs [WordB; Grp 1 (times 4 4 is_digit); WordB].

(** [(\d{1,2}):(\d{2})\s*(AM|PM)], IGNORECASE. *)
Definition standardized_time_pattern : regex :=
  seqs [Grp 1 (times 1 2 is_digit); lit ":"; Grp 2 (times 2 2 is_digit);
        star Greedy is_space; Grp 3 (Alt (lit_ci "AM") (lit_ci "PM"))].

(** [(\d{1,2})[:.](\d{2})] *)
Definition hour_minute_pattern : regex :=
  seqs [Grp 1 (times 1 2 is_digit);
        Cls (fun c => is_char ":" c || is_char "." c);
        Grp 2 (times 2 2 is_digit)].

(** [(\d{1,2})] *)
Definition hour_pattern : regex := Grp 1 (times 1 2 is_digit).

(** *** The candidate slot *)

Inductive format_type := standardized | legacy_format.

(** The [confirmed_slot] dictionary; the unanchored stage sets no
    ['format_type'] key. *)
Record slot := {
  date_text : text;
  time_text : text;
  full_match : text;
  fmt : option format_type
}.

(** The [result] dictionary. *)
Record result := {
  formatted_date : text;
  formatted_time : text;
  raw_date_text : text;
  raw_time_text : text;
  full_text : text
}.

(** [xs[-1]] on a non-empty list. *)
Definition last_of (xs : list text) : text := List.last xs [].

(** Lines 32-42. *)
Definition standardized_slot (content : text) : option slot :=
  match search standardized_pattern content with
  | Some m =>
      Some {| date_text := strip (group m 1);
              time_text := strip (group m 2);
              full_match := group m 0;
              fmt := Some standardized |}
  | None => None
  end.

(** Lines 45-56: the first match of the first pattern that has one. *)
Fixpoint legacy_date (patterns : list regex) (content : text) : option slot :=
  match patterns with
  | [] => None
  | pattern :: rest =>
      match finditer pattern content with
      | m :: _ =>
          Some {| date_text := strip (group m 1);
                  time_text := [];
                  full_match := group m 0;
                  fmt := Some legacy_format |}
      | [] => legacy_date rest content
      end
  end.

(** Lines 58-62: the last time-like substring of the whole transcript. *)
Definition legacy_slot (content : text) : option slot :=
  match legacy_date legacy_patterns content with
  | Some s =>
      let time_matches := findall time_pattern content in
      match time_matches with
      | [] => Some s
      | _ :: _ =>
          Some {| date_text := date_text s;
                  time_text := last_of time_matches;
                  full_match := full_match s;
                  fmt := fmt s |}
      end
  | None => None
  end.

(** Lines 74-79. *)
Definition all_dates (content : text) : list text :=
  flat_map (fun pattern => findall pattern content) date_patterns.

Definition all_times (content : text) : list text := findall time_pattern content.

(** Lines 65-86. *)
Definition unanchored_slot (content : text) : option slot :=
  let dates := all_dates content in
  let times := all_times content in
  match dates, times with
  | _ :: _, _ :: _ =>
      Some {| date_text := last_of dates;
              time_text := last_of times;
              full_match := last_of dates ++ txt " at " ++ last_of times;
              fmt := None |}
  | _, _ => None
  end.

(** Lines 32-86: the fallback chain. *)
Definition find_slot (content : text) : option slot :=
  match standardized_slot content with
  | Some s => Some s
  | None =>
      match legacy_slot content with
      | Some s => Some s
      | None => unanchored_slot content
      end
  end.

(** *** Normalisation *)

Section WithParser.

(** [parser.parse(text, fuzzy=True)] of dateutil, given the current time
    (its default for the fields the text leaves out); [None] stands for
    the exception it raises. *)
Variable parse_fuzzy : datetime -> text -> option datetime.

(** [datetime.now()] *)
Variable now : datetime.

(** Lines 115-127; [None] stands for an exception. *)
Definition parse_legacy_date (date_text : text) : option datetime :=
  match search year_pattern date_text with
  | Some _ => parse_fuzzy now date_text
  | None =>
      match parse_fuzzy now date_text with
      | None => None
      | Some parsed_date =>
          if year parsed_date =? 1900 then
            match replace_year parsed_date (year now) with
            | None => None
            | Some parsed_date =>
                if dt_lt parsed_date now
                then replace_year parsed_date (year now + 1)
                else Some parsed_date
            end
          else Some parsed_date
      end
  end.

(** Lines 103-132: the value left in [result['formatted_date']]; an
    exception leaves the field empty. *)
Definition parse_date (s : slot) : option datetime :=
  if contains (txt "tomorrow") (lower (date_text s)) then add_one_day now
  else if contains (txt "today") (lower (date_text s)) then Some now
  else
    match fmt s with
    | Some standardized => strptime_mdY (date_text s)
    | _ => parse_legacy_date (date_text s)
    end.

Definition format_date (s : slot) : text :=
  match parse_date s with
  | Some parsed_date => strftime_dmY parsed_date
  | None => []
  end.

Definition format_hm (hours minutes : nat) : text :=
  zero_pad 2 hours ++ txt ":" ++ zero_pad 2 minutes.

(** Lines 138-152. *)
Definition format_standardized_time (time_str : text) : text :=
  match search standardized_time_pattern time_str with
  | Some time_match =>
      let hours := int_of_digits (group time_match 1) in
      let minutes := int_of_digits (group time_match 2) in
      let am_pm := upper (group time_match 3) in
      let hours :=
        if text_eqb am_pm (txt "PM") && negb (hours =? 12) then hours + 12
        else if text_eqb am_pm (txt "AM") && (hours =? 12) then 0
        else hours in
      format_hm hours minutes
  | None => []
  end.

(** [hour_match = re.search(r'(\d{1,2})', time_str)] and the default 0. *)
Definition hour_only (time_str : text) : nat * nat :=
  match search hour_pattern time_str with
  | Some hour_match => (int_of_digits (group hour_match 1), 0)
  | None => (0, 0)
  end.

(** Lines 155-175. *)
Definition format_legacy_time (time_str : text) : text :=
  let '(hours, minutes) :=
    if contains (txt ":") time_str || contains (txt ".") time_str then
      match search hour_minute_pattern time_str with
      | Some time_parts =>
          (int_of_digits (group time_parts 1), int_of_digits (group time_parts 2))
      | None => hour_only time_str
      end
    else hour_only time_str in
  let hours :=
    if contains (txt "pm") (lower time_str) && negb (hours =? 12) then hours + 12
    else if contains (txt "am") (lower time_str) && (hours =? 12) then 0
    else hours in
  format_hm hours minutes.

(** Lines 135-178: the value left in [result['formatted_time']]. *)
Definition format_time (s : slot) : text :=
  match fmt s with
  | Some standardized => format_standardized_time (time_text s)
  | _ => format_legacy_time (time_text s)
  end.

Definition empty_result : result :=
  {| formatted_date := []; formatted_time := []; raw_date_text := [];
     raw_time_text := []; full_text := [] |}.

(** Lines 88-178. *)
Definition process_slot (confirmed_slot : option slot) : result :=
  match confirmed_slot with
  | Some s =>
      {| formatted_date := format_date s;
         formatted_time := format_time s;
         raw_date_text := date_text s;
         raw_time_text := time_text s;
         full_text := full_match s |}
  | None => empty_result
  end.

(** The body of [extract_interview_slot] once the file has been read. *)
Definition extract_text (content : text) : result :=
  process_slot (find_slot content).

(** *** Files *)

(** The files that can be opened and read, by path, and the names
    [os.listdir] reports for a directory; a name can be listed and yet not
    be readable (removed in between, or a dangling link). *)
Record file_system := {
  files : gmap string text;
  listing : gmap string (list string)
}.

(** [extract_interview_slot]: [None] is Python's [None], returned from
    both [except] clauses. *)
Definition extract_interview_slot (fs : file_system) (transcript_file_path : string)
    : option result :=
  match files fs !! transcript_file_path with
  | Some content => Some (extract_text content)
  | None => None
  end.

Definition transcript_dir : string := "call-transcripts".

(** [f.endswith('.txt')] *)
Definition is_txt (f : string) : bool :=
  starts_with (rev (txt ".txt")) (rev (txt f)).

(** [os.path.join(transcript_dir, filename)] *)
Definition join (dir filename : string) : string :=
  (dir ++ "/" ++ filename)%string.

(** The loop of lines 230-235: a result is appended only when it is not
    [None]. *)
Fixpoint collect (fs : file_system) (transcript_files : list string) : list result :=
  match transcript_files with
  | [] => []
  | filename :: rest =>
      match extract_interview_slot fs (join transcript_dir filename) with
      | Some r => r :: collect fs rest
      | None => collect fs rest
      end
  end.

(** [process_all_transcripts]; [None] is the bare [return] taken when the
    directory is missing or holds no transcript. *)
Definition process_all_transcripts (fs : file_system) : option (list result) :=
  match listing fs !! transcript_dir with
  | None => None
  | Some names =>
      match List.filter is_txt names with
      | [] => None
      | transcript_files => Some (collect fs transcript_files)
      end
  end.

End WithParser.
End Extract.

(** ** [main.py]: the transcript of one call *)

Module Relay.
Import Chars DateTime.
Local Open Scope string_scope.

(** One entry of [conversation_transcripts[stream_sid]['messages']]. *)
Record message := {
  timestamp : datetime;
  speaker : string;
  text_of : string
}.

Record conversation := {
  call_sid : string;
  start_time : datetime;
  messages : list message
}.

(** A file of the transcript directory: the strings written to it so far,
    in order, and whether its handle is still open. *)
Record file := {
  written : list string;
  is_open : bool
}.

(** The two global dictionaries of the module, keyed by stream id, and the
    files behind the handles; [transcript_file_handles] keeps the file
    name, which also identifies the handle. *)
Record state := {
  conversation_transcripts : gmap string conversation;
  transcript_file_handles : gmap string string;
  disk : gmap string file
}.

Definition initial : state :=
  {| conversation_transcripts := ∅; transcript_file_handles := ∅; disk := ∅ |}.

Definition str (t : text) : string := string_of_list_ascii t.

Definition two (n : nat) : string := str (zero_pad 2 n).

(** [strftime('%H:%M:%S')] *)
Definition hms (t : datetime) : string :=
  two (hour t) ++ ":" ++ two (minute t) ++ ":" ++ two (second t).

(** [strftime('%Y-%m-%d %H:%M:%S')] *)
Definition date_hms (t : datetime) : string :=
  str (zero_pad 4 (year t)) ++ "-" ++ two (month t) ++ "-" ++ two (day t)
  ++ " " ++ hms t.

(** [strftime('%Y%m%d_%H%M%S')] *)
Definition file_stamp (t : datetime) : string :=
  str (zero_pad 4 (year t)) ++ two (month t) ++ two (day t) ++ "_"
  ++ two (hour t) ++ two (minute t) ++ two (second t).

Definition newline : string := String (ascii_of_nat 10) "".

Definition rule : string := str (repeat "="%char 50).

(** [file_handle.write(s)]; [None] stands for the [ValueError] raised on
    a closed file. *)
Definition write (d : gmap string file) (filename s : string)
    : option (gmap string file) :=
  match d !! filename with
  | Some f =>
      if is_open f
      then Some (<[filename := {| written := written f ++ [s]; is_open := true |}]> d)
      else None
  | None => None
  end.

(** [file_handle.close()] *)
Definition close (d : gmap string file) (filename : string) : gmap string file :=
  match d !! filename with
  | Some f => <[filename := {| written := written f; is_open := false |}]> d
  | None => d
  end.

Definition header (stream_sid call_sid : string) (start_time : datetime) : string :=
  "AI Interview Call Transcript" ++ newline
  ++ "Call SID: " ++ call_sid ++ newline
  ++ "Stream SID: " ++ stream_sid ++ newline
  ++ "Date: " ++ date_hms start_time ++ newline
  ++ rule ++ newline ++ newline.

(** [open_transcript_file] *)
Definition open_transcript_file (st : state) (stream_sid call_sid : string)
    (start_time : datetime) : state :=
  let filename :=
    "call-transcripts/call_" ++ call_sid ++ "_" ++ file_stamp start_time ++ ".txt" in
  {| conversation_transcripts := conversation_transcripts st;
     transcript_file_handles := <[stream_sid := filename]> (transcript_file_handles st);
     disk := <[filename := {| written := [header stream_sid call_sid start_time];
                              is_open := true |}]> (disk st) |}.

Definition utterance_line (now : datetime) (speaker text : string) : string :=
  "[" ++ hms now ++ "] " ++ speaker ++ ": " ++ text ++ newline ++ newline.

(** [write_to_transcript_file]; an exception is caught and changes
    nothing. *)
Definition write_to_transcript_file (st : state) (stream_sid speaker text : string)
    (now : datetime) : state :=
  match transcript_file_handles st !! stream_sid with
  | Some filename =>
      match write (disk st) filename (utterance_line now speaker text) with
      | Some d =>
          {| conversation_transcripts := conversation_transcripts st;
             transcript_file_handles := transcript_file_handles st;
             disk := d |}
      | None => st
      end
  | None => st
  end.

Definition footer (now : datetime) : string :=
  newline ++ rule ++ newline ++ "Call ended: " ++ date_hms now ++ newline.

(** The body of [close_transcript_file] inside its [try]; [None] stands
    for an exception. *)
Definition close_transcript_file_body (st : state) (stream_sid : string)
    (now : datetime) : option state :=
  match transcript_file_handles st !! stream_sid with
  | Some filename =>
      match write (disk st) filename (footer now) with
      | Some d =>
          Some {| conversation_transcripts := delete stream_sid (conversation_transcripts st);
                  transcript_file_handles := delete stream_sid (transcript_file_handles st);
                  disk := close d filename |}
      | None => None
      end
  | None => Some st
  end.

(** [close_transcript_file]: the [except] clause only prints. *)
Definition close_transcript_file (st : state) (stream_sid : string)
    (now : datetime) : state :=
  match close_transcript_file_body st stream_sid now with
  | Some st' => st'
  | None => st
  end.

Definition USER : string := "User".
Definition AI : string := "AI Assistant (Sarah)".

(** [s.strip()] as a truth value. *)
Definition non_blank (s : string) : bool :=
  match strip (txt s) with [] => false | _ :: _ => true end.

(** The events [send_to_twilio] receives from the speech service, by
    their ['type']. *)
Inductive openai_event :=
| session_updated
| response_audio_delta (delta : string)
| input_audio_transcription_completed (transcript : string)
| response_audio_transcript_delta (delta : string)
| response_audio_transcript_done
| response_done
| other_event (type : string).

Definition set_messages (st : state) (stream_sid : string) (c : conversation)
    (ms : list message) : state :=
  {| conversation_transcripts :=
       <[stream_sid := {| call_sid := call_sid c; start_time := start_time c;
                          messages := ms |}]> (conversation_transcripts st);
     transcript_file_handles := transcript_file_handles st;
     disk := disk st |}.

(** [messages[-1]['text'] += delta_text] when the last message is the
    assistant's, a new assistant message otherwise. *)
Definition accumulate (ms : list message) (delta_text : string) (now : datetime)
    : list message :=
  match List.last (map Some ms) None with
  | Some m =>
      if String.eqb (speaker m) AI then
        removelast ms ++ [{| timestamp := timestamp m; speaker := speaker m;
                             text_of := text_of m ++ delta_text |}]
      else ms ++ [{| timestamp := now; speaker := AI; text_of := delta_text |}]
  | None => ms ++ [{| timestamp := now; speaker := AI; text_of := delta_text |}]
  end.

(** One iteration of the loop of [send_to_twilio], for the stream id the
    sibling task has set (if any), as far as the transcript goes. *)
Definition send_to_twilio_step (st : state) (stream_sid : option string)
    (ev : openai_event) (now : datetime) : state :=
  match stream_sid with
  | None => st
  | Some sid =>
      if String.eqb sid "" then st else
      match conversation_transcripts st !! sid with
      | None => st
      | Some c =>
          match ev with
          | input_audio_transcription_completed transcript =>
              if non_blank transcript then
                write_to_transcript_file
                  (set_messages st sid c
                     (messages c ++ [{| timestamp := now; speaker := USER;
                                        text_of := transcript |}]))
                  sid USER transcript now
              else st
          | response_audio_transcript_delta delta_text =>
              if String.eqb delta_text "" then st
              else set_messages st sid c (accumulate (messages c) delta_text now)
          | response_audio_transcript_done =>
              match List.last (map Some (messages c)) None with
              | Some m =>
                  if String.eqb (speaker m) AI && non_blank (text_of m)
                  then write_to_transcript_file st sid AI (text_of m) now
                  else st
              | None => st
              end
          | _ => st
          end
      end
  end.

(** The ['start'] frame in [receive_from_twilio]. *)
Definition start_stream (st : state) (stream_sid call_sid : string)
    (start_time : datetime) : state :=
  open_transcript_file
    {| conversation_transcripts :=
         <[stream_sid := {| call_sid := call_sid; start_time := start_time;
                            messages := [] |}]> (conversation_transcripts st);
       transcript_file_handles := transcript_file_handles st;
       disk := disk st |}
    stream_sid call_sid start_time.

(** The events of one call in arrival order, each with the time it is
    handled at. *)
Fixpoint send_to_twilio (st : state) (stream_sid : option string)
    (events : list (openai_event * datetime)) : state :=
  match events with
  | [] => st
  | (ev, now) :: rest =>
      send_to_twilio (send_to_twilio_step st stream_sid ev now) stream_sid rest
  end.

(** The utterance lines of a transcript file: of the strings written to
    it, those that open with a bracketed time (the header opens with a
    letter and the footer with a line break). *)
Definition is_utterance_line (s : string) : bool :=
  match s with
  | String c _ => Ascii.eqb c "["
  | EmptyString => false
  end.

Definition utterance_lines (st : state) (filename : string) : list string :=
  match disk st !! filename with
  | Some f => List.filter is_utterance_line (written f)
  | None => []
  end.

Definition messages_of (st : state) (stream_sid : string) : list message :=
  match conversation_transcripts st !! stream_sid with
  | Some c => messages c
  | None => []
  end.

End Relay.

(** ** Vocabulary of the statements *)

Module Spec.
Import Chars Regex DateTime Extract.

(** The transcript of this name in the transcript directory can be read. *)
Definition readable (fs : file_system) (filename : string) : bool :=
  match files fs !! join transcript_dir filename with
  | Some _ => true
  | None => false
  end.

(** The characters of a date "ab-cd-efgh" of the standardized phrase. *)
Definition date_shape (a b c d e f g h : ascii) : Prop :=
  is_digit a = true /\ is_digit b = true /\ is_digit c = true
  /\ is_digit d = true /\ is_digit e = true /\ is_digit f = true
  /\ is_digit g = true /\ is_digit h = true.

(** The parts of a clock reading of the standardized phrase: one or two
    digits of hour, two of minutes, white space, and the two letters of
    the marker in either case. *)
Definition clock_shape (hh : text) (m1 m2 : ascii) (ws : text) (x y : ascii) : Prop :=
  forallb is_digit hh = true /\ 1 <= length hh <= 2
  /\ is_digit m1 = true /\ is_digit m2 = true
  /\ forallb is_space ws = true
  /\ (is_char_ci "A" x = true \/ is_char_ci "P" x = true)
  /\ is_char_ci "M" y = true.

(** The characters of a clock reading before its marker: digits, a
    separator, white space. *)
Definition plain (c : ascii) : bool :=
  is_digit c || is_space c || is_char ":" c || is_char "." c.







(** The hour of the twenty-four-hour clock: 12 AM is 0, 12 PM is 12, any
    other PM hour is twelve more. *)
Definition to_24h (h : nat) (pm : bool) : nat :=
  if pm then (if h =? 12 then 12 else h + 12)
  else (if h =? 12 then 0 else h).


End Spec.

(** ** Sample inputs *)

Module Samples.
Import Chars DateTime.
Local Open Scope string_scope.

(** 1 October 2025, 09:30. *)
Definition october_first : datetime :=
  {| year := 2025; month := 10; day := 1; hour := 9; minute := 30;
     second := 0; microsecond := 0 |}.

Definition call_start : datetime :=
  {| year := 2025; month := 6; day := 2; hour := 5; minute := 13;
     second := 34; microsecond := 0 |}.

Definition call_later : datetime :=
  {| year := 2025; month := 6; day := 2; hour := 5; minute := 14;
     second := 2; microsecond := 0 |}.

Definition call_end : datetime :=
  {| year := 2025; month := 6; day := 2; hour := 5; minute := 15;
     second := 40; microsecond := 0 |}.

(** A call whose stream has just started. *)
Definition started : Relay.state :=
  Relay.start_stream Relay.initial "MZ1" "CA1" call_start.

Definition transcript_name : string :=
  "call-transcripts/call_CA1_20250602_051334.txt".

(** Two assistant responses in a row, with no caller utterance recorded
    between them. *)
Definition two_responses : list (Relay.openai_event * datetime) :=
  [ (Relay.response_audio_transcript_delta "Hello", call_start);
    (Relay.response_audio_transcript_done, call_start);
    (Relay.response_done, call_start);
    (Relay.input_audio_transcription_completed " ", call_later);
    (Relay.response_audio_transcript_delta " there", call_later);
    (Relay.response_audio_transcript_done, call_later) ].

(** A caller who names a day without a year; the transcript has no
    confirmation keyword. *)
Definition march_third_text : text := txt "I am free at 4 PM on March 3rd".

Definition march_third_slot : Extract.slot :=
  {| Extract.date_text := txt "March 3rd"; Extract.time_text := txt "4 PM";
     Extract.full_match := txt "March 3rd at 4 PM"; Extract.fmt := None |}.

(** Two legacy confirmations, the second replacing the first. *)
Definition rescheduled_text : text :=
  txt "Interview scheduled for January 5th, 2041 at 10:00 AM. Sorry, rescheduled for February 7th, 2041 at 3:00 PM".

(** A standardized confirmation whose date is no day of the calendar. *)
Definition impossible_date_text : text :=
  txt "Let me confirm the interview on 02-30-2025 at 04:30 PM".

End Samples.

(** ** [main.py]: one call from its first frame to the end *)

Module Call.
Import Chars DateTime Relay.
Local Open Scope string_scope.

(** [append_to_transcript_file] *)
Definition append_to_transcript_file (st : state) (stream_sid text : string) : state :=
  match transcript_file_handles st !! stream_sid with
  | Some filename =>
      match write (disk st) filename text with
      | Some d =>
          {| conversation_transcripts := conversation_transcripts st;
             transcript_file_handles := transcript_file_handles st;
             disk := d |}
      | None => st
      end
  | None => st
  end.

(** The name [open_transcript_file] gives the file of a call. *)
Definition transcript_path (call_sid : string) (start_time : datetime) : string :=
  "call-transcripts/call_" ++ call_sid ++ "_" ++ file_stamp start_time ++ ".txt".








(** *** The conversation as turns *)

(** An utterance as it arrives: a caller transcript, or the pieces of an
    assistant response followed by its completion signal. *)
Inductive turn :=
| caller_says (transcript : string) (now : datetime)
| assistant_says (deltas : list (string * datetime)) (done : datetime).

Definition spoken (deltas : list (string * datetime)) : string :=
  fold_right (fun d s => fst d ++ s) "" deltas.

Definition delta_events (deltas : list (string * datetime))
    : list (openai_event * datetime) :=
  map (fun d => (response_audio_transcript_delta (fst d), snd d)) deltas.

Definition events_of (t : turn) : list (openai_event * datetime) :=
  match t with
  | caller_says transcript now =>
      [(input_audio_transcription_completed transcript, now)]
  | assistant_says deltas done =>
      delta_events deltas ++ [(response_audio_transcript_done, done)]
  end.

Definition text_of_turn (t : turn) : string :=
  match t with
  | caller_says transcript _ => transcript
  | assistant_says deltas _ => spoken deltas
  end.

Definition line_of (t : turn) : string :=
  match t with
  | caller_says transcript now => utterance_line now USER transcript
  | assistant_says deltas done => utterance_line done AI (spoken deltas)
  end.

Definition is_assistant_turn (t : turn) : bool :=
  match t with assistant_says _ _ => true | caller_says _ _ => false end.

(** Every turn has something to say, and the assistant never speaks
    twice in a row. *)
Fixpoint alternating (turns : list turn) : bool :=
  match turns with
  | [] => true
  | t :: rest =>
      non_blank (text_of_turn t)
      && match rest with
         | t' :: _ => negb (is_assistant_turn t && is_assistant_turn t')
         | [] => true
         end
      && alternating rest
  end.

(** *** Reading the message list *)

Definition is_assistant (m : message) : bool := String.eqb (speaker m) AI.
Definition is_caller (m : message) : bool := String.eqb (speaker m) USER.

(** All the assistant said, as recorded. *)
Definition assistant_text (ms : list message) : string :=
  fold_right (fun m s => text_of m ++ s) "" (List.filter is_assistant ms).

Definition caller_texts (ms : list message) : list string :=
  map text_of (List.filter is_caller ms).

(** The text pieces and the caller transcripts among the events. *)
Definition deltas_of (events : list (openai_event * datetime)) : string :=
  fold_right
    (fun e s =>
       match fst e with
       | response_audio_transcript_delta d => d ++ s
       | _ => s
       end) "" events.

Definition transcripts_of (events : list (openai_event * datetime)) : list string :=
  flat_map
    (fun e =>
       match fst e with
       | input_audio_transcription_completed t => if non_blank t then [t] else []
       | _ => []
       end) events.

(** No two neighbours are both the assistant's. *)
Fixpoint no_adjacent_assistant (ms : list message) : bool :=
  match ms with
  | m :: (m' :: _) as rest =>
      negb (is_assistant m && is_assistant m') && no_adjacent_assistant rest
  | _ => true
  end.

(** *** The states a call goes through *)

(** The state of the module while the transcript of [sid] is being
    written to [fn]: over [st0], the conversation [c], the handle, and
    the file with [w] written so far. *)
Definition recording (st0 : state) (sid fn : string) (c : conversation)
    (w : list string) : state :=
  {| conversation_transcripts := <[sid := c]> (conversation_transcripts st0);
     transcript_file_handles := <[sid := fn]> (transcript_file_handles st0);
     disk := <[fn := {| written := w; is_open := true |}]> (disk st0) |}.

(** What one event makes of the message list. *)
Definition next_messages (ms : list message) (ev : openai_event) (now : datetime)
    : list message :=
  match ev with
  | input_audio_transcription_completed transcript =>
      if non_blank transcript
      then (ms ++ [{| timestamp := now; speaker := USER; text_of := transcript |}])%list
      else ms
  | response_audio_transcript_delta delta_text =>
      if String.eqb delta_text "" then ms else accumulate ms delta_text now
  | _ => ms
  end.

(** The line one event adds to the file, if any. *)
Definition next_lines (ms : list message) (ev : openai_event) (now : datetime)
    : list string :=
  match ev with
  | input_audio_transcription_completed transcript =>
      if non_blank transcript then [utterance_line now USER transcript] else []
  | response_audio_transcript_done =>
      match List.last (map Some ms) None with
      | Some m =>
          if String.eqb (speaker m) AI && non_blank (text_of m)
          then [utterance_line now AI (text_of m)] else []
      | None => []
      end
  | _ => []
  end.

Definition with_messages (c : conversation) (ms : list message) : conversation :=
  {| call_sid := call_sid c; start_time := start_time c; messages := ms |}.

(** The messages and the lines a list of events leaves. *)
Fixpoint messages_after (ms : list message) (events : list (openai_event * datetime))
    : list message :=
  match events with
  | [] => ms
  | (ev, now) :: rest => messages_after (next_messages ms ev now) rest
  end.

Fixpoint lines_after (ms : list message) (events : list (openai_event * datetime))
    : list string :=
  match events with
  | [] => []
  | (ev, now) :: rest =>
      (next_lines ms ev now ++ lines_after (next_messages ms ev now) rest)%list
  end.


Definition last_is_assistant (ms : list message) : bool :=
  match List.last (map Some ms) None with
  | Some m => String.eqb (speaker m) AI
  | None => false
  end.


Definition speaker_of (t : turn) : string :=
  match t with caller_says _ _ => USER | assistant_says _ _ => AI end.

End Call.

(** ** [storage.py]: the records kept in memory *)

(** A Python [dict] with integer keys: the entries in insertion order.
    Assigning to a key that is present keeps its place; a new key goes to
    the end. *)
Module PyDict.
Import ZArith.
Local Open Scope Z_scope.

Section Dict.
Context {V : Type}.

Definition dict := list (Z * V).

(** [d.get(k)] *)
Fixpoint get (k : Z) (d : dict) : option V :=
  match d with
  | [] => None
  | (k', v) :: rest => if k' =? k then Some v else get k rest
  end.

(** [d[k] = v] *)
Fixpoint set (k : Z) (v : V) (d : dict) : dict :=
  match d with
  | [] => [(k, v)]
  | (k', v') :: rest =>
      if k' =? k then (k, v) :: rest else (k', v') :: set k v rest
  end.

(** [del d[k]], for a key that is present. *)
Fixpoint del (k : Z) (d : dict) : dict :=
  match d with
  | [] => []
  | (k', v) :: rest => if k' =? k then rest else (k', v) :: del k rest
  end.

(** [list(d.values())] *)
Definition values (d : dict) : list V := map snd d.

(** [list(d.keys())] *)
Definition keys (d : dict) : list Z := map fst d.

End Dict.
Arguments dict : clear implicits.
End PyDict.

Module Storage.
Import ZArith QArith Sorted DateTime.
Local Open Scope Z_scope.

(** *** [models.py] *)

(** [JobCreate] *)
Record JobCreate := {
  new_title : string;
  new_description : string;
  new_experience_level : string;
  new_job_type : string;
  new_keywords : string
}.

(** [Job] *)
Record Job := {
  job_number : Z;
  job_created_at : datetime;
  job_fields : JobCreate
}.

(** [CandidateCreate]; [email] has passed [EmailStr]. *)
Record CandidateCreate := {
  name : string;
  email : string;
  phone : string;
  experience : Z;
  resume_content : string;
  resume_file_name : string
}.

(** [Candidate] *)
Record Candidate := {
  candidate_number : Z;
  candidate_created_at : datetime;
  candidate_fields : CandidateCreate
}.

(** [JobMatchCreate]; a finite [float] is the rational it denotes. *)
Record JobMatchCreate := {
  job_id : Z;
  candidate_id : Z;
  match_percentage : Q;
  ai_reasoning : option string
}.

(** [JobMatch] *)
Record JobMatch := {
  match_number : Z;
  match_created_at : datetime;
  match_fields : JobMatchCreate
}.

(** [JobMatchResult] *)
Record JobMatchResult := {
  result_match : JobMatch;
  result_job : Job;
  result_candidate : Candidate
}.

(** *** [MemoryStorage] *)

Record storage := {
  jobs : PyDict.dict Job;
  candidates : PyDict.dict Candidate;
  job_matches : PyDict.dict JobMatch;
  current_job_id : Z;
  current_candidate_id : Z;
  current_match_id : Z
}.

(** [__init__] *)
Definition init : storage :=
  {| jobs := []; candidates := []; job_matches := [];
     current_job_id := 1; current_candidate_id := 1; current_match_id := 1 |}.

(** [create_job] *)
Definition create_job (s : storage) (job_data : JobCreate) (now : datetime)
    : storage * Job :=
  let job := {| job_number := current_job_id s; job_created_at := now;
                job_fields := job_data |} in
  ({| jobs := PyDict.set (current_job_id s) job (jobs s);
      candidates := candidates s;
      job_matches := job_matches s;
      current_job_id := current_job_id s + 1;
      current_candidate_id := current_candidate_id s;
      current_match_id := current_match_id s |}, job).

(** [get_job] *)
Definition get_job (s : storage) (job_id : Z) : option Job :=
  PyDict.get job_id (jobs s).

(** [get_all_jobs] *)
Definition get_all_jobs (s : storage) : list Job := PyDict.values (jobs s).

Section WithEmailStr.

(** The validation [EmailStr] runs when a model is built: the address in
    its normal form, or [None] for the [ValidationError] raised. *)
Variable email_str : string -> option string.

(** [Candidate(id=..., created_at=..., **candidate_data.model_dump())]:
    building the model validates the address once more. *)
Definition build_candidate (number : Z) (now : datetime)
    (candidate_data : CandidateCreate) : option Candidate :=
  match email_str (email candidate_data) with
  | Some address =>
      Some {| candidate_number := number; candidate_created_at := now;
              candidate_fields :=
                {| name := name candidate_data;
                   email := address;
                   phone := phone candidate_data;
                   experience := experience candidate_data;
                   resume_content := resume_content candidate_data;
                   resume_file_name := resume_file_name candidate_data |} |}
  | None => None
  end.

(** [create_candidate]; [None] when building the model raises, before
    anything is stored. *)
Definition create_candidate (s : storage) (candidate_data : CandidateCreate)
    (now : datetime) : option (storage * Candidate) :=
  match build_candidate (current_candidate_id s) now candidate_data with
  | Some candidate =>
      Some ({| jobs := jobs s;
               candidates := PyDict.set (current_candidate_id s) candidate
                               (candidates s);
               job_matches := job_matches s;
               current_job_id := current_job_id s;
               current_candidate_id := current_candidate_id s + 1;
               current_match_id := current_match_id s |}, candidate)
  | None => None
  end.

End WithEmailStr.

(** [get_candidate] *)
Definition get_candidate (s : storage) (candidate_id : Z) : option Candidate :=
  PyDict.get candidate_id (candidates s).

(** [get_all_candidates] *)
Definition get_all_candidates (s : storage) : list Candidate :=
  PyDict.values (candidates s).

(** [get_candidate_by_email]: the first in the order of the dictionary. *)
Definition get_candidate_by_email (s : storage) (address : string)
    : option Candidate :=
  List.find (fun candidate => String.eqb (email (candidate_fields candidate)) address)
    (PyDict.values (candidates s)).

(** [create_job_match] *)
Definition create_job_match (s : storage) (match_data : JobMatchCreate)
    (now : datetime) : storage * JobMatch :=
  let m := {| match_number := current_match_id s; match_created_at := now;
              match_fields := match_data |} in
  ({| jobs := jobs s;
      candidates := candidates s;
      job_matches := PyDict.set (current_match_id s) m (job_matches s);
      current_job_id := current_job_id s;
      current_candidate_id := current_candidate_id s;
      current_match_id := current_match_id s + 1 |}, m).

Definition percentage (m : JobMatch) : Q := match_percentage (match_fields m).

(** [a < b] on percentages. *)
Definition below (a b : Q) : bool := negb (Qle_bool b a).

(** [matches.sort(key=lambda x: x.match_percentage, reverse=True)]: the
    sort is stable, so a match goes in front of the first one that is not
    above it. *)
Fixpoint insert_match (m : JobMatch) (sorted : list JobMatch) : list JobMatch :=
  match sorted with
  | [] => [m]
  | m' :: rest =>
      if below (percentage m) (percentage m')
      then m' :: insert_match m rest
      else m :: sorted
  end.

Definition sort_descending (matches : list JobMatch) : list JobMatch :=
  fold_right insert_match [] matches.

(** The loop of lines 78-88: a match whose job or candidate is gone is
    left out. *)
Definition join (s : storage) (m : JobMatch) : option JobMatchResult :=
  match PyDict.get (job_id (match_fields m)) (jobs s),
        PyDict.get (candidate_id (match_fields m)) (candidates s) with
  | Some job, Some candidate =>
      Some {| result_match := m; result_job := job; result_candidate := candidate |}
  | _, _ => None
  end.

Definition of_job (job : option Z) (m : JobMatch) : bool :=
  match job with
  | Some j => job_id (match_fields m) =? j
  | None => true
  end.

Definition at_least (min_percentage : option Q) (m : JobMatch) : bool :=
  match min_percentage with
  | Some p => Qle_bool p (percentage m)
  | None => true
  end.

Fixpoint joined (s : storage) (matches : list JobMatch) : list JobMatchResult :=
  match matches with
  | [] => []
  | m :: rest =>
      match join s m with
      | Some r => r :: joined s rest
      | None => joined s rest
      end
  end.

(** [get_job_matches] *)
Definition get_job_matches (s : storage) (job : option Z)
    (min_percentage : option Q) : list JobMatchResult :=
  let matches := PyDict.values (job_matches s) in
  let matches := List.filter (of_job job) matches in
  let matches := List.filter (at_least min_percentage) matches in
  joined s (sort_descending matches).

(** [delete_job_matches_by_job_id] *)
Definition delete_job_matches_by_job_id (s : storage) (job : Z) : storage :=
  let matches_to_delete :=
    map fst (List.filter (fun item => job_id (match_fields (snd item)) =? job)
               (job_matches s)) in
  {| jobs := jobs s;
     candidates := candidates s;
     job_matches := fold_left (fun d match_id => PyDict.del match_id d)
                      matches_to_delete (job_matches s);
     current_job_id := current_job_id s;
     current_candidate_id := current_candidate_id s;
     current_match_id := current_match_id s |}.

(** *** Histories *)

(** The calls made on the store. *)
Inductive request :=
| CreateJob (job_data : JobCreate) (now : datetime)
| CreateCandidate (candidate_data : CandidateCreate) (now : datetime)
| CreateJobMatch (match_data : JobMatchCreate) (now : datetime)
| DeleteJobMatches (job : Z).

Definition serve (email_str : string -> option string) (s : storage) (r : request)
    : storage :=
  match r with
  | CreateJob job_data now => fst (create_job s job_data now)
  | CreateCandidate candidate_data now =>
      match create_candidate email_str s candidate_data now with
      | Some (s', _) => s'
      | None => s
      end
  | CreateJobMatch match_data now => fst (create_job_match s match_data now)
  | DeleteJobMatches job => delete_job_matches_by_job_id s job
  end.

Definition history (email_str : string -> option string) (requests : list request)
    : storage :=
  fold_left (serve email_str) requests init.

(** The numbers 1, 2, ..., n. *)
Definition first_numbers (n : nat) : list Z := map Z.of_nat (seq 1 n).

(** The keys of a dictionary are all the numbers issued so far, in
    order. *)
Definition issued (keys : list Z) (next : Z) : Prop :=
  keys = first_numbers (length keys) /\ next = Z.of_nat (S (length keys)).

(** The keys of a dictionary are some of the numbers issued so far, in
    order. *)
Definition ascending_below (keys : list Z) (next : Z) : Prop :=
  StronglySorted Z.lt keys /\ Forall (fun k => k < next) keys.

(** Every record carries the key it is stored under. *)
Definition numbered {V : Type} (number : V -> Z) (d : PyDict.dict V) : Prop :=
  Forall (fun item => number (snd item) = fst item) d.

Definition well_kept (s : storage) : Prop :=
  issued (PyDict.keys (jobs s)) (current_job_id s)
  /\ issued (PyDict.keys (candidates s)) (current_candidate_id s)
  /\ ascending_below (PyDict.keys (job_matches s)) (current_match_id s)
  /\ numbered job_number (jobs s)
  /\ numbered candidate_number (candidates s)
  /\ numbered match_number (job_matches s).

(** How many jobs a list of calls creates. *)
Definition jobs_created (requests : list request) : nat :=
  length (List.filter (fun r => match r with CreateJob _ _ => true | _ => false end)
            requests).

(** The order of [get_job_matches]: higher percentage first, and among
    equal percentages the match created first; on the matches
    themselves, and on the results. *)
Definition match_before (a b : JobMatch) : Prop :=
  (percentage b < percentage a)%Q
  \/ ((percentage a == percentage b)%Q /\ match_number a < match_number b).

Definition created_before (a b : JobMatch) : Prop := match_number a < match_number b.

(** The results that are not about a given job. *)
Definition not_about (job : Z) (r : JobMatchResult) : bool :=
  negb (job_id (match_fields (result_match r)) =? job).

Definition before (a b : JobMatchResult) : Prop :=
  (percentage (result_match b) < percentage (result_match a))%Q
  \/ ((percentage (result_match a) == percentage (result_match b))%Q
      /\ match_number (result_match a) < match_number (result_match b)).

End Storage.

(** ** [main.py]: the record endpoints *)

Module Api.
Import ZArith QArith Chars DateTime Storage.
Local Open Scope Z_scope.
Local Open Scope string_scope.

(** The [detail] of an [HTTPException]: a fixed text, or a fixed text
    followed by the text of the exception that caused it. *)
Inductive detail :=
| says (text : string)
| says_with_cause (text : string).

Record HTTPException := {
  status_code : nat;
  detail_of : detail
}.

(** What an endpoint answers: the value it returns, or the exception it
    raises. *)
Inductive answer (A : Type) :=
| returns (a : A)
| raises (e : HTTPException).
Arguments returns {A} a.
Arguments raises {A} e.

(** [create_job] *)
Definition create_job (s : storage) (job : JobCreate) (now : datetime)
    : storage * answer Job :=
  let '(s', created) := Storage.create_job s job now in (s', returns created).

(** [get_jobs] *)
Definition get_jobs (s : storage) : list Job := get_all_jobs s.

(** [get_job] *)
Definition get_job (s : storage) (job_id : Z) : answer Job :=
  match Storage.get_job s job_id with
  | Some job => returns job
  | None => raises {| status_code := 404; detail_of := says "Job not found" |}
  end.

(** The parts of an [UploadFile] the endpoint reads. *)
Record UploadFile := {
  content_type : option string;
  filename : option string
}.

(** [ExtractedResumeData] *)
Record ExtractedResumeData := {
  extracted_name : string;
  extracted_email : string;
  extracted_phone : string;
  extracted_experience : Z;
  extracted_resume_content : string
}.

(** The truth value of an optional string: [None] and the empty string
    are false. *)
Definition given (s : option string) : bool :=
  match s with
  | Some (String _ _) => true
  | _ => false
  end.

(** [s or default] *)
Definition or_else (s : option string) (default : string) : string :=
  if given s then match s with Some v => v | None => default end else default.

(** [str(n)] for an integer. *)
Definition str_int (n : Z) : string :=
  if (n <? 0)%Z
  then "-" ++ Relay.str (decimal (Z.to_nat (- n)%Z))
  else Relay.str (decimal (Z.to_nat n)).

Definition bad_request (d : detail) : HTTPException :=
  {| status_code := 400; detail_of := d |}.

Section WithEmailStr.

Variable email_str : string -> option string.

(** [CandidateCreate(...)]: the model is built when the address passes
    [EmailStr], and then holds the address in its normal form. *)
Definition build_candidate_create (name email phone : string) (experience : Z)
    (resume_content resume_file_name : string) : option CandidateCreate :=
  match email_str email with
  | Some address =>
      Some {| Storage.name := name; Storage.email := address;
              Storage.phone := phone; Storage.experience := experience;
              Storage.resume_content := resume_content;
              Storage.resume_file_name := resume_file_name |}
  | None => None
  end.

(** Lines 124-156: the candidate read from the request.  [extracted] is
    what [extract_resume_data_from_image] returns for the uploaded image,
    [None] when it raises. *)
Definition read_candidate (resume : UploadFile)
    (name email phone : option string) (experience : option Z)
    (extracted : option ExtractedResumeData) : answer CandidateCreate :=
  let is_image :=
    match content_type resume with
    | Some t => starts_with (txt "image/") (txt t)
    | None => false
    end in
  if is_image then
    match extracted with
    | Some extracted_data =>
        match build_candidate_create
                (extracted_name extracted_data) (extracted_email extracted_data)
                (extracted_phone extracted_data)
                (extracted_experience extracted_data)
                (extracted_resume_content extracted_data)
                (or_else (filename resume) "image_resume") with
        | Some candidate_data => returns candidate_data
        | None =>
            raises (bad_request (says_with_cause "Failed to process resume image: "))
        end
    | None =>
        raises (bad_request (says_with_cause "Failed to process resume image: "))
    end
  else
    match experience with
    | Some years =>
        if given name && given email && given phone then
          let resume_content :=
            "Resume for " ++ or_else name "" ++ ". Experience: " ++ str_int years
            ++ " years. Email: " ++ or_else email "" ++ ". Phone: "
            ++ or_else phone "" ++ "." in
          match build_candidate_create (or_else name "") (or_else email "")
                  (or_else phone "") years resume_content
                  (or_else (filename resume) "resume.pdf") with
          | Some candidate_data => returns candidate_data
          | None =>
              raises (bad_request (says_with_cause "Failed to create candidate: "))
          end
        else
          raises (bad_request
                    (says "For PDF files, please provide name, email, phone, and experience"))
    | None =>
        raises (bad_request
                  (says "For PDF files, please provide name, email, phone, and experience"))
    end.

(** [create_candidate] *)
Definition create_candidate (s : storage) (resume : UploadFile)
    (name email phone : option string) (experience : option Z)
    (extracted : option ExtractedResumeData) (now : datetime)
    : storage * answer Candidate :=
  if negb (given (content_type resume)) then
    (s, raises (bad_request (says "Invalid file type")))
  else
    match read_candidate resume name email phone experience extracted with
    | raises e => (s, raises e)
    | returns candidate_data =>
        match get_candidate_by_email s (Storage.email candidate_data) with
        | Some _ =>
            (s, raises (bad_request (says "Candidate with this email already exists")))
        | None =>
            match Storage.create_candidate email_str s candidate_data now with
            | Some (s', candidate) => (s', returns candidate)
            | None =>
                (s, raises (bad_request (says_with_cause "Failed to create candidate: ")))
            end
        end
    end.

End WithEmailStr.

(** [get_candidates] *)
Definition get_candidates (s : storage) : list Candidate := get_all_candidates s.

(** [get_matches]: a [min_percentage] left out of the request is 50. *)
Definition get_matches (s : storage) (job_id : option Z) (min_percentage : option Q)
    : list JobMatchResult :=
  get_job_matches s job_id
    (Some match min_percentage with Some p => p | None => 50%Q end).

(** The parts of a [PlainTextResponse] the endpoint sets. *)
Record PlainTextResponse := {
  content : string;
  content_disposition : string
}.

Definition quote : string := String (ascii_of_nat 34) "".

(** [download_resume] *)
Definition download_resume (s : storage) (candidate_id : Z)
    : answer PlainTextResponse :=
  match get_candidate s candidate_id with
  | Some candidate =>
      returns {| content := Storage.resume_content (candidate_fields candidate);
                 content_disposition :=
                   "attachment; filename=" ++ quote
                   ++ Storage.resume_file_name (candidate_fields candidate)
                   ++ quote |}
  | None =>
      raises {| status_code := 404; detail_of := says "Candidate not found" |}
  end.

(** One call of [create_candidate]. *)
Record upload := {
  resume : UploadFile;
  form_name : option string;
  form_email : option string;
  form_phone : option string;
  form_experience : option Z;
  extracted : option ExtractedResumeData;
  received : datetime
}.

Definition answer_to (email_str : string -> option string) (s : storage) (u : upload)
    : storage * answer Candidate :=
  create_candidate email_str s (resume u) (form_name u) (form_email u)
    (form_phone u) (form_experience u) (extracted u) (received u).

Definition receive (email_str : string -> option string) (s : storage) (u : upload)
    : storage :=
  fst (answer_to email_str s u).

(** The candidate an upload describes, when it describes one. *)
Definition read (email_str : string -> option string) (u : upload)
    : answer CandidateCreate :=
  read_candidate email_str (resume u) (form_name u) (form_email u) (form_phone u)
    (form_experience u) (extracted u).

(** The addresses of the stored candidates, in the order of the store. *)
Definition addresses (s : storage) : list string :=
  map (fun candidate => Storage.email (candidate_fields candidate))
    (get_all_candidates s).

(** Validating an address that has been validated changes nothing. *)
Definition settled (email_str : string -> option string) : Prop :=
  forall raw address, email_str raw = Some address -> email_str address = Some address.

End Api.

(** ** Sample records *)

Module Records.
Import ZArith Chars DateTime Storage Api.
Local Open Scope string_scope.

(** A stand-in for [EmailStr] in the samples: it accepts the addresses
    with an at sign, as they are. *)
Definition with_at_sign (raw : string) : option string :=
  if contains (txt "@") (txt raw) then Some raw else None.

Definition pdf_of_ada : upload :=
  {| resume := {| content_type := Some "application/pdf";
                  filename := Some "ada.pdf" |};
     form_name := Some "Ada"; form_email := Some "ada@example.org";
     form_phone := Some "555-0100"; form_experience := Some 7%Z;
     extracted := None; received := Samples.call_start |}.

Definition image_of_ada : upload :=
  {| resume := {| content_type := Some "image/png"; filename := None |};
     form_name := None; form_email := None; form_phone := None;
     form_experience := None;
     extracted := Some {| extracted_name := "Ada L.";
                          extracted_email := "ada@example.org";
                          extracted_phone := "No phone provided";
                          extracted_experience := 7%Z;
                          extracted_resume_content := "Analyst" |};
     received := Samples.call_later |}.

Definition same_address_twice : list upload := [pdf_of_ada; image_of_ada].

Definition pdf_of_grace : upload :=
  {| resume := {| content_type := Some "application/pdf";
                  filename := Some "grace.pdf" |};
     form_name := Some "Grace"; form_email := Some "grace@example.org";
     form_phone := Some "555-0101"; form_experience := Some 12%Z;
     extracted := None; received := Samples.call_later |}.

Definition analyst : JobCreate :=
  {| new_title := "Analyst"; new_description := "Reads transcripts";
     new_experience_level := "mid"; new_job_type := "full-time";
     new_keywords := "rocq" |}.

(** One job, one candidate, and two matches between them: 80 and 30 per
    cent. *)
Definition two_matches : storage :=
  history with_at_sign
    [ CreateJob analyst Samples.call_start;
      CreateCandidate {| name := "Ada"; email := "ada@example.org";
                         phone := "555-0100"; experience := 7%Z;
                         resume_content := "Analyst";
                         resume_file_name := "ada.pdf" |} Samples.call_start;
      CreateJobMatch {| job_id := 1%Z; candidate_id := 1%Z;
                        match_percentage := QArith_base.Qmake 30 1;
                        ai_reasoning := None |} Samples.call_later;
      CreateJobMatch {| job_id := 1%Z; candidate_id := 1%Z;
                        match_percentage := QArith_base.Qmake 80 1;
                        ai_reasoning := Some "recent skills" |} Samples.call_end ].

Definition good_match : JobMatchResult :=
  {| result_match :=
       {| match_number := 2%Z; match_created_at := Samples.call_end;
          match_fields := {| job_id := 1%Z; candidate_id := 1%Z;
                             match_percentage := QArith_base.Qmake 80 1;
                             ai_reasoning := Some "recent skills" |} |};
     result_job := {| job_number := 1%Z; job_created_at := Samples.call_start;
                      job_fields := analyst |};
     result_candidate :=
       {| candidate_number := 1%Z; candidate_created_at := Samples.call_start;
          candidate_fields := {| name := "Ada"; email := "ada@example.org";
                                 phone := "555-0100"; experience := 7%Z;
                                 resume_content := "Analyst";
                                 resume_file_name := "ada.pdf" |} |} |}.

End Records.

(** ** What a pattern asks of the text *)

Module Shapes.
Import Chars Regex.

(** Every character of class [p] is of class [q]. *)
Definition class_within (p q : ascii -> bool) : bool :=
  forallb (fun c => if p c then q c else true) all_chars.

(** A sufficient check that every text the pattern matches holds a
    character of class [q]. *)
Fixpoint demands (q : ascii -> bool) (r : regex) : bool :=
  match r with
  | Eps => false
  | Cls p => class_within p q
  | Seq a b => demands q a || demands q b
  | Alt a b => demands q a && demands q b
  | Opt _ => false
  | Rep _ lo _ p => (0 <? lo) && class_within p q
  | Grp _ a => demands q a
  | WordB => false
  end.

(** [t] is a piece of [s]: consecutive characters of it. *)
Definition piece_of (t s : text) : Prop := exists a b, s = a ++ t ++ b.

(** There is no digit in the text. *)
Definition digitless (s : text) : bool := forallb (fun c => negb (is_digit c)) s.

End Shapes.

(** * Properties *)

Import Chars Regex DateTime Extract Spec.

(** ** Text and the fields of the result *)



(** The fields of the result, stage by stage. *)
Section ResultFields.
Variable parse_fuzzy : datetime -> text -> option datetime.
Variable now : datetime.

Lemma extract_with_slot content s :
  find_slot content = Some s ->
  extract_text parse_fuzzy now content
  = {| formatted_date := format_date parse_fuzzy now s;
       formatted_time := format_time s;
       raw_date_text := date_text s;
       raw_time_text := time_text s;
       full_text := full_match s |}.
Proof. intros H. unfold extract_text. now rewrite H. Qed.

Lemma extract_without_slot content :
  find_slot content = None ->
  extract_text parse_fuzzy now content = empty_result.
Proof. intros H. unfold extract_text. now rewrite H. Qed.

End ResultFields.

(** ** Facts about single characters *)

Lemma all_ascii (P : ascii -> bool) :
  forallb P all_chars = true -> forall c, P c = true.
Proof.
  intros H c. rewrite forallb_forall in H. apply H.
  rewrite <- (ascii_nat_embedding c). unfold all_chars.
  apply in_map, in_seq. pose proof (nat_ascii_bounded c). lia.
Qed.

Lemma marker_a x :
  is_char_ci "A" x = true ->
  upper_char x = "A"%char /\ is_space x = false /\ is_char_ci "P" x = false.
Proof.
  intros Hx.
  pose proof (all_ascii (fun x => implb (is_char_ci "A" x)
     (Ascii.eqb (upper_char x) "A" && negb (is_space x) && negb (is_char_ci "P" x)))
     eq_refl x) as H.
  cbv beta in H. rewrite Hx in H. simpl in H.
  apply andb_true_iff in H as [H H3]. apply andb_true_iff in H as [H1 H2].
  apply Ascii.eqb_eq in H1. apply negb_true_iff in H2, H3. auto.
Qed.

Lemma marker_p x :
  is_char_ci "P" x = true ->
  upper_char x = "P"%char /\ is_space x = false /\ is_char_ci "A" x = false.
Proof.
  intros Hx.
  pose proof (all_ascii (fun x => implb (is_char_ci "P" x)
     (Ascii.eqb (upper_char x) "P" && negb (is_space x) && negb (is_char_ci "A" x)))
     eq_refl x) as H.
  cbv beta in H. rewrite Hx in H. simpl in H.
  apply andb_true_iff in H as [H H3]. apply andb_true_iff in H as [H1 H2].
  apply Ascii.eqb_eq in H1. apply negb_true_iff in H2, H3. auto.
Qed.

Lemma marker_m y : is_char_ci "M" y = true -> upper_char y = "M"%char.
Proof.
  intros Hy.
  pose proof (all_ascii (fun y => implb (is_char_ci "M" y)
     (Ascii.eqb (upper_char y) "M")) eq_refl y) as H.
  cbv beta in H. rewrite Hy in H. now apply Ascii.eqb_eq in H.
Qed.

Ltac by_ascii_cases c :=
  destruct c as [[] [] [] [] [] [] [] []]; vm_compute; congruence.

Lemma digit_not_space c : is_digit c = true -> is_space c = false.
Proof. by_ascii_cases c. Qed.

Lemma space_not_alpha c : is_space c = true -> is_alpha c = false.
Proof. by_ascii_cases c. Qed.

Lemma space_not_digit c : is_space c = true -> is_digit c = false.
Proof. by_ascii_cases c. Qed.

(** ** The matcher on runs of a character class *)

(** A greedy repetition over a class takes a whole run [w] of the class
    when the run ends there (or the bound is reached) and the rest of the
    pattern accepts what follows: the first path tried succeeds. *)
Lemma rep_greedy_takes {A} (p : ascii -> bool) (w : text) :
  forall lo hi bef rest (k : text -> text -> option A) x,
  forallb p w = true ->
  lo <= length w ->
  within hi (length w) (stops_at p rest) ->
  k (rev w ++ bef) rest = Some x ->
  rep_greedy p lo hi bef (w ++ rest) k = Some x.
Proof.
  induction w as [|c w IH]; intros lo hi bef rest k x Hp Hlo Hhi Hk; simpl in *.
  - assert (lo = 0) by lia. subst lo.
    destruct rest as [|c rest]; simpl; [exact Hk|].
    destruct hi as [[|m]|]; simpl in *.
    + rewrite andb_false_r. exact Hk.
    + destruct Hhi as [_ [Hm|Hs]]; [discriminate|].
      apply negb_true_iff in Hs. rewrite Hs. exact Hk.
    + apply negb_true_iff in Hhi. rewrite Hhi. exact Hk.
  - apply andb_true_iff in Hp as [Hc Hw]. rewrite Hc.
    assert (Hmore : more hi = true).
    { destruct hi as [[|m]|]; simpl in *; try reflexivity. lia. }
    rewrite Hmore. simpl.
    rewrite (IH (pred lo) (dec hi) (c :: bef) rest k x); auto.
    + lia.
    + destruct hi as [m|]; simpl in *; [|exact Hhi].
      destruct Hhi as [Hle Hor]. split; [lia|].
      destruct Hor; [left; lia|now right].
    + rewrite <- app_assoc in Hk. exact Hk.
Qed.

Lemma search_from_here r bef aft res :
  match_at r bef aft = Some res -> search_from r bef aft = Some res.
Proof. intros H. destruct aft; simpl; now rewrite H. Qed.

(** ** Soundness of the matcher *)

Lemma captured_text (w bef : text) :
  rev (firstn (length (rev w ++ bef) - length bef) (rev w ++ bef)) = w.
Proof.
  rewrite length_app, Nat.add_sub.
  rewrite firstn_app, Nat.sub_diag, firstn_O, app_nil_r.
  rewrite firstn_all. apply rev_involutive.
Qed.

Lemma rep_greedy_sound {A} p aft :
  forall lo hi bef (k : text -> text -> option A) x,
  rep_greedy p lo hi bef aft k = Some x ->
  exists w aft', aft = w ++ aft' /\ forallb p w = true /\ lo <= length w
    /\ bounded hi (length w) /\ k (rev w ++ bef) aft' = Some x.
Proof.
  induction aft as [|c aft IH]; intros lo hi bef k x H; simpl in H.
  - destruct (Nat.eqb_spec lo 0); [|discriminate].
    exists [], []. subst. repeat split; auto; destruct hi; simpl; lia.
  - assert (Hstop : (if lo =? 0 then k bef (c :: aft) else None) = Some x ->
       exists w aft', c :: aft = w ++ aft' /\ forallb p w = true /\ lo <= length w
         /\ bounded hi (length w) /\ k (rev w ++ bef) aft' = Some x).
    { intros H0. destruct (Nat.eqb_spec lo 0); [|discriminate].
      exists [], (c :: aft). subst. repeat split; auto; destruct hi; simpl; lia. }
    destruct (p c && more hi) eqn:Hpc; [|auto].
    destruct (rep_greedy p (pred lo) (dec hi) (c :: bef) aft k) eqn:Hrec; [|auto].
    inversion H; subst. apply IH in Hrec as (w & aft' & -> & Hw & Hlo & Hhi & Hk).
    apply andb_true_iff in Hpc as [Hc Hmore].
    exists (c :: w), aft'. simpl. rewrite Hc, Hw. repeat split; auto.
    + lia.
    + destruct hi as [[|m]|]; simpl in *; try discriminate; auto. lia.
    + now rewrite <- app_assoc.
Qed.

Lemma rep_lazy_sound {A} p aft :
  forall lo hi bef (k : text -> text -> option A) x,
  rep_lazy p lo hi bef aft k = Some x ->
  exists w aft', aft = w ++ aft' /\ forallb p w = true /\ lo <= length w
    /\ bounded hi (length w) /\ k (rev w ++ bef) aft' = Some x.
Proof.
  induction aft as [|c aft IH]; intros lo hi bef k x H; simpl in H.
  - destruct (Nat.eqb_spec lo 0); [|discriminate].
    exists [], []. subst. repeat split; auto; destruct hi; simpl; lia.
  - destruct (if lo =? 0 then k bef (c :: aft) else None) eqn:Hstop.
    + inversion H; subst. destruct (Nat.eqb_spec lo 0); [|discriminate].
      exists [], (c :: aft). subst. repeat split; auto; destruct hi; simpl; lia.
    + destruct (p c && more hi) eqn:Hpc; [|discriminate].
      apply IH in H as (w & aft' & -> & Hw & Hlo & Hhi & Hk).
      apply andb_true_iff in Hpc as [Hc Hmore].
      exists (c :: w), aft'. simpl. rewrite Hc, Hw. repeat split; auto.
      * lia.
      * destruct hi as [[|m]|]; simpl in *; try discriminate; auto. lia.
      * now rewrite <- app_assoc.
Qed.

Lemma run_sound {A} r :
  forall caps bef aft (k : kont A) x,
  run r caps bef aft k = Some x ->
  exists w aft' caps', aft = w ++ aft' /\ sem r caps bef w aft' caps'
    /\ k caps' (rev w ++ bef) aft' = Some x.
Proof.
  induction r as [|p|a IHa b IHb|a IHa b IHb|a IHa|g lo hi p|n a IHa|];
    intros caps bef aft k x H; simpl in H.
  - exists [], aft, caps. repeat split; auto. constructor.
  - destruct aft as [|c aft]; [discriminate|].
    destruct (p c) eqn:Hc; [|discriminate].
    exists [c], aft, caps. repeat split; auto. now constructor.
  - apply IHa in H as (w1 & aft1 & caps1 & -> & Ha & H).
    apply IHb in H as (w2 & aft2 & caps2 & -> & Hb & H).
    exists (w1 ++ w2), aft2, caps2. split; [now rewrite app_assoc|].
    split; [econstructor; eauto|].
    now rewrite rev_app_distr, <- app_assoc.
  - destruct (run a caps bef aft k) eqn:Ha.
    + inversion H; subst. apply IHa in Ha as (w & aft' & caps' & -> & Hs & Hk).
      exists w, aft', caps'. repeat split; auto. now apply sem_alt_l.
    + apply IHb in H as (w & aft' & caps' & -> & Hs & Hk).
      exists w, aft', caps'. repeat split; auto. now apply sem_alt_r.
  - destruct (run a caps bef aft k) eqn:Ha.
    + inversion H; subst. apply IHa in Ha as (w & aft' & caps' & -> & Hs & Hk).
      exists w, aft', caps'. repeat split; auto. now apply sem_opt_some.
    + exists [], aft, caps. repeat split; auto. apply sem_opt_none.
  - destruct g.
    + apply rep_greedy_sound in H as (w & aft' & -> & Hw & Hlo & Hhi & Hk).
      exists w, aft', caps. repeat split; auto. now constructor.
    + apply rep_lazy_sound in H as (w & aft' & -> & Hw & Hlo & Hhi & Hk).
      exists w, aft', caps. repeat split; auto. now constructor.
  - apply IHa in H as (w & aft' & caps' & -> & Hs & Hk).
    rewrite captured_text in Hk.
    exists w, aft', ((n, w) :: caps'). repeat split; auto. now constructor.
  - destruct (xorb (word_at bef) (word_at aft)) eqn:Hx; [|discriminate].
    exists [], aft, caps. repeat split; auto. now constructor.
Qed.

Lemma match_at_sound r bef aft m cur :
  match_at r bef aft = Some (m, cur) ->
  exists w post caps,
    aft = w ++ post /\ sem (Grp 0 r) [] bef w post caps
    /\ m = {| m_start := length bef; m_end := length bef + length w; m_caps := caps |}
    /\ cur = (rev w ++ bef, post).
Proof.
  unfold match_at. intros H.
  apply run_sound in H as (w & post & caps & -> & Hs & Hk).
  inversion Hk; subst. exists w, post, caps. repeat split; auto.
  f_equal. rewrite length_app, length_rev. lia.
Qed.

Lemma search_from_sound r aft :
  forall bef m cur,
  search_from r bef aft = Some (m, cur) ->
  exists pre w post caps,
    aft = pre ++ w ++ post
    /\ sem (Grp 0 r) [] (rev pre ++ bef) w post caps
    /\ m = {| m_start := length bef + length pre;
              m_end := length bef + length pre + length w;
              m_caps := caps |}
    /\ cur = (rev w ++ rev pre ++ bef, post).
Proof.
  induction aft as [|c aft IH]; intros bef m cur H; simpl in H.
  - destruct (match_at r bef []) as [[m' cur']|] eqn:Hm; [|discriminate].
    inversion H; subst.
    apply match_at_sound in Hm as (w & post & caps & Heq & Hs & -> & ->).
    exists [], w, post, caps. simpl. repeat split; auto. f_equal; lia.
  - destruct (match_at r bef (c :: aft)) as [[m' cur']|] eqn:Hm.
    + inversion H; subst.
      apply match_at_sound in Hm as (w & post & caps & Heq & Hs & -> & ->).
      exists [], w, post, caps. simpl. repeat split; auto. f_equal; lia.
    + apply IH in H as (pre & w & post & caps & -> & Hs & -> & ->).
      exists (c :: pre), w, post, caps. simpl.
      rewrite <- !app_assoc. simpl. repeat split; auto. f_equal; lia.
Qed.

Lemma search_sound r s m :
  search r s = Some m ->
  exists pre w post caps,
    s = pre ++ w ++ post
    /\ sem (Grp 0 r) [] (rev pre) w post caps
    /\ m_caps m = caps.
Proof.
  unfold search. destruct (search_from r [] s) as [[m' cur]|] eqn:H; [|discriminate].
  simpl. intros Hm. inversion Hm; subst.
  apply search_from_sound in H as (pre & w & post & caps & -> & Hs & -> & _).
  exists pre, w, post, caps. rewrite app_nil_r in Hs. auto.
Qed.

(** The fuel of [finditer] never runs out: every round leaves less text
    ahead, so any larger fuel gives the same list. *)
Lemma finditer_fuel_enough r f1 :
  forall f2 bef aft,
  length aft < f1 -> length aft < f2 ->
  finditer_from f1 r bef aft = finditer_from f2 r bef aft.
Proof.
  induction f1 as [|f1 IH]; intros f2 bef aft H1 H2; [lia|].
  destruct f2 as [|f2]; [lia|]. cbn [finditer_from].
  destruct (search_from r bef aft) as [[m [bef' aft']]|] eqn:Hs; [|reflexivity].
  apply search_from_sound in Hs as (pre & w & post & caps & -> & _ & -> & Hcur).
  inversion Hcur; subst. cbn [m_end m_start].
  rewrite !length_app in H1, H2.
  destruct (Nat.eqb_spec (length bef + length pre + length w)
                         (length bef + length pre)) as [E|E].
  - destruct post as [|c post]; [reflexivity|]. f_equal.
    cbn [length] in *. apply IH; lia.
  - f_equal. apply IH; lia.
Qed.

(** ** Completeness of the matcher *)

Lemma rep_greedy_complete {A} (p : ascii -> bool) (w : text) :
  forall lo hi bef aft (k : text -> text -> option A) x,
  forallb p w = true -> lo <= length w -> bounded hi (length w) ->
  k (rev w ++ bef) aft = Some x ->
  exists y, rep_greedy p lo hi bef (w ++ aft) k = Some y.
Proof.
  induction w as [|c w IH]; intros lo hi bef aft k x Hp Hlo Hhi Hk.
  - simpl in *. assert (lo = 0) by lia. subst lo.
    destruct aft as [|c aft]; simpl; [eauto|].
    destruct (p c && more hi); [|eauto].
    destruct (rep_greedy p 0 (dec hi) (c :: bef) aft k); eauto.
  - simpl in Hp. apply andb_true_iff in Hp as [Hc Hw].
    assert (Hmore : more hi = true).
    { destruct hi as [[|m]|]; simpl in *; try reflexivity. lia. }
    cbn [app rep_greedy]. rewrite Hc, Hmore. cbn [andb].
    destruct (IH (pred lo) (dec hi) (c :: bef) aft k x) as [y Hy]; auto.
    + simpl in Hlo. lia.
    + destruct hi as [m|]; simpl in *; lia.
    + simpl in Hk. now rewrite <- app_assoc in Hk.
    + rewrite Hy. eauto.
Qed.

Lemma rep_lazy_complete {A} (p : ascii -> bool) (w : text) :
  forall lo hi bef aft (k : text -> text -> option A) x,
  forallb p w = true -> lo <= length w -> bounded hi (length w) ->
  k (rev w ++ bef) aft = Some x ->
  exists y, rep_lazy p lo hi bef (w ++ aft) k = Some y.
Proof.
  induction w as [|c w IH]; intros lo hi bef aft k x Hp Hlo Hhi Hk.
  - simpl in *. assert (lo = 0) by lia. subst lo.
    destruct aft as [|c aft]; simpl; [eauto|]. rewrite Hk. eauto.
  - simpl in Hp. apply andb_true_iff in Hp as [Hc Hw].
    assert (Hmore : more hi = true).
    { destruct hi as [[|m]|]; simpl in *; try reflexivity. lia. }
    cbn [app rep_lazy].
    destruct (if lo =? 0 then k bef (c :: w ++ aft) else None); [eauto|].
    rewrite Hc, Hmore. cbn [andb].
    apply (IH (pred lo) (dec hi) (c :: bef) aft k x); auto.
    + simpl in Hlo. lia.
    + destruct hi as [m|]; simpl in *; lia.
    + simpl in Hk. now rewrite <- app_assoc in Hk.
Qed.

(** Whatever [r] can match at the cursor with the rest of the pattern
    accepting what follows, the matcher returns some match there (the one
    of highest priority, which need not be this one). *)
Lemma run_complete r caps bef w aft caps' :
  sem r caps bef w aft caps' ->
  forall A (k : kont A) x,
  k caps' (rev w ++ bef) aft = Some x ->
  exists y, run r caps bef (w ++ aft) k = Some y.
Proof.
  induction 1 as [caps bef aft|p c caps bef aft Hc
                  |a b caps bef w1 w2 aft caps1 caps2 Ha IHa Hb IHb
                  |a b caps bef w aft caps1 Ha IHa
                  |a b caps bef w aft caps1 Hb IHb
                  |a caps bef w aft caps1 Ha IHa
                  |a caps bef aft
                  |g lo hi p caps bef w aft Hp Hlo Hhi
                  |n a caps bef w aft caps1 Ha IHa
                  |caps bef aft Hx]; intros A k x Hk; cbn [run app].
  - eauto.
  - rewrite Hc. eauto.
  - rewrite rev_app_distr, <- app_assoc in Hk.
    destruct (IHb A k x Hk) as [y Hy].
    rewrite <- app_assoc.
    apply (IHa A (fun caps' bef' aft' => run b caps' bef' aft' k) y Hy).
  - destruct (IHa A k x Hk) as [y ->]. eauto.
  - destruct (run a caps bef (w ++ aft) k); eauto.
  - destruct (IHa A k x Hk) as [y ->]. eauto.
  - destruct (run a caps bef aft k); eauto.
  - destruct g.
    + now apply (rep_greedy_complete p w lo hi bef aft (k caps) x).
    + now apply (rep_lazy_complete p w lo hi bef aft (k caps) x).
  - apply (IHa A _ x). now rewrite captured_text.
  - rewrite Hx. eauto.
Qed.

Lemma match_at_complete r bef w post caps :
  sem (Grp 0 r) [] bef w post caps ->
  exists res, match_at r bef (w ++ post) = Some res.
Proof.
  intros H. unfold match_at.
  eapply (run_complete _ _ _ _ _ _ H). reflexivity.
Qed.

(** [re.search] finds a match exactly when the pattern can match
    somewhere, and no later than there. *)
Lemma search_from_complete r pre :
  forall bef w post caps,
  sem (Grp 0 r) [] (rev pre ++ bef) w post caps ->
  exists m cur, search_from r bef (pre ++ w ++ post) = Some (m, cur)
    /\ m_start m <= length bef + length pre.
Proof.
  induction pre as [|c pre IH]; intros bef w post caps H.
  - cbn [app rev] in *. destruct (match_at_complete r bef w post caps H) as [[m cur] Hm].
    exists m, cur. rewrite (search_from_here _ _ _ _ Hm). split; [reflexivity|].
    apply match_at_sound in Hm as (? & ? & ? & _ & _ & -> & _). cbn. lia.
  - cbn [app search_from].
    destruct (match_at r bef (c :: pre ++ w ++ post)) as [[m cur]|] eqn:Hm.
    + exists m, cur. split; [reflexivity|].
      apply match_at_sound in Hm as (? & ? & ? & _ & _ & -> & _). cbn. lia.
    + cbn [rev] in H. rewrite <- app_assoc in H. cbn [app] in H.
      destruct (IH (c :: bef) w post caps H) as (m & cur & Hs & Hle).
      exists m, cur. split; [exact Hs|]. cbn [length] in *. lia.
Qed.

Lemma search_complete r pre w post caps :
  sem (Grp 0 r) [] (rev pre) w post caps ->
  exists m, search r (pre ++ w ++ post) = Some m /\ m_start m <= length pre.
Proof.
  intros H. rewrite <- (app_nil_r (rev pre)) in H.
  destruct (search_from_complete r pre [] w post caps H) as (m & cur & Hs & Hle).
  exists m. unfold search. rewrite Hs. split; [reflexivity|exact Hle].
Qed.


(** ** The first match *)



(** ** The match that is chosen *)

Section Paths.
Variables (caps : captures) (bef : text).

Lemma takes_eps rest : takes Eps caps bef [] rest caps.
Proof. intros A k x Hk. exact Hk. Qed.

Lemma takes_cls p c rest : p c = true -> takes (Cls p) caps bef [c] rest caps.
Proof. intros Hc A k x Hk. simpl. now rewrite Hc. Qed.

Lemma takes_rep p w lo hi rest :
  forallb p w = true -> lo <= length w ->
  within hi (length w) (stops_at p rest) ->
  takes (Rep Greedy lo hi p) caps bef w rest caps.
Proof.
  intros Hw Hlo Hhi A k x Hk. simpl. now apply rep_greedy_takes.
Qed.

Lemma takes_seq a b w1 w2 rest caps1 caps2 :
  takes a caps bef w1 (w2 ++ rest) caps1 ->
  takes b caps1 (rev w1 ++ bef) w2 rest caps2 ->
  takes (Seq a b) caps bef (w1 ++ w2) rest caps2.
Proof.
  intros Ha Hb A k x Hk. simpl. rewrite <- app_assoc.
  apply Ha. apply Hb. now rewrite rev_app_distr, <- app_assoc in Hk.
Qed.

Lemma takes_alt_l a b w rest caps1 :
  takes a caps bef w rest caps1 -> takes (Alt a b) caps bef w rest caps1.
Proof. intros Ha A k x Hk. simpl. now rewrite (Ha A k x Hk). Qed.

Lemma takes_alt_r a b w rest caps1 :
  fails a caps bef (w ++ rest) ->
  takes b caps bef w rest caps1 -> takes (Alt a b) caps bef w rest caps1.
Proof. intros Ha Hb A k x Hk. simpl. rewrite Ha. now apply Hb. Qed.

Lemma takes_opt_some a w rest caps1 :
  takes a caps bef w rest caps1 -> takes (Opt a) caps bef w rest caps1.
Proof. intros Ha A k x Hk. simpl. now rewrite (Ha A k x Hk). Qed.

Lemma takes_opt_none a rest :
  fails a caps bef rest -> takes (Opt a) caps bef [] rest caps.
Proof. intros Ha A k x Hk. simpl. rewrite Ha. exact Hk. Qed.

Lemma takes_grp n a w rest caps1 :
  takes a caps bef w rest caps1 ->
  takes (Grp n a) caps bef w rest ((n, w) :: caps1).
Proof.
  intros Ha A k x Hk. simpl. apply Ha. now rewrite captured_text.
Qed.

Lemma fails_cls p c s : p c = false -> fails (Cls p) caps bef (c :: s).
Proof. intros Hc A k. simpl. now rewrite Hc. Qed.

Lemma fails_cls_end p : fails (Cls p) caps bef [].
Proof. intros A k. reflexivity. Qed.

Lemma fails_seq a b s : fails a caps bef s -> fails (Seq a b) caps bef s.
Proof. intros Ha A k. simpl. apply Ha. Qed.

Lemma fails_alt a b s :
  fails a caps bef s -> fails b caps bef s -> fails (Alt a b) caps bef s.
Proof. intros Ha Hb A k. simpl. rewrite Ha. apply Hb. Qed.

End Paths.

Lemma takes_match_at r bef w rest caps :
  takes (Grp 0 r) [] bef w rest caps ->
  match_at r bef (w ++ rest)
  = Some ({| m_start := length bef; m_end := length bef + length w;
             m_caps := caps |}, (rev w ++ bef, rest)).
Proof.
  intros H. unfold match_at. erewrite H; [reflexivity|].
  rewrite length_app, length_rev. do 3 f_equal. lia.
Qed.

(** ** Missing files *)

Section Files.
Variable parse_fuzzy : datetime -> text -> option datetime.
Variable now : datetime.

Lemma collect_app fs (xs ys : list string) :
  collect parse_fuzzy now fs (xs ++ ys)
  = collect parse_fuzzy now fs xs ++ collect parse_fuzzy now fs ys.
Proof.
  induction xs as [|x xs IH]; simpl; [reflexivity|].
  destruct (extract_interview_slot parse_fuzzy now fs (join transcript_dir x));
    simpl; rewrite IH; reflexivity.
Qed.

Lemma collect_length fs (names : list string) :
  length (collect parse_fuzzy now fs names)
  = length (List.filter (readable fs) names).
Proof.
  induction names as [|x xs IH]; simpl; [reflexivity|].
  unfold extract_interview_slot at 1, readable at 1.
  destruct (files fs !! join transcript_dir x); simpl; now rewrite IH.
Qed.

End Files.

(** C10: a transcript path that cannot be opened makes
    [extract_interview_slot] return [None] (not a result with empty
    fields), and [process_all_transcripts] drops that file from the list
    it returns: the list is the one obtained from the other transcripts
    of the directory, and its length is the number of those that could
    be read. *)
Theorem C10_missing_file_returns_none_and_is_omitted
    (parse_fuzzy : datetime -> text -> option datetime) (now : datetime)
    (fs : file_system) (names : list string) (filename : string)
    (before after : list string) :
  files fs !! join transcript_dir filename = None ->
  listing fs !! transcript_dir = Some names ->
  List.filter is_txt names = before ++ filename :: after ->
  extract_interview_slot parse_fuzzy now fs (join transcript_dir filename) = None
  /\ extract_interview_slot parse_fuzzy now fs (join transcript_dir filename)
     <> Some empty_result
  /\ process_all_transcripts parse_fuzzy now fs
     = Some (collect parse_fuzzy now fs (before ++ after))
  /\ length (collect parse_fuzzy now fs (before ++ after))
     = length (List.filter (readable fs) (before ++ after)).
Proof.
  intros Hmissing Hlisting Hnames.
  assert (Hnone : extract_interview_slot parse_fuzzy now fs
                    (join transcript_dir filename) = None).
  { unfold extract_interview_slot. now rewrite Hmissing. }
  assert (Hdrop : collect parse_fuzzy now fs (before ++ filename :: after)
                  = collect parse_fuzzy now fs (before ++ after)).
  { rewrite !collect_app. simpl. now rewrite Hnone. }
  repeat split.
  - exact Hnone.
  - rewrite Hnone. discriminate.
  - unfold process_all_transcripts. rewrite Hlisting, Hnames, <- Hdrop.
    destruct before; reflexivity.
  - apply collect_length.
Qed.

(** ** Closing a transcript *)

Section Closing.
Import Relay.

Lemma close_unknown st sid now :
  transcript_file_handles st !! sid = None ->
  close_transcript_file st sid now = st.
Proof.
  intros H. unfold close_transcript_file, close_transcript_file_body.
  now rewrite H.
Qed.

Lemma write_independent_of_text d fn s s' :
  write d fn s = None -> write d fn s' = None.
Proof.
  unfold write. destruct (d !! fn) as [f|]; [|reflexivity].
  destruct (is_open f); [discriminate|reflexivity].
Qed.

Lemma close_forgets st sid now fn d :
  transcript_file_handles st !! sid = Some fn ->
  write (disk st) fn (footer now) = Some d ->
  transcript_file_handles (close_transcript_file st sid now) !! sid = None
  /\ conversation_transcripts (close_transcript_file st sid now) !! sid = None.
Proof.
  intros H Hw. unfold close_transcript_file, close_transcript_file_body.
  rewrite H, Hw. simpl. split; apply lookup_delete_eq.
Qed.

Lemma close_twice st sid now now' :
  close_transcript_file (close_transcript_file st sid now) sid now'
  = close_transcript_file st sid now.
Proof.
  destruct (transcript_file_handles st !! sid) as [fn|] eqn:H.
  - destruct (write (disk st) fn (footer now)) as [d|] eqn:Hw.
    + apply close_unknown. eapply close_forgets; eauto.
    + assert (Hsame : close_transcript_file st sid now = st).
      { unfold close_transcript_file, close_transcript_file_body.
        now rewrite H, Hw. }
      rewrite Hsame. unfold close_transcript_file, close_transcript_file_body.
      rewrite H. now rewrite (write_independent_of_text _ _ _ (footer now') Hw).
  - rewrite (close_unknown st sid now H). now apply close_unknown.
Qed.

Lemma close_repeated st sid now (later : list datetime) :
  fold_left (fun s t => close_transcript_file s sid t) later
    (close_transcript_file st sid now)
  = close_transcript_file st sid now.
Proof.
  induction later as [|t later IH]; simpl; [reflexivity|].
  now rewrite close_twice.
Qed.

Lemma close_first_effect st sid now fn f :
  transcript_file_handles st !! sid = Some fn ->
  disk st !! fn = Some f ->
  is_open f = true ->
  close_transcript_file st sid now
  = {| conversation_transcripts := delete sid (conversation_transcripts st);
       transcript_file_handles := delete sid (transcript_file_handles st);
       disk := <[fn := {| written := written f ++ [footer now];
                          is_open := false |}]> (disk st) |}.
Proof.
  intros H Hf Ho. unfold close_transcript_file, close_transcript_file_body, write.
  rewrite H, Hf, Ho. f_equal. unfold close.
  rewrite lookup_insert_eq. simpl. apply insert_insert_eq.
Qed.

End Closing.

(** C5: [close_transcript_file] returns normally on every state and
    stream id (an exception inside it is absorbed and changes nothing);
    after one call, any number of further calls for the same stream id, at
    whatever times, leave the state as the first call left it; and the
    first call on an open transcript appends the footer, closes the file
    and removes the stream id from both dictionaries. *)
Theorem C5_close_is_idempotent_and_total
    (st : Relay.state) (stream_sid : string) (now : datetime) :
  let st1 := Relay.close_transcript_file st stream_sid now in
  (Relay.close_transcript_file_body st stream_sid now = None -> st1 = st)
  /\ (forall later : list datetime,
        fold_left (fun s t => Relay.close_transcript_file s stream_sid t) later st1
        = st1)
  /\ (forall filename f,
        Relay.transcript_file_handles st !! stream_sid = Some filename ->
        Relay.disk st !! filename = Some f ->
        Relay.is_open f = true ->
        Relay.transcript_file_handles st1 !! stream_sid = None
        /\ Relay.conversation_transcripts st1 !! stream_sid = None
        /\ Relay.disk st1 !! filename
           = Some {| Relay.written := Relay.written f ++ [Relay.footer now];
                     Relay.is_open := false |}).
Proof.
  cbv zeta. split; [|split].
  - intros H. unfold Relay.close_transcript_file. now rewrite H.
  - intros later. apply close_repeated.
  - intros filename f H Hf Ho.
    rewrite (close_first_effect st stream_sid now filename f H Hf Ho). simpl.
    rewrite !lookup_delete_eq, lookup_insert_eq. auto.
Qed.

Lemma C5_close_witness :
  let st := Samples.started in
  let st1 := Relay.close_transcript_file st "MZ1" Samples.call_end in
  Relay.transcript_file_handles st !! "MZ1"%string = Some Samples.transcript_name
  /\ Relay.transcript_file_handles st1 !! "MZ1"%string = None
  /\ Relay.conversation_transcripts st1 !! "MZ1"%string = None
  /\ (exists f, Relay.disk st1 !! Samples.transcript_name = Some f
                /\ Relay.is_open f = false)
  /\ Relay.close_transcript_file st1 "MZ1" Samples.call_end = st1.
Proof.
  cbv zeta.
  destruct (C5_close_is_idempotent_and_total Samples.started "MZ1" Samples.call_end)
    as [_ [Hagain Heffect]].
  destruct (Heffect Samples.transcript_name
              {| Relay.written :=
                   [Relay.header "MZ1" "CA1" Samples.call_start];
                 Relay.is_open := true |})
    as [Hh [Hc Hd]]; [vm_compute; reflexivity .. |].
  split; [vm_compute; reflexivity|].
  split; [exact Hh|]. split; [exact Hc|].
  split; [eexists; split; [exact Hd|reflexivity]|].
  exact (Hagain [Samples.call_end]).
Defined.

(** ** Utterances and transcript lines *)

Section Responses.
Import Relay.
Local Open Scope string_scope.

Lemma last_snoc {A} (xs : list A) (x : A) d :
  List.last (map Some (xs ++ [x])%list) d = Some x.
Proof.
  rewrite map_app. simpl. induction (map Some xs) as [|y ys IH]; [reflexivity|].
  simpl. destruct (ys ++ [Some x])%list eqn:E; [destruct ys; discriminate|exact IH].
Qed.

Lemma accumulate_after_assistant ms m delta_text now :
  speaker m = AI ->
  accumulate (ms ++ [m])%list delta_text now
  = (ms ++ [{| timestamp := timestamp m; speaker := speaker m;
              text_of := text_of m ++ delta_text |}])%list.
Proof.
  intros H. unfold accumulate. rewrite last_snoc, H, String.eqb_refl.
  now rewrite removelast_last.
Qed.

Lemma delta_after_assistant st sid c ms m delta_text now :
  sid <> "" -> delta_text <> "" ->
  conversation_transcripts st !! sid = Some c ->
  messages c = (ms ++ [m])%list -> speaker m = AI ->
  send_to_twilio_step st (Some sid) (response_audio_transcript_delta delta_text) now
  = set_messages st sid c
      (ms ++ [{| timestamp := timestamp m; speaker := speaker m;
                 text_of := text_of m ++ delta_text |}])%list.
Proof.
  intros Hsid Hdelta Hc Hms Hm. apply String.eqb_neq in Hsid, Hdelta.
  unfold send_to_twilio_step. rewrite Hsid, Hc, Hdelta, Hms.
  now rewrite accumulate_after_assistant.
Qed.

Lemma done_after_assistant st sid c ms m now :
  sid <> "" ->
  conversation_transcripts st !! sid = Some c ->
  messages c = (ms ++ [m])%list -> speaker m = AI ->
  non_blank (text_of m) = true ->
  send_to_twilio_step st (Some sid) response_audio_transcript_done now
  = write_to_transcript_file st sid AI (text_of m) now.
Proof.
  intros Hsid Hc Hms Hm Hnb. apply String.eqb_neq in Hsid.
  unfold send_to_twilio_step.
  now rewrite Hsid, Hc, Hms, last_snoc, Hm, String.eqb_refl, Hnb.
Qed.

(** After an assistant message, a further response (its text arriving as
    one delta, then its completion signal) adds one line to the file and
    no message to the list: the line repeats the text of the message
    before it. *)
Lemma further_response_repeats st sid c ms m filename f delta_text t1 t2 :
  sid <> "" -> delta_text <> "" ->
  conversation_transcripts st !! sid = Some c ->
  messages c = (ms ++ [m])%list -> speaker m = AI ->
  transcript_file_handles st !! sid = Some filename ->
  disk st !! filename = Some f -> is_open f = true ->
  non_blank (text_of m ++ delta_text) = true ->
  let st' := send_to_twilio st (Some sid)
               [(response_audio_transcript_delta delta_text, t1);
                (response_audio_transcript_done, t2)] in
  utterance_lines st' filename
  = (utterance_lines st filename
     ++ [utterance_line t2 AI (text_of m ++ delta_text)])%list
  /\ length (messages_of st' sid) = length (messages_of st sid).
Proof.
  intros Hsid Hdelta Hc Hms Hm Hh Hf Ho Hnb. cbv zeta.
  cbn [send_to_twilio].
  rewrite (delta_after_assistant st sid c ms m delta_text t1) by assumption.
  set (m' := {| timestamp := timestamp m; speaker := speaker m;
                text_of := text_of m ++ delta_text |}).
  rewrite (done_after_assistant _ sid
             {| call_sid := call_sid c; start_time := start_time c;
                messages := (ms ++ [m'])%list |} ms m' t2);
    [| assumption | apply lookup_insert_eq | reflexivity | assumption | assumption].
  unfold write_to_transcript_file, set_messages.
  cbn [transcript_file_handles disk]. rewrite Hh. unfold write. rewrite Hf, Ho.
  unfold utterance_lines, messages_of.
  cbn [disk conversation_transcripts]. rewrite !lookup_insert_eq, Hf, Hc.
  cbn [written messages]. split.
  - rewrite List.filter_app. reflexivity.
  - rewrite Hms, !length_app. reflexivity.
Qed.

End Responses.

(** C4: two assistant responses in a row, with no caller utterance
    recorded between them, are accumulated into one message, and each
    completion signal writes that message as it then stands: the file
    gets two lines for one utterance, and the text of the first response
    is written twice. *)
Theorem C4_assistant_text_written_twice :
  let st := Relay.send_to_twilio Samples.started (Some "MZ1"%string)
              Samples.two_responses in
  Relay.utterance_lines st Samples.transcript_name
  = [ Relay.utterance_line Samples.call_start Relay.AI "Hello";
      Relay.utterance_line Samples.call_later Relay.AI "Hello there" ]
  /\ map Relay.text_of (Relay.messages_of st "MZ1") = ["Hello there"%string]
  /\ length (Relay.utterance_lines st Samples.transcript_name)
     <> length (Relay.messages_of st "MZ1").
Proof.
  cbv zeta. split; [vm_compute; reflexivity|].
  split; [vm_compute; reflexivity|].
  vm_compute. discriminate.
Qed.

(** ** The clock reading of the standardized phrase *)

Lemma search_takes r w caps :
  takes (Grp 0 r) [] [] w [] caps ->
  search r w = Some {| m_start := 0; m_end := length w; m_caps := caps |}.
Proof.
  intros H. unfold search.
  rewrite (search_from_here r [] w
             ({| m_start := 0; m_end := length w; m_caps := caps |}, (rev w ++ [], []))).
  - reflexivity.
  - rewrite <- (app_nil_r w) at 1. now rewrite (takes_match_at r [] w [] caps H).
Qed.

Lemma standardized_time_takes hh m1 m2 ws x y :
  clock_shape hh m1 m2 ws x y ->
  let T := hh ++ [":"%char] ++ [m1; m2] ++ ws ++ [x; y] in
  takes (Grp 0 standardized_time_pattern) [] [] T []
    [(0, T); (3, [x; y]); (2, [m1; m2]); (1, hh)].
Proof.
  intros (Hhh & Hlen & Hm1 & Hm2 & Hws & Hx & Hy) T. subst T.
  assert (Hxs : is_space x = false).
  { destruct Hx as [Hx|Hx]; [apply marker_a in Hx|apply marker_p in Hx]; tauto. }
  apply takes_grp. unfold standardized_time_pattern. cbn [seqs lit map txt list_ascii_of_string].
  rewrite <- (app_nil_r [x; y]). rewrite !app_assoc. rewrite <- !app_assoc.
  eapply takes_seq.
  { apply takes_grp, takes_rep; [exact Hhh|lia|]. simpl. split; [lia|now right]. }
  eapply takes_seq; [now apply takes_cls|].
  eapply takes_seq.
  { apply takes_grp, takes_rep; [simpl; now rewrite Hm1, Hm2|simpl; lia|].
    simpl. split; [lia|now left]. }
  eapply takes_seq.
  { apply takes_rep; [exact Hws|lia|]. simpl. now rewrite Hxs. }
  apply takes_grp.
  destruct Hx as [Hx|Hx].
  - apply takes_alt_l. eapply (takes_seq _ _ _ _ [x] [y]); now apply takes_cls.
  - apply takes_alt_r.
    + apply fails_seq, fails_cls. apply marker_p in Hx. tauto.
    + eapply (takes_seq _ _ _ _ [x] [y]); now apply takes_cls.
Qed.



Lemma marker_upper x y :
  (is_char_ci "A" x = true \/ is_char_ci "P" x = true) ->
  is_char_ci "M" y = true ->
  upper [x; y] = (if is_char_ci "P" x then txt "PM" else txt "AM").
Proof.
  intros Hx Hy. apply marker_m in Hy. cbn [upper map]. rewrite Hy.
  destruct Hx as [Hx|Hx].
  - destruct (marker_a x Hx) as (-> & _ & ->). reflexivity.
  - rewrite Hx. destruct (marker_p x Hx) as (-> & _). reflexivity.
Qed.

Section StandardizedReading.
Variables (hh : text) (m1 m2 : ascii) (ws : text) (x y : ascii).
Hypothesis Hshape : clock_shape hh m1 m2 ws x y.

Let T : text := hh ++ [":"%char] ++ [m1; m2] ++ ws ++ [x; y].

Lemma standardized_time_of_clock :
  format_standardized_time T
  = format_hm (to_24h (int_of_digits hh) (is_char_ci "P" x))
              (int_of_digits [m1; m2]).
Proof.
  pose proof (standardized_time_takes hh m1 m2 ws x y Hshape) as Htakes.
  cbv zeta in Htakes. fold T in Htakes.
  unfold format_standardized_time. rewrite (search_takes _ _ _ Htakes).
  unfold group. cbn [m_caps lookup_cap Nat.eqb].
  destruct Hshape as (_ & _ & _ & _ & _ & Hx & Hy).
  rewrite (marker_upper x y Hx Hy). unfold to_24h.
  destruct (is_char_ci "P" x);
    cbn [text_eqb txt list_ascii_of_string length Nat.eqb starts_with Ascii.eqb
         Bool.eqb andb];
    destruct (Nat.eqb_spec (int_of_digits hh) 12) as [E|E]; simpl; rewrite ?E;
    reflexivity.
Qed.



End StandardizedReading.

(** ** The shape of a standardized match *)

Ltac invert H := inversion H; subst; clear H.

Ltac sem_inv :=
  repeat match goal with
  | H : sem (Seq _ _) _ _ _ _ _ |- _ => invert H
  | H : sem (Grp _ _) _ _ _ _ _ |- _ => invert H
  | H : sem (Cls _) _ _ _ _ _ |- _ => invert H
  | H : sem (Rep _ _ _ _) _ _ _ _ _ |- _ => invert H
  | H : sem (Alt _ _) _ _ _ _ _ |- _ => invert H
  end.

Lemma run_of_two (p : ascii -> bool) (w : text) :
  forallb p w = true -> 2 <= length w -> bounded (Some 2) (length w) ->
  exists a b, w = [a; b] /\ p a = true /\ p b = true.
Proof.
  intros Hp Hlo Hhi. destruct w as [|a [|b [|c w]]]; simpl in *; try lia.
  exists a, b. apply andb_true_iff in Hp as [Ha Hb].
  apply andb_true_iff in Hb as [Hb _]. auto.
Qed.

Lemma run_of_four (p : ascii -> bool) (w : text) :
  forallb p w = true -> 4 <= length w -> bounded (Some 4) (length w) ->
  exists a b c d, w = [a; b; c; d]
    /\ p a = true /\ p b = true /\ p c = true /\ p d = true.
Proof.
  intros Hp Hlo Hhi.
  destruct w as [|a [|b [|c [|d [|e w]]]]]; simpl in *; try lia.
  exists a, b, c, d.
  repeat (apply andb_true_iff in Hp as [? Hp]). auto.
Qed.

Lemma is_char_eq a c : is_char a c = true -> c = a.
Proof. unfold is_char. intros H. now apply Ascii.eqb_eq in H. Qed.

Lemma standardized_date_sem caps bef D aft caps' :
  sem standardized_date caps bef D aft caps' ->
  caps' = caps
  /\ exists a b c d e f g h,
       D = [a; b; "-"; c; d; "-"; e; f; g; h]%char
       /\ date_shape a b c d e f g h.
Proof.
  cbv [standardized_date seqs lit map txt list_ascii_of_string times].
  intros H. sem_inv.
  repeat match goal with
  | H : is_char _ _ = true |- _ => apply is_char_eq in H; subst
  end.
  repeat match goal with
  | H : forallb is_digit ?w = true, H1 : 2 <= length ?w, H2 : bounded (Some 2) (length ?w) |- _ =>
      destruct (run_of_two _ _ H H1 H2) as (? & ? & -> & ? & ?); clear H H1 H2
  | H : forallb is_digit ?w = true, H1 : 4 <= length ?w, H2 : bounded (Some 4) (length ?w) |- _ =>
      destruct (run_of_four _ _ H H1 H2) as (? & ? & ? & ? & -> & ? & ? & ? & ?); clear H H1 H2
  end.
  split; [reflexivity|]. do 8 eexists. split; [reflexivity|].
  unfold date_shape. auto 10.
Qed.

Lemma standardized_clock_sem caps bef T aft caps' :
  sem standardized_clock caps bef T aft caps' ->
  caps' = caps
  /\ exists hh m1 m2 ws x y,
       T = hh ++ [":"%char] ++ [m1; m2] ++ ws ++ [x; y]
       /\ clock_shape hh m1 m2 ws x y.
Proof.
  cbv [standardized_clock seqs lit lit_ci map txt list_ascii_of_string times star].
  intros H. sem_inv;
  repeat match goal with
  | H : is_char _ _ = true |- _ => apply is_char_eq in H; subst
  end;
  repeat match goal with
  | H : forallb is_digit ?w = true, H1 : 2 <= length ?w, H2 : bounded (Some 2) (length ?w) |- _ =>
      destruct (run_of_two _ _ H H1 H2) as (? & ? & -> & ? & ?); clear H H1 H2
  end;
  (split; [reflexivity|]);
  match goal with
  | Hd : forallb is_digit ?hh = true, Hs : forallb is_space ?ws = true |- _ =>
      eexists hh, _, _, ws, _, _
  end;
  (split; [reflexivity|]); unfold clock_shape, bounded in *; auto 10.
Qed.

(** ** Decimal numerals *)












(** ** The date of the standardized phrase *)

Lemma lstrip_id (s : text) : stops_at is_space s = true -> lstrip s = s.
Proof.
  destruct s as [|c s]; [reflexivity|]. simpl. intros H.
  apply negb_true_iff in H. now rewrite H.
Qed.

Lemma strip_id (s : text) :
  stops_at is_space s = true -> stops_at is_space (rev s) = true -> strip s = s.
Proof.
  intros H1 H2. unfold strip. rewrite (lstrip_id s H1), (lstrip_id _ H2).
  apply rev_involutive.
Qed.

Lemma contains_absent (c0 : ascii) (needle hay : text) :
  forallb (fun c => negb (Ascii.eqb c0 c)) hay = true ->
  contains (c0 :: needle) hay = false.
Proof.
  induction hay as [|c hay IH]; simpl; intros H; [reflexivity|].
  apply andb_true_iff in H as [Hc Hhay]. apply negb_true_iff in Hc.
  rewrite Hc. simpl. now apply IH.
Qed.

Lemma digit_is_no_letter c :
  is_digit c = true ->
  lower_char c = c /\ Ascii.eqb "t" c = false /\ is_space c = false.
Proof.
  intros Hc.
  pose proof (all_ascii (fun c => if is_digit c
     then Ascii.eqb (lower_char c) c && negb (Ascii.eqb "t" c) && negb (is_space c)
     else true) eq_refl c) as H.
  cbv beta in H. rewrite Hc in H.
  apply andb_true_iff in H as [H H3]. apply andb_true_iff in H as [H1 H2].
  apply Ascii.eqb_eq in H1. apply negb_true_iff in H2, H3. auto.
Qed.

Section StandardDate.
Variables a b c d e f g h : ascii.
Hypothesis Hshape : date_shape a b c d e f g h.

Let D : text := [a; b; "-"; c; d; "-"; e; f; g; h]%char.

Lemma standardized_date_strip : strip D = D.
Proof.
  destruct Hshape as (Ha & _ & _ & _ & _ & _ & _ & Hh).
  apply strip_id; simpl; apply negb_true_iff; now apply digit_is_no_letter.
Qed.


End StandardDate.







Section StandardDateParse.
Variables a b c d e f g h : ascii.
Hypothesis Hshape : date_shape a b c d e f g h.

Let D : text := [a; b; "-"; c; d; "-"; e; f; g; h]%char.

Hypothesis Hvalid :
  valid_date (int_of_digits [e; f; g; h]) (int_of_digits [a; b])
             (int_of_digits [c; d]) = true.




End StandardDateParse.



Section AnyDigits.
Variables a b c d e f g h : ascii.
Hypothesis Hshape : date_shape a b c d e f g h.

Let D : text := [a; b; "-"; c; d; "-"; e; f; g; h]%char.



End AnyDigits.

Lemma standardized_match_shape content m :
  search standardized_pattern content = Some m ->
  (exists a b c d e f g h,
     group m 1 = [a; b; "-"; c; d; "-"; e; f; g; h]%char
     /\ date_shape a b c d e f g h)
  /\ (exists hh m1 m2 ws x y,
        group m 2 = hh ++ [":"%char] ++ [m1; m2] ++ ws ++ [x; y]
        /\ clock_shape hh m1 m2 ws x y).
Proof.
  intros H. apply search_sound in H as (pre & w & post & caps & -> & Hs & Hc).
  unfold group. rewrite Hc. clear Hc.
  cbv [standardized_pattern seqs lit_ci map txt list_ascii_of_string star] in Hs.
  sem_inv.
  repeat match goal with
  | H : sem standardized_date _ _ _ _ _ |- _ =>
      apply standardized_date_sem in H as (-> & Hdate)
  | H : sem standardized_clock _ _ _ _ _ |- _ =>
      apply standardized_clock_sem in H as (-> & Hclock)
  end.
  cbn [lookup_cap Nat.eqb]. split; assumption.
Qed.

(** ** The standardized stage *)

Lemma marker_m_is_no_space y : is_char_ci "M" y = true -> is_space y = false.
Proof.
  intros Hy.
  pose proof (all_ascii (fun y => if is_char_ci "M" y then negb (is_space y) else true)
     eq_refl y) as H.
  cbv beta in H. rewrite Hy in H. now apply negb_true_iff in H.
Qed.

Lemma standardized_clock_strip hh m1 m2 ws x y :
  clock_shape hh m1 m2 ws x y ->
  strip (hh ++ [":"%char] ++ [m1; m2] ++ ws ++ [x; y])
  = hh ++ [":"%char] ++ [m1; m2] ++ ws ++ [x; y].
Proof.
  intros (Hhh & Hlen & _ & _ & _ & _ & Hy).
  apply strip_id.
  - destruct hh as [|h0 hh]; [simpl in Hlen; lia|]. simpl in *.
    apply andb_true_iff in Hhh as [H0 _]. apply negb_true_iff.
    now apply digit_is_no_letter.
  - rewrite !app_assoc, rev_app_distr. simpl.
    apply negb_true_iff. now apply marker_m_is_no_space.
Qed.






(** An hour above twelve is not rejected: twelve is added to it. *)
Example thirteen_thirty_pm
    (parse_fuzzy : datetime -> text -> option datetime) (now : datetime) :
  let r := extract_text parse_fuzzy now
             (txt "Let me confirm the interview on 06-29-2025 at 13:30 PM") in
  raw_time_text r = txt "13:30 PM" /\ formatted_time r = txt "25:30".
Proof. cbv zeta. split; vm_compute; reflexivity. Qed.

(** With two confirmations in one transcript, [re.search] returns the
    first, and that is the one the result reports. *)
Example first_of_two_confirmations
    (parse_fuzzy : datetime -> text -> option datetime) (now : datetime) :
  let r := extract_text parse_fuzzy now
      (txt "Let me confirm the interview on 06-29-2025 at 04:30 PM. Sorry, let me confirm the interview on 06-30-2025 at 05:00 PM") in
  raw_date_text r = txt "06-29-2025" /\ raw_time_text r = txt "04:30 PM".
Proof. cbv zeta. split; vm_compute; reflexivity. Qed.

(** ** Clock readings in the legacy branch *)

Lemma class_implies (p q : ascii -> bool) :
  forallb (fun c => if p c then q c else true) all_chars = true ->
  forall c, p c = true -> q c = true.
Proof.
  intros H c Hc. pose proof (all_ascii _ H c) as Hq. cbv beta in Hq.
  now rewrite Hc in Hq.
Qed.

Lemma forallb_implies (p q : ascii -> bool) (l : text) :
  (forall c, p c = true -> q c = true) ->
  forallb p l = true -> forallb q l = true.
Proof.
  intros Hpq. induction l as [|c l IH]; simpl; [reflexivity|].
  intros H. apply andb_true_iff in H as [Hc Hl].
  now rewrite (Hpq c Hc), (IH Hl).
Qed.

Lemma contains_unfold (needle hay : text) :
  contains needle hay
  = starts_with needle hay
    || match hay with [] => false | _ :: hay' => contains needle hay' end.
Proof. destruct hay; reflexivity. Qed.

Lemma contains_prefix (needle rest : text) : contains needle (needle ++ rest) = true.
Proof.
  assert (H : starts_with needle (needle ++ rest) = true).
  { induction needle as [|c n IH]; simpl; [reflexivity|].
    now rewrite Ascii.eqb_refl, IH. }
  rewrite contains_unfold, H. reflexivity.
Qed.

Lemma contains_later (needle pre post : text) :
  contains needle post = true -> contains needle (pre ++ post) = true.
Proof.
  intros H. induction pre as [|c pre IH]; [exact H|].
  rewrite contains_unfold. cbn [app]. rewrite IH. apply orb_true_r.
Qed.

Lemma contains_skip (c0 : ascii) (needle pre post : text) :
  forallb (fun c => negb (Ascii.eqb c0 c)) pre = true ->
  contains (c0 :: needle) (pre ++ post) = contains (c0 :: needle) post.
Proof.
  induction pre as [|c pre IH]; intros H; [reflexivity|].
  simpl in H. apply andb_true_iff in H as [Hc Hpre]. apply negb_true_iff in Hc.
  rewrite contains_unfold. cbn [app starts_with]. rewrite Hc. simpl.
  now apply IH.
Qed.

Lemma search_of_match_at r s m cur :
  match_at r [] s = Some (m, cur) -> search r s = Some m.
Proof.
  intros H. unfold search. now rewrite (search_from_here _ _ _ _ H).
Qed.

Lemma plain_is_no_marker c :
  plain c = true ->
  negb (Ascii.eqb "p" (lower_char c)) = true
  /\ negb (Ascii.eqb "a" (lower_char c)) = true.
Proof.
  intros H. split.
  - exact (class_implies plain (fun c => negb (Ascii.eqb "p" (lower_char c))) eq_refl c H).
  - exact (class_implies plain (fun c => negb (Ascii.eqb "a" (lower_char c))) eq_refl c H).
Qed.

Lemma marker_lower x y :
  (is_char_ci "A" x = true \/ is_char_ci "P" x = true) ->
  is_char_ci "M" y = true ->
  lower [x; y] = (if is_char_ci "P" x then txt "pm" else txt "am")
  /\ is_digit x = false /\ is_char ":" x = false /\ is_char "." x = false.
Proof.
  intros Hx Hy.
  assert (Hm : lower_char y = "m"%char).
  { apply Ascii.eqb_eq.
    exact (class_implies (is_char_ci "M") (fun y => Ascii.eqb (lower_char y) "m") eq_refl y Hy). }
  assert (Hd : (is_char_ci "A" x || is_char_ci "P" x) = true).
  { destruct Hx as [-> | ->]; [reflexivity|apply orb_true_r]. }
  pose proof (class_implies (fun x => is_char_ci "A" x || is_char_ci "P" x)
    (fun x => Ascii.eqb (lower_char x) (if is_char_ci "P" x then "p" else "a")
              && negb (is_digit x) && negb (is_char ":" x) && negb (is_char "." x))%char
    eq_refl x Hd) as H.
  cbv beta in H. repeat (apply andb_true_iff in H as [H ?]).
  apply Ascii.eqb_eq in H.
  repeat match goal with Hn : negb _ = true |- _ => apply negb_true_iff in Hn end.
  cbn [lower map]. rewrite H, Hm. destruct (is_char_ci "P" x); auto.
Qed.

Lemma forallb_lower (q : ascii -> bool) (l : text) :
  forallb q (lower l) = forallb (fun c => q (lower_char c)) l.
Proof. unfold lower. induction l as [|c l IH]; simpl; [reflexivity|]. now rewrite IH. Qed.

Lemma digit_plain c : is_digit c = true -> plain c = true.
Proof. unfold plain. now intros ->. Qed.

Lemma space_plain c : is_space c = true -> plain c = true.
Proof. unfold plain. intros ->. now rewrite orb_true_r. Qed.

(** ['pm' in time_str.lower()] and ['am' in time_str.lower()] on a text
    of plain characters followed by the marker. *)
Lemma marker_found (p : text) x y :
  forallb plain p = true ->
  (is_char_ci "A" x = true \/ is_char_ci "P" x = true) ->
  is_char_ci "M" y = true ->
  contains (txt "pm") (lower (p ++ [x; y])) = is_char_ci "P" x
  /\ contains (txt "am") (lower (p ++ [x; y])) = negb (is_char_ci "P" x).
Proof.
  intros Hp Hx Hy. destruct (marker_lower x y Hx Hy) as (Hl & _).
  unfold lower in *. rewrite map_app, Hl.
  split.
  - change (txt "pm") with ("p"%char :: txt "m").
    rewrite contains_skip.
    + destruct (is_char_ci "P" x); reflexivity.
    + fold (lower p). rewrite forallb_lower.
      apply (forallb_implies plain); [|exact Hp].
      intros c Hc. now apply plain_is_no_marker.
  - change (txt "am") with ("a"%char :: txt "m").
    rewrite contains_skip.
    + destruct (is_char_ci "P" x); reflexivity.
    + fold (lower p). rewrite forallb_lower.
      apply (forallb_implies plain); [|exact Hp].
      intros c Hc. now apply plain_is_no_marker.
Qed.

(** The hour adjustment of lines 170-173, given which marker the text
    holds. *)
Lemma legacy_adjust (h : nat) (pm : bool) :
  (if pm && negb (h =? 12) then h + 12
   else if negb pm && (h =? 12) then 0 else h) = to_24h h pm.
Proof.
  unfold to_24h. destruct pm; simpl;
    destruct (Nat.eqb_spec h 12) as [->|]; reflexivity.
Qed.

Section LegacyReading.
Variables (hh : text) (m1 m2 : ascii) (ws : text) (x y : ascii).
Hypothesis Hshape : clock_shape hh m1 m2 ws x y.

Lemma hour_stops_at_marker : stops_at is_digit (ws ++ [x; y]) = true.
Proof.
  destruct Hshape as (_ & _ & _ & _ & Hws & Hx & Hy).
  destruct ws as [|c ws']; simpl in *.
  - apply negb_true_iff. now destruct (marker_lower x y Hx Hy) as (_ & ? & _).
  - apply andb_true_iff in Hws as [Hc _]. apply negb_true_iff.
    now apply space_not_digit.
Qed.

Lemma legacy_time_with_minutes (sep : ascii) :
  sep = ":"%char \/ sep = "."%char ->
  format_legacy_time (hh ++ [sep] ++ [m1; m2] ++ ws ++ [x; y])
  = format_hm (to_24h (int_of_digits hh) (is_char_ci "P" x))
              (int_of_digits [m1; m2]).
Proof.
  intros Hsep.
  destruct Hshape as (Hhh & Hlen & Hm1 & Hm2 & Hws & Hx & Hy).
  set (T := hh ++ [sep] ++ [m1; m2] ++ ws ++ [x; y]).
  assert (Hhas : contains (txt ":") T || contains (txt ".") T = true).
  { destruct Hsep as [-> | ->].
    - replace (contains (txt ":") T) with true; [reflexivity|].
      symmetry. unfold T. apply contains_later. apply (contains_prefix [":"%char]).
    - replace (contains (txt ".") T) with true; [apply orb_true_r|].
      symmetry. unfold T. apply contains_later. apply (contains_prefix ["."%char]). }
  assert (Htakes : takes (Grp 0 hour_minute_pattern) [] [] (hh ++ [sep] ++ [m1; m2])
                     (ws ++ [x; y])
                     [(0, hh ++ [sep] ++ [m1; m2]); (2, [m1; m2]); (1, hh)]).
  { apply takes_grp. unfold hour_minute_pattern. cbn [seqs].
    eapply takes_seq.
    { apply takes_grp, takes_rep; [exact Hhh|lia|]. split; [lia|right].
      destruct Hsep as [-> | ->]; reflexivity. }
    eapply takes_seq.
    { apply takes_cls. destruct Hsep as [-> | ->]; reflexivity. }
    rewrite <- (app_nil_r [m1; m2]).
    apply takes_grp, takes_rep; [simpl; now rewrite Hm1, Hm2|simpl; lia|].
    simpl. split; [lia|now left]. }
  assert (Hsearch : search hour_minute_pattern T
            = Some {| m_start := 0; m_end := 0 + length (hh ++ [sep] ++ [m1; m2]);
                      m_caps := [(0, hh ++ [sep] ++ [m1; m2]); (2, [m1; m2]); (1, hh)] |}).
  { eapply search_of_match_at.
    unfold T. replace (hh ++ [sep] ++ [m1; m2] ++ ws ++ [x; y])
      with ((hh ++ [sep] ++ [m1; m2]) ++ ws ++ [x; y])
      by (now rewrite <- !app_assoc).
    apply (takes_match_at _ _ _ _ _ Htakes). }
  assert (Hplain : forallb plain (hh ++ [sep] ++ [m1; m2] ++ ws) = true).
  { rewrite !forallb_app. cbn [forallb].
    rewrite (forallb_implies _ _ _ digit_plain Hhh),
            (forallb_implies _ _ _ space_plain Hws),
            (digit_plain _ Hm1), (digit_plain _ Hm2).
    destruct Hsep as [-> | ->]; reflexivity. }
  destruct (marker_found _ x y Hplain Hx Hy) as [Hpm Ham].
  rewrite <- !app_assoc in Hpm, Ham. fold T in Hpm, Ham.
  unfold format_legacy_time. fold T. rewrite Hhas, Hsearch, Hpm, Ham.
  unfold group. cbn [m_caps lookup_cap Nat.eqb].
  now rewrite legacy_adjust.
Qed.

Lemma legacy_time_hour_only :
  format_legacy_time (hh ++ ws ++ [x; y])
  = format_hm (to_24h (int_of_digits hh) (is_char_ci "P" x)) 0.
Proof.
  destruct Hshape as (Hhh & Hlen & Hm1 & Hm2 & Hws & Hx & Hy).
  set (T := hh ++ ws ++ [x; y]).
  destruct (marker_lower x y Hx Hy) as (_ & Hxd & Hxc & Hxp).
  assert (Hsepfree : forall sep, sep = ":"%char \/ sep = "."%char ->
            contains [sep] T = false).
  { intros sep Hsep. apply contains_absent. unfold T. rewrite !forallb_app.
    assert (Hd : forall c, is_digit c = true -> negb (Ascii.eqb sep c) = true).
    { intros c Hc. destruct Hsep as [-> | ->].
      - exact (class_implies is_digit (fun c => negb (Ascii.eqb ":" c)) eq_refl c Hc).
      - exact (class_implies is_digit (fun c => negb (Ascii.eqb "." c)) eq_refl c Hc). }
    assert (Hs : forall c, is_space c = true -> negb (Ascii.eqb sep c) = true).
    { intros c Hc. destruct Hsep as [-> | ->].
      - exact (class_implies is_space (fun c => negb (Ascii.eqb ":" c)) eq_refl c Hc).
      - exact (class_implies is_space (fun c => negb (Ascii.eqb "." c)) eq_refl c Hc). }
    assert (Hmk : forall c, is_char_ci "M" c = true -> negb (Ascii.eqb sep c) = true).
    { intros c Hc. destruct Hsep as [-> | ->].
      - exact (class_implies (is_char_ci "M") (fun c => negb (Ascii.eqb ":" c)) eq_refl c Hc).
      - exact (class_implies (is_char_ci "M") (fun c => negb (Ascii.eqb "." c)) eq_refl c Hc). }
    rewrite (forallb_implies _ _ _ Hd Hhh), (forallb_implies _ _ _ Hs Hws).
    cbn [forallb]. rewrite (Hmk y Hy).
    destruct Hsep as [-> | ->]; unfold is_char in *; [rewrite Hxc|rewrite Hxp];
      reflexivity. }
  assert (Htakes : takes (Grp 0 hour_pattern) [] [] hh (ws ++ [x; y]) [(0, hh); (1, hh)]).
  { apply takes_grp. unfold hour_pattern.
    apply takes_grp, takes_rep; [exact Hhh|lia|].
    split; [lia|right]. apply hour_stops_at_marker. }
  assert (Hsearch : search hour_pattern T
            = Some {| m_start := 0; m_end := 0 + length hh;
                      m_caps := [(0, hh); (1, hh)] |}).
  { eapply search_of_match_at. apply (takes_match_at _ _ _ _ _ Htakes). }
  assert (Hplain : forallb plain (hh ++ ws) = true).
  { rewrite forallb_app.
    now rewrite (forallb_implies _ _ _ digit_plain Hhh),
                (forallb_implies _ _ _ space_plain Hws). }
  destruct (marker_found _ x y Hplain Hx Hy) as [Hpm Ham].
  rewrite <- !app_assoc in Hpm, Ham. fold T in Hpm, Ham.
  unfold format_legacy_time. fold T.
  change (txt ":") with [":"%char]. change (txt ".") with ["."%char].
  rewrite !Hsepfree by auto. cbn [orb].
  unfold hour_only. rewrite Hsearch, Hpm, Ham.
  unfold group. cbn [m_caps lookup_cap Nat.eqb].
  now rewrite legacy_adjust.
Qed.

End LegacyReading.

(** ** Twelve-hour to twenty-four-hour *)

(** C6: both branches turn a twelve-hour reading into twenty-four-hour
    HH:MM.  "12:00 AM" gives "00:00" and "12:00 PM" gives "12:00" in the
    standardized and in the legacy branch, and the legacy reading "4 PM",
    which has no minutes, gives "16:00".  In general, for a reading made
    of one or two digits of hour, two digits of minutes after a colon
    (in the legacy branch also after a dot, or no minutes at all), any
    white space and the marker in either case, the hour becomes
    [to_24h] of it and the minutes stay (00 when there are none); and
    [to_24h] adds 12 to every PM hour other than 12.  The last two items
    run the whole extraction. *)
Theorem C6_twelve_hour_times_become_twenty_four_hour
    (parse_fuzzy : datetime -> text -> option datetime) (now : datetime) :
  format_standardized_time (txt "12:00 AM") = txt "00:00"
  /\ format_standardized_time (txt "12:00 PM") = txt "12:00"
  /\ format_legacy_time (txt "12:00 AM") = txt "00:00"
  /\ format_legacy_time (txt "12:00 PM") = txt "12:00"
  /\ format_legacy_time (txt "4 PM") = txt "16:00"
  /\ (forall hh m1 m2 ws x y,
        clock_shape hh m1 m2 ws x y ->
        let h24 := to_24h (int_of_digits hh) (is_char_ci "P" x) in
        let mi := int_of_digits [m1; m2] in
        format_standardized_time (hh ++ [":"%char] ++ [m1; m2] ++ ws ++ [x; y])
        = format_hm h24 mi
        /\ format_legacy_time (hh ++ [":"%char] ++ [m1; m2] ++ ws ++ [x; y])
           = format_hm h24 mi
        /\ format_legacy_time (hh ++ ["."%char] ++ [m1; m2] ++ ws ++ [x; y])
           = format_hm h24 mi
        /\ format_legacy_time (hh ++ ws ++ [x; y]) = format_hm h24 0)
  /\ (forall h, h <> 12 -> to_24h h true = h + 12)
  /\ to_24h 12 true = 12
  /\ to_24h 12 false = 0
  /\ formatted_time
       (extract_text parse_fuzzy now
          (txt "Let me confirm the interview on 06-29-2025 at 12:00 AM"))
     = txt "00:00"
  /\ formatted_time
       (extract_text parse_fuzzy now
          (txt "The meeting is on March 3rd, 2026 at 4 PM"))
     = txt "16:00".
Proof.
  split; [vm_compute; reflexivity|]. split; [vm_compute; reflexivity|].
  split; [vm_compute; reflexivity|]. split; [vm_compute; reflexivity|].
  split; [vm_compute; reflexivity|]. split.
  { intros hh m1 m2 ws x y Hshape. cbv zeta.
    split; [now apply standardized_time_of_clock|].
    split; [apply legacy_time_with_minutes; auto|].
    split; [apply legacy_time_with_minutes; auto|].
    now apply (legacy_time_hour_only hh m1 m2). }
  split.
  { intros h Hh. unfold to_24h. apply Nat.eqb_neq in Hh. now rewrite Hh. }
  split; [reflexivity|]. split; [reflexivity|].
  split; vm_compute; reflexivity.
Qed.

Lemma C6_half_past_four_witness :
  format_standardized_time (txt "04:30 PM") = txt "16:30"
  /\ format_legacy_time (txt "04.30 PM") = txt "16:30"
  /\ format_legacy_time (txt "04 PM") = txt "16:00".
Proof.
  destruct (C6_twelve_hour_times_become_twenty_four_hour Dateutil.parse_fuzzy
              Samples.october_first) as (_ & _ & _ & _ & _ & H & _).
  assert (Hshape : clock_shape (txt "04") "3" "0" (txt " ") "P" "M").
  { unfold clock_shape. repeat split; try reflexivity; simpl; try lia.
    right. reflexivity. }
  destruct (H _ _ _ _ _ _ Hshape) as (H1 & _ & H3 & H4).
  split; [exact H1|]. split; [exact H3|exact H4].
Defined.

(** ** Dates without a year *)

Section YearInference.
Variable parse_fuzzy : datetime -> text -> option datetime.
Variable now : datetime.

(** A date text that is neither relative nor standardized and shows no
    four-digit year goes through the year inference of lines 119-127. *)
Lemma format_date_without_year (s : slot) :
  fmt s <> Some standardized ->
  contains (txt "tomorrow") (lower (date_text s)) = false ->
  contains (txt "today") (lower (date_text s)) = false ->
  search year_pattern (date_text s) = None ->
  parse_date parse_fuzzy now s
  = match parse_fuzzy now (date_text s) with
    | None => None
    | Some parsed_date =>
        if year parsed_date =? 1900 then
          match replace_year parsed_date (year now) with
          | None => None
          | Some parsed_date =>
              if dt_lt parsed_date now
              then replace_year parsed_date (year now + 1)
              else Some parsed_date
          end
        else Some parsed_date
    end.
Proof.
  intros Hfmt Htom Htod Hyear. unfold parse_date, parse_legacy_date.
  rewrite Htom, Htod, Hyear.
  destruct (fmt s) as [[|]|]; try reflexivity. now elim Hfmt.
Qed.

(** The inference and the roll-forward only fire on the year 1900. *)
Lemma year_is_kept_unless_1900 (s : slot) (parsed_date : datetime) :
  fmt s <> Some standardized ->
  contains (txt "tomorrow") (lower (date_text s)) = false ->
  contains (txt "today") (lower (date_text s)) = false ->
  search year_pattern (date_text s) = None ->
  parse_fuzzy now (date_text s) = Some parsed_date ->
  year parsed_date <> 1900 ->
  format_date parse_fuzzy now s = strftime_dmY parsed_date.
Proof.
  intros Hfmt Htom Htod Hyear Hparse H1900.
  unfold format_date.
  rewrite (format_date_without_year s Hfmt Htom Htod Hyear), Hparse.
  apply Nat.eqb_neq in H1900. now rewrite H1900.
Qed.

End YearInference.

Lemma march_third_found : find_slot Samples.march_third_text = Some Samples.march_third_slot.
Proof. vm_compute. reflexivity. Qed.

(** C2: on 1 October 2025 the date text "March 3rd", which has no year,
    comes out as "03-03-2025", not "03-03-2026".  The year inference and
    the roll-forward are guarded by the year 1900, and dateutil fills a
    missing year from today's date, so they never run: the parser's
    answer for "March 3rd" is 3 March of the current year, and that is
    what gets formatted. *)
Theorem C2_current_year_is_kept
    (parse_fuzzy : datetime -> text -> option datetime) :
  parse_fuzzy Samples.october_first (txt "March 3rd") = Some (midnight 2025 3 3) ->
  let r := extract_text parse_fuzzy Samples.october_first Samples.march_third_text in
  raw_date_text r = txt "March 3rd"
  /\ formatted_date r = txt "03-03-2025"
  /\ formatted_date r <> txt "03-03-2026".
Proof.
  intros Hparse r. subst r.
  rewrite (extract_with_slot _ _ _ _ march_third_found).
  cbn [raw_date_text formatted_date].
  assert (Hd : format_date parse_fuzzy Samples.october_first Samples.march_third_slot
               = txt "03-03-2025").
  { rewrite (year_is_kept_unless_1900 parse_fuzzy Samples.october_first
               Samples.march_third_slot (midnight 2025 3 3));
      try (vm_compute; reflexivity); try discriminate.
    exact Hparse. }
  rewrite Hd. repeat split. vm_compute. discriminate.
Qed.

Lemma C2_dateutil_witness :
  formatted_date
    (extract_text Dateutil.parse_fuzzy Samples.october_first Samples.march_third_text)
  = txt "03-03-2025".
Proof.
  apply (C2_current_year_is_kept Dateutil.parse_fuzzy). vm_compute. reflexivity.
Defined.

(** Had the parser answered with the year 1900, the code would have
    produced the date the specification expects. *)
Lemma placeholder_year_would_roll_forward
    (parse_fuzzy : datetime -> text -> option datetime) :
  parse_fuzzy Samples.october_first (txt "March 3rd") = Some (midnight 1900 3 3) ->
  formatted_date (extract_text parse_fuzzy Samples.october_first Samples.march_third_text)
  = txt "03-03-2026".
Proof.
  intros Hparse.
  rewrite (extract_with_slot _ _ _ _ march_third_found).
  cbn [formatted_date]. unfold format_date.
  rewrite format_date_without_year; try (vm_compute; reflexivity); try discriminate.
  cbn [date_text Samples.march_third_slot]. rewrite Hparse. vm_compute. reflexivity.
Qed.

(** ** The legacy stage *)

Lemma finditer_first r s :
  match search r s with
  | Some m => exists rest, finditer r s = m :: rest
  | None => finditer r s = []
  end.
Proof.
  unfold search, finditer. cbn [finditer_from].
  destruct (search_from r [] s) as [[m [bef' aft']]|]; cbn [option_map fst];
    [|reflexivity].
  destruct (m_end m =? m_start m); [destruct aft'|]; eauto.
Qed.

(** The match [re.search] returns is the leftmost: the pattern matches at
    no earlier offset. *)
Lemma search_from_leftmost r aft :
  forall bef m cur,
  search_from r bef aft = Some (m, cur) ->
  length bef <= m_start m
  /\ forall j, length bef + j < m_start m ->
       match_at r (rev (firstn j aft) ++ bef) (skipn j aft) = None.
Proof.
  induction aft as [|c aft IH]; intros bef m cur H; simpl in H.
  - destruct (match_at r bef []) as [[m' cur']|] eqn:Hm; [|discriminate].
    inversion H; subst.
    apply match_at_sound in Hm as (w & post & caps & _ & _ & -> & _).
    cbn [m_start]. split; [lia|]. intros j Hj. lia.
  - destruct (match_at r bef (c :: aft)) as [[m' cur']|] eqn:Hm.
    + inversion H; subst.
      apply match_at_sound in Hm as (w & post & caps & _ & _ & -> & _).
      cbn [m_start]. split; [lia|]. intros j Hj. lia.
    + apply IH in H as [Hle Hleft]. cbn [length] in Hle.
      split; [lia|]. intros [|j] Hj.
      * exact Hm.
      * cbn [firstn skipn rev]. rewrite <- app_assoc. cbn [app].
        apply Hleft. cbn [length]. lia.
Qed.

Lemma search_leftmost r s m :
  search r s = Some m ->
  forall j, j < m_start m ->
    match_at r (rev (firstn j s)) (skipn j s) = None.
Proof.
  unfold search. destruct (search_from r [] s) as [[m' cur]|] eqn:H; [|discriminate].
  cbn [option_map fst]. intros E j Hj. inversion E; subst.
  destruct (search_from_leftmost r s [] m cur H) as [_ Hleft].
  rewrite <- (app_nil_r (rev (firstn j s))). apply Hleft. cbn [length]. lia.
Qed.

(** The first pattern of the list that matches anywhere decides, by its
    leftmost match. *)
Lemma legacy_date_first (content : text) (patterns : list regex) :
  forall k pattern m,
  nth_error patterns k = Some pattern ->
  (forall j p, j < k -> nth_error patterns j = Some p -> search p content = None) ->
  search pattern content = Some m ->
  legacy_date patterns content
  = Some {| date_text := strip (group m 1); time_text := [];
            full_match := group m 0; fmt := Some legacy_format |}.
Proof.
  induction patterns as [|p patterns IH]; intros k pattern m Hk Hbefore Hm.
  - destruct k; discriminate.
  - destruct k as [|k]; cbn [nth_error] in Hk.
    + inversion Hk; subst. cbn [legacy_date].
      pose proof (finditer_first pattern content) as Hf. rewrite Hm in Hf.
      destruct Hf as [rest ->]. reflexivity.
    + cbn [legacy_date].
      pose proof (finditer_first p content) as Hf.
      rewrite (Hbefore 0 p) in Hf by (cbn; auto with arith). rewrite Hf.
      apply (IH k pattern m Hk); [|exact Hm].
      intros j q Hj Hq. apply (Hbefore (S j) q); [lia|exact Hq].
Qed.

Lemma legacy_slot_time (content : text) (s : slot) :
  legacy_date legacy_patterns content = Some s ->
  time_text s = [] ->
  legacy_slot content
  = Some {| date_text := date_text s;
            time_text := last_of (findall time_pattern content);
            full_match := full_match s; fmt := fmt s |}.
Proof.
  intros Hs Ht. unfold legacy_slot. rewrite Hs. cbv zeta.
  destruct (findall time_pattern content) eqn:E; [|reflexivity].
  destruct s; cbn in *. now subst.
Qed.

(** C3, as the code has it: when the standardized pattern does not match,
    the date comes from the first legacy pattern, in the order of the
    list, that matches anywhere, and from its leftmost match (the pattern
    matches at no earlier offset); the time is the last time-like
    substring of the whole transcript. *)
Theorem C3_first_legacy_date_and_last_time
    (parse_fuzzy : datetime -> text -> option datetime) (now : datetime)
    (content : text) (k : nat) (pattern : regex) (m : rmatch) :
  search standardized_pattern content = None ->
  nth_error legacy_patterns k = Some pattern ->
  (forall j p, j < k -> nth_error legacy_patterns j = Some p ->
               search p content = None) ->
  search pattern content = Some m ->
  let r := extract_text parse_fuzzy now content in
  raw_date_text r = strip (group m 1)
  /\ (forall j, j < m_start m ->
        match_at pattern (rev (firstn j content)) (skipn j content) = None)
  /\ raw_time_text r = last_of (findall time_pattern content).
Proof.
  intros Hstd Hk Hbefore Hm r.
  pose proof (legacy_date_first content legacy_patterns k pattern m Hk Hbefore Hm)
    as Hdate.
  pose proof (legacy_slot_time content _ Hdate eq_refl) as Hslot.
  cbn [date_text full_match fmt] in Hslot.
  assert (Hfind : find_slot content
            = Some {| date_text := strip (group m 1);
                      time_text := last_of (findall time_pattern content);
                      full_match := group m 0; fmt := Some legacy_format |}).
  { unfold find_slot, standardized_slot. now rewrite Hstd, Hslot. }
  subst r. rewrite (extract_with_slot _ _ _ _ Hfind).
  cbn [raw_date_text raw_time_text].
  split; [reflexivity|]. split; [|reflexivity].
  now apply search_leftmost.
Qed.

(** C3 fails on a transcript with two "scheduled for" dates and two
    times: the date returned is the first one mentioned, paired with the
    last time. *)
Lemma C3_first_date_wins :
  let r := extract_text Dateutil.parse_fuzzy Samples.october_first Samples.rescheduled_text in
  standardized_slot Samples.rescheduled_text = None
  /\ map (fun m => group m 1) (finditer (legacy "scheduled" "for" "on") Samples.rescheduled_text)
     = [txt "January 5th, 2041"; txt "February 7th, 2041"]
  /\ all_times Samples.rescheduled_text = [txt "10:00 AM"; txt "3:00 PM"]
  /\ raw_date_text r = txt "January 5th, 2041"
  /\ formatted_date r = txt "05-01-2041"
  /\ raw_time_text r = txt "3:00 PM"
  /\ formatted_time r = txt "15:00"
  /\ raw_date_text r <> txt "February 7th, 2041".
Proof.
  cbv zeta. repeat split; try (vm_compute; reflexivity).
  vm_compute. discriminate.
Qed.

Lemma C3_rescheduled_witness :
  let r := extract_text Dateutil.parse_fuzzy Samples.october_first Samples.rescheduled_text in
  raw_date_text r = txt "January 5th, 2041" /\ raw_time_text r = txt "3:00 PM".
Proof.
  cbv zeta.
  eassert (Hm : search (legacy "scheduled" "for" "on") Samples.rescheduled_text = Some _)
    by (vm_compute; reflexivity).
  assert (Hstd : search standardized_pattern Samples.rescheduled_text = None)
    by (vm_compute; reflexivity).
  assert (Hfirst : forall j p, j < 0 -> nth_error legacy_patterns j = Some p ->
                     search p Samples.rescheduled_text = None)
    by (intros j p Hj; lia).
  destruct (C3_first_legacy_date_and_last_time Dateutil.parse_fuzzy Samples.october_first Samples.rescheduled_text
              0 (legacy "scheduled" "for" "on") _ Hstd eq_refl Hfirst Hm)
    as (Hd & _ & Ht).
  rewrite Hd, Ht. split; vm_compute; reflexivity.
Defined.

(** ** Failures stay local *)

Lemma format_hm_filled (h mi : nat) : format_hm h mi <> [].
Proof.
  unfold format_hm. intros H. apply (f_equal (@length ascii)) in H.
  rewrite !length_app in H. simpl in H. lia.
Qed.

Lemma format_legacy_time_filled (t : text) : format_legacy_time t <> [].
Proof.
  unfold format_legacy_time.
  destruct (if contains (txt ":") t || contains (txt ".") t
            then match search hour_minute_pattern t with
                 | Some time_parts =>
                     (int_of_digits (group time_parts 1),
                      int_of_digits (group time_parts 2))
                 | None => hour_only t
                 end
            else hour_only t) as [hours minutes].
  apply format_hm_filled.
Qed.

Lemma standardized_slot_of_search content m :
  search standardized_pattern content = Some m ->
  standardized_slot content
  = Some {| date_text := group m 1; time_text := group m 2;
            full_match := group m 0; fmt := Some standardized |}.
Proof.
  intros Hsearch.
  destruct (standardized_match_shape content m Hsearch)
    as [(a & b & c & d & e & f & g & h & HD & Hdate)
        (hh & m1 & m2 & ws & x & y & HT & Hclock)].
  unfold standardized_slot. rewrite Hsearch.
  rewrite HD at 1. rewrite (standardized_date_strip _ _ _ _ _ _ _ _ Hdate), <- HD.
  rewrite HT at 1. rewrite (standardized_clock_strip _ _ _ _ _ _ Hclock), <- HT.
  reflexivity.
Qed.

Lemma legacy_date_format patterns content s :
  legacy_date patterns content = Some s -> fmt s = Some legacy_format.
Proof.
  induction patterns as [|p patterns IH]; cbn [legacy_date]; [discriminate|].
  destruct (finditer p content) as [|m ms]; [exact IH|].
  intros H. inversion H. reflexivity.
Qed.

Lemma legacy_slot_format content s :
  legacy_slot content = Some s -> fmt s = Some legacy_format.
Proof.
  unfold legacy_slot.
  destruct (legacy_date legacy_patterns content) as [s0|] eqn:E; [|discriminate].
  apply legacy_date_format in E. cbv zeta.
  destruct (findall time_pattern content); intros H; inversion H; subst; auto.
Qed.

Lemma unanchored_slot_format content s :
  unanchored_slot content = Some s -> fmt s = None.
Proof.
  unfold unanchored_slot. cbv zeta.
  destruct (all_dates content); [discriminate|].
  destruct (all_times content); [discriminate|].
  intros H. inversion H. reflexivity.
Qed.

(** Whatever stage found the slot, its time text is one the time block
    can read: the formatted time is never left empty. *)
Lemma time_is_always_filled content s :
  find_slot content = Some s -> format_time s <> [].
Proof.
  unfold find_slot.
  destruct (search standardized_pattern content) as [m|] eqn:Hsearch.
  - rewrite (standardized_slot_of_search content m Hsearch).
    intros H. inversion H; subst. unfold format_time. cbn [fmt time_text].
    destruct (standardized_match_shape content m Hsearch)
      as [_ (hh & m1 & m2 & ws & x & y & HT & Hclock)].
    rewrite HT, (standardized_time_of_clock _ _ _ _ _ _ Hclock).
    apply format_hm_filled.
  - assert (Hnone : standardized_slot content = None).
    { unfold standardized_slot. now rewrite Hsearch. }
    rewrite Hnone.
    destruct (legacy_slot content) as [s'|] eqn:Hl.
    + intros H. inversion H; subst. unfold format_time.
      rewrite (legacy_slot_format _ _ Hl). apply format_legacy_time_filled.
    + intros H. unfold format_time.
      rewrite (unanchored_slot_format _ _ H). apply format_legacy_time_filled.
Qed.

(** C7: once a stage has found a slot, both raw texts are kept; the
    formatted time is what the time block computes from the time text
    alone, and it is never empty; a date that fails to parse leaves only
    the formatted date empty, a date that parses is formatted whatever
    the time text is; and the call returns this result to its caller
    (it does not return [None]). *)
Theorem C7_one_failure_leaves_the_other_field
    (parse_fuzzy : datetime -> text -> option datetime) (now : datetime)
    (content : text) (s : slot) :
  find_slot content = Some s ->
  let r := extract_text parse_fuzzy now content in
  raw_date_text r = date_text s
  /\ raw_time_text r = time_text s
  /\ formatted_time r = format_time s
  /\ formatted_time r <> []
  /\ (parse_date parse_fuzzy now s = None -> formatted_date r = [])
  /\ (forall d, parse_date parse_fuzzy now s = Some d ->
                formatted_date r = strftime_dmY d)
  /\ (forall fs path, files fs !! path = Some content ->
        extract_interview_slot parse_fuzzy now fs path = Some r).
Proof.
  intros Hslot r. subst r.
  rewrite (extract_with_slot _ _ _ _ Hslot).
  cbn [raw_date_text raw_time_text formatted_time formatted_date].
  split; [reflexivity|]. split; [reflexivity|]. split; [reflexivity|].
  split; [now apply (time_is_always_filled content)|].
  split; [intros H; unfold format_date; now rewrite H|].
  split; [intros d H; unfold format_date; now rewrite H|].
  intros fs path Hfile. unfold extract_interview_slot. rewrite Hfile.
  now rewrite (extract_with_slot _ _ _ _ Hslot).
Qed.

Lemma C7_impossible_date_witness :
  let r := extract_text Dateutil.parse_fuzzy Samples.october_first
             Samples.impossible_date_text in
  formatted_date r = [] /\ formatted_time r = txt "16:30"
  /\ raw_date_text r = txt "02-30-2025" /\ raw_time_text r = txt "04:30 PM".
Proof.
  cbv zeta.
  eassert (Hslot : find_slot Samples.impossible_date_text = Some _)
    by (vm_compute; reflexivity).
  destruct (C7_one_failure_leaves_the_other_field Dateutil.parse_fuzzy Samples.october_first _ _ Hslot)
    as (Hrd & Hrt & Hft & _ & Hfail & _).
  rewrite Hrd, Hrt, Hft, Hfail by (vm_compute; reflexivity).
  repeat split; vm_compute; reflexivity.
Defined.

Lemma C10_missing_file_witness :
  let fs := {| files := {[ "call-transcripts/a.txt"%string := Samples.march_third_text ]};
               listing := {[ "call-transcripts"%string
                               := ["a.txt"; "notes.md"; "gone.txt"]%string ]} |} in
  extract_interview_slot Dateutil.parse_fuzzy Samples.october_first fs
    "call-transcripts/gone.txt" = None
  /\ option_map (@length result)
       (process_all_transcripts Dateutil.parse_fuzzy Samples.october_first fs)
     = Some 1.
Proof.
  cbv zeta.
  destruct (C10_missing_file_returns_none_and_is_omitted Dateutil.parse_fuzzy
              Samples.october_first
              {| files := {[ "call-transcripts/a.txt"%string := Samples.march_third_text ]};
                 listing := {[ "call-transcripts"%string
                                 := ["a.txt"; "notes.md"; "gone.txt"]%string ]} |}
              ["a.txt"; "notes.md"; "gone.txt"]%string
              "gone.txt" ["a.txt"%string] [])
    as (Hnone & _ & Hall & Hlen); [vm_compute; reflexivity ..|].
  split; [exact Hnone|].
  rewrite Hall. cbn [option_map]. rewrite Hlen. vm_compute. reflexivity.
Defined.

(** ** Hours out of range *)

Lemma legacy_pm_adds_twelve (hh ws : text) (x y : ascii) :
  forallb is_digit hh = true -> 1 <= length hh <= 2 ->
  forallb is_space ws = true ->
  is_char_ci "P" x = true -> is_char_ci "M" y = true ->
  int_of_digits hh <> 12 ->
  format_legacy_time (hh ++ ws ++ [x; y]) = format_hm (int_of_digits hh + 12) 0.
Proof.
  intros Hhh Hlen Hws Hx Hy H12.
  assert (Hshape : clock_shape hh "0" "0" ws x y).
  { unfold clock_shape. repeat split; auto; lia. }
  rewrite (legacy_time_hour_only hh "0" "0" ws x y Hshape), Hx.
  unfold to_24h. apply Nat.eqb_neq in H12. now rewrite H12.
Qed.

(** C8: the legacy time normalisation does not check the hour it reads.
    On a transcript whose legacy stage matches and whose last time-like
    substring is "13 PM", the formatted time is "25:00", which is no time
    of day; in general any one or two digits of hour other than 12,
    followed by PM, come out with 12 added. *)
Theorem C8_legacy_hour_is_not_range_checked
    (parse_fuzzy : datetime -> text -> option datetime) (now : datetime) :
  let r := extract_text parse_fuzzy now
             (txt "Interview scheduled for January 5th, 2041 at 13 PM") in
  raw_date_text r = txt "January 5th, 2041"
  /\ raw_time_text r = txt "13 PM"
  /\ formatted_time r = txt "25:00"
  /\ format_legacy_time (txt "13 PM") = format_hm 25 0
  /\ forall hh ws x y,
       forallb is_digit hh = true -> 1 <= length hh <= 2 ->
       forallb is_space ws = true ->
       is_char_ci "P" x = true -> is_char_ci "M" y = true ->
       int_of_digits hh <> 12 ->
       format_legacy_time (hh ++ ws ++ [x; y])
       = format_hm (int_of_digits hh + 12) 0.
Proof.
  cbv zeta.
  rewrite (extract_with_slot parse_fuzzy now _
             {| date_text := txt "January 5th, 2041";
                time_text := txt "13 PM";
                full_match := txt "scheduled for January 5th, 2041";
                fmt := Some legacy_format |})
    by (vm_compute; reflexivity).
  simpl raw_date_text. simpl raw_time_text. simpl formatted_time.
  split; [reflexivity|]. split; [reflexivity|].
  split; [vm_compute; reflexivity|]. split; [vm_compute; reflexivity|].
  exact legacy_pm_adds_twelve.
Qed.

Lemma C8_ninety_nine_witness :
  format_legacy_time (txt "99 pm") = txt "111:00".
Proof.
  destruct (C8_legacy_hour_is_not_range_checked Dateutil.parse_fuzzy
              Samples.october_first) as (_ & _ & _ & _ & H).
  apply (H (txt "99") (txt " ") "p"%char "m"%char); try reflexivity.
  - simpl. lia.
  - vm_compute. lia.
Defined.

(** ** The date candidates of the unanchored stage *)

Lemma ordinal_suffix_absent caps bef :
  takes ordinal_suffix caps bef [] [] caps.
Proof.
  apply takes_opt_none. cbn [alts].
  repeat apply fails_alt; apply fails_seq, fails_cls_end.
Qed.

Lemma month_day_takes (w ws d : text) :
  w <> [] -> forallb is_alpha w = true ->
  ws <> [] -> forallb is_space ws = true ->
  forallb is_digit d = true -> 1 <= length d <= 2 ->
  takes (Grp 0 (Grp 1 month_day)) [] [] (w ++ ws ++ d) []
    [(0, w ++ ws ++ d); (1, w ++ ws ++ d)].
Proof.
  intros Hw Ha Hws Hs Hd Hlen.
  assert (Hd0 : forall t, stops_at is_space (d ++ t) = true).
  { intros t. destruct d as [|c d]; [simpl in Hlen; lia|]. simpl in *.
    apply andb_true_iff in Hd as [Hc _]. apply negb_true_iff.
    now apply digit_not_space. }
  assert (Hs0 : forall t, stops_at is_alpha (ws ++ t) = true).
  { intros t. destruct ws as [|c ws]; [contradiction|]. simpl in *.
    apply andb_true_iff in Hs as [Hc _]. apply negb_true_iff.
    now apply space_not_alpha. }
  apply takes_grp, takes_grp. unfold month_day. cbn [seqs plus times].
  rewrite <- (app_nil_r d) at 1.
  eapply takes_seq.
  { apply takes_rep; [exact Ha| |rewrite <- app_assoc; apply Hs0].
    destruct w; [contradiction|simpl; lia]. }
  eapply takes_seq.
  { apply takes_rep; [exact Hs| |rewrite <- app_assoc; apply Hd0].
    destruct ws; [contradiction|simpl; lia]. }
  eapply takes_seq.
  { apply takes_rep; [exact Hd|lia|]. split; [lia|now right]. }
  apply ordinal_suffix_absent.
Qed.

Lemma month_day_matches_word_and_digits (w ws d : text) :
  w <> [] -> forallb is_alpha w = true ->
  ws <> [] -> forallb is_space ws = true ->
  forallb is_digit d = true -> 1 <= length d <= 2 ->
  findall (Grp 1 month_day) (w ++ ws ++ d) = [w ++ ws ++ d].
Proof.
  intros Hw Ha Hws Hs Hd Hlen.
  pose proof (month_day_takes w ws d Hw Ha Hws Hs Hd Hlen) as Htakes.
  apply takes_match_at in Htakes. rewrite app_nil_r in Htakes.
  unfold findall, finditer. cbn [finditer_from].
  rewrite (search_from_here _ _ _ _ Htakes). cbn [m_end m_start length].
  assert (Hlen_s : length (w ++ ws ++ d) <> 0).
  { destruct w; [contradiction|simpl; lia]. }
  apply Nat.eqb_neq in Hlen_s. cbn [Nat.add]. rewrite Hlen_s.
  destruct (length (w ++ ws ++ d)); reflexivity.
Qed.

(** C9: in the unanchored stage the date candidates are all the matches
    of the first grammar, then all of the second, then all of the third;
    the third grammar accepts any alphabetic word followed by white space
    and one or two digits; so the last candidate need not be a date: on the transcript
    below, which has no confirmation keyword, it is "of 20", taken from
    inside the year, and that becomes the raw date text. *)
Theorem C9_last_date_candidate_can_be_a_non_date
    (parse_fuzzy : datetime -> text -> option datetime) (now : datetime) :
  (forall content,
     all_dates content
     = findall (Grp 1 month_day_year) content
       ++ findall (Grp 1 day_month_year) content
       ++ findall (Grp 1 month_day) content)
  /\ (forall w ws d,
        w <> [] -> forallb is_alpha w = true ->
        ws <> [] -> forallb is_space ws = true ->
        forallb is_digit d = true -> 1 <= length d <= 2 ->
        findall (Grp 1 month_day) (w ++ ws ++ d) = [w ++ ws ++ d])
  /\ let content := txt "10:00 AM on 15th of June of 2041" in
     standardized_slot content = None
     /\ legacy_slot content = None
     /\ all_dates content
        = [txt "15th of June of 2041"; txt "on 15th"; txt "of 20"]
     /\ all_times content = [txt "10:00 AM"]
     /\ raw_date_text (extract_text parse_fuzzy now content) = txt "of 20".
Proof.
  split; [|split].
  - intros content. unfold all_dates, date_patterns. simpl.
    now rewrite app_nil_r.
  - exact month_day_matches_word_and_digits.
  - cbv zeta. repeat split; vm_compute; reflexivity.
Qed.

Lemma C9_word_and_digits_witness :
  findall (Grp 1 month_day) (txt "of" ++ txt " " ++ txt "20") = [txt "of 20"].
Proof.
  destruct (C9_last_date_candidate_can_be_a_non_date Dateutil.parse_fuzzy
              Samples.october_first) as [_ [H _]].
  apply (H (txt "of") (txt " ") (txt "20")); vm_compute;
    try congruence; try reflexivity; split; lia.
Defined.

(** ** One call from its first frame to the end *)

Section CallLife.
Import Relay Call.
Local Open Scope string_scope.

Lemma append_empty (s : string) : s ++ "" = s.
Proof.
  induction s as [|a s IH]; [reflexivity|].
  change (String a (s ++ "") = String a s). now rewrite IH.
Qed.

Lemma append_assoc (a b c : string) : (a ++ b) ++ c = a ++ (b ++ c).
Proof.
  induction a as [|x a IH]; [reflexivity|].
  change (String x ((a ++ b) ++ c) = String x (a ++ (b ++ c))). now rewrite IH.
Qed.

Lemma with_messages_same c : with_messages c (messages c) = c.
Proof. now destruct c. Qed.

Lemma recording_same st0 sid fn c w :
  recording st0 sid fn (with_messages c (messages c)) (w ++ [])%list
  = recording st0 sid fn c w.
Proof. now rewrite with_messages_same, app_nil_r. Qed.

Lemma write_recording st0 sid fn c w speaker text now :
  write_to_transcript_file (recording st0 sid fn c w) sid speaker text now
  = recording st0 sid fn c (w ++ [utterance_line now speaker text])%list.
Proof.
  unfold write_to_transcript_file, recording, write. cbn [transcript_file_handles disk].
  rewrite !lookup_insert_eq. cbn [is_open written conversation_transcripts].
  now rewrite insert_insert_eq.
Qed.

Lemma set_messages_recording st0 sid fn c w c' ms :
  set_messages (recording st0 sid fn c w) sid c' ms
  = recording st0 sid fn (with_messages c' ms) w.
Proof.
  unfold set_messages, recording, with_messages.
  cbn [conversation_transcripts transcript_file_handles disk].
  now rewrite insert_insert_eq.
Qed.

Lemma step_recording st0 sid fn c w ev now :
  sid <> "" ->
  send_to_twilio_step (recording st0 sid fn c w) (Some sid) ev now
  = recording st0 sid fn (with_messages c (next_messages (messages c) ev now))
      (w ++ next_lines (messages c) ev now)%list.
Proof.
  intros Hsid. apply String.eqb_neq in Hsid. unfold send_to_twilio_step.
  rewrite Hsid. unfold recording at 1. cbn [conversation_transcripts].
  rewrite lookup_insert_eq.
  destruct ev as [|a|transcript|delta_text| | |ty]; cbn [next_messages next_lines];
    try (symmetry; apply recording_same).
  - destruct (non_blank transcript); [|symmetry; apply recording_same].
    rewrite set_messages_recording. apply write_recording.
  - destruct (String.eqb delta_text ""); [symmetry; apply recording_same|].
    now rewrite set_messages_recording, app_nil_r.
  - destruct (List.last (map Some (messages c)) None) as [m|];
      [|symmetry; apply recording_same].
    destruct (String.eqb (speaker m) AI && non_blank (text_of m));
      [|symmetry; apply recording_same].
    rewrite with_messages_same. apply write_recording.
Qed.

Lemma send_recording st0 sid fn events :
  sid <> "" ->
  forall c w,
  send_to_twilio (recording st0 sid fn c w) (Some sid) events
  = recording st0 sid fn (with_messages c (messages_after (messages c) events))
      (w ++ lines_after (messages c) events)%list.
Proof.
  intros Hsid. induction events as [|[ev now] rest IH]; intros c w.
  - cbn [send_to_twilio messages_after lines_after]. symmetry. apply recording_same.
  - cbn [send_to_twilio messages_after lines_after].
    rewrite step_recording by exact Hsid. rewrite IH. cbn [with_messages messages call_sid start_time].
    unfold with_messages. cbn [call_sid start_time]. now rewrite <- app_assoc.
Qed.

Lemma next_lines_are_utterances ms ev now :
  forallb is_utterance_line (next_lines ms ev now) = true.
Proof.
  destruct ev as [|a|transcript|delta_text| | |ty]; cbn [next_lines]; try reflexivity.
  - now destruct (non_blank transcript).
  - destruct (List.last (map Some ms) None) as [m|]; [|reflexivity].
    now destruct (String.eqb (speaker m) AI && non_blank (text_of m)).
Qed.

Lemma lines_after_are_utterances events :
  forall ms, forallb is_utterance_line (lines_after ms events) = true.
Proof.
  induction events as [|[ev now] rest IH]; intros ms; cbn [lines_after]; [reflexivity|].
  now rewrite forallb_app, next_lines_are_utterances, IH.
Qed.

Lemma start_is_recording st0 sid cs t0 :
  start_stream st0 sid cs t0
  = recording st0 sid (transcript_path cs t0)
      {| call_sid := cs; start_time := t0; messages := [] |}
      [header sid cs t0].
Proof. reflexivity. Qed.


Lemma step_without_conversation st sid ev now :
  conversation_transcripts st !! sid = None ->
  send_to_twilio_step st (Some sid) ev now = st.
Proof.
  intros H. unfold send_to_twilio_step. rewrite H. now destruct (String.eqb sid "").
Qed.

Lemma send_without_conversation st sid events :
  conversation_transcripts st !! sid = None ->
  send_to_twilio st (Some sid) events = st.
Proof.
  intros H. induction events as [|[ev now] rest IH]; cbn [send_to_twilio];
    [reflexivity|].
  now rewrite step_without_conversation.
Qed.




End CallLife.



(** ** After the footer *)

(** X2: once a transcript has been closed, nothing is written after its
    footer: every later event of that stream, and every later call of the
    two writing functions, leaves the state as closing left it. *)
Theorem nothing_is_written_after_the_footer
    (st : Relay.state) (sid filename : string) (f : Relay.file) (t : datetime)
    (events : list (Relay.openai_event * datetime))
    (speaker text : string) (now : datetime) :
  Relay.transcript_file_handles st !! sid = Some filename ->
  Relay.disk st !! filename = Some f ->
  Relay.is_open f = true ->
  let st1 := Relay.close_transcript_file st sid t in
  Relay.send_to_twilio st1 (Some sid) events = st1
  /\ Relay.write_to_transcript_file st1 sid speaker text now = st1
  /\ Call.append_to_transcript_file st1 sid text = st1.
Proof.
  intros Hh Hf Ho. cbv zeta.
  rewrite (close_first_effect st sid t filename f Hh Hf Ho).
  split; [|split].
  - apply send_without_conversation. apply lookup_delete_eq.
  - unfold Relay.write_to_transcript_file. cbn [Relay.transcript_file_handles].
    now rewrite lookup_delete_eq.
  - unfold Call.append_to_transcript_file. cbn [Relay.transcript_file_handles].
    now rewrite lookup_delete_eq.
Qed.

Lemma nothing_is_written_after_the_footer_witness :
  let st1 := Relay.close_transcript_file Samples.started "MZ1" Samples.call_end in
  Relay.send_to_twilio st1 (Some "MZ1"%string) Samples.two_responses = st1.
Proof.
  cbv zeta.
  refine (proj1 (nothing_is_written_after_the_footer Samples.started "MZ1"
                   Samples.transcript_name
                   {| Relay.written := [Relay.header "MZ1" "CA1" Samples.call_start];
                      Relay.is_open := true |}
                   Samples.call_end Samples.two_responses "" "" Samples.call_end
                   _ _ _)); vm_compute; reflexivity.
Defined.

(** ** Calls do not disturb one another *)

Section Isolation.
Import Relay Call.
Local Open Scope string_scope.

Lemma write_keeps_the_rest st sid speaker text now :
  let st' := write_to_transcript_file st sid speaker text now in
  conversation_transcripts st' = conversation_transcripts st
  /\ transcript_file_handles st' = transcript_file_handles st
  /\ forall f, transcript_file_handles st !! sid <> Some f ->
               disk st' !! f = disk st !! f.
Proof.
  cbv zeta. unfold write_to_transcript_file.
  destruct (transcript_file_handles st !! sid) as [fn|] eqn:Hh; [|now auto].
  unfold write. destruct (disk st !! fn) as [file|]; [|now auto].
  destruct (is_open file); [|now auto].
  cbn [conversation_transcripts transcript_file_handles disk].
  repeat split. intros f Hf. apply lookup_insert_ne. congruence.
Qed.

Lemma step_keeps_the_rest st sid ev now :
  let st' := send_to_twilio_step st (Some sid) ev now in
  transcript_file_handles st' = transcript_file_handles st
  /\ (forall sid', sid' <> sid ->
        conversation_transcripts st' !! sid' = conversation_transcripts st !! sid')
  /\ (forall f, transcript_file_handles st !! sid <> Some f ->
        disk st' !! f = disk st !! f).
Proof.
  cbv zeta. unfold send_to_twilio_step.
  destruct (String.eqb sid ""); [now auto|].
  destruct (conversation_transcripts st !! sid) as [c|]; [|now auto].
  destruct ev as [|a|transcript|delta_text| | |ty]; try now auto.
  - destruct (non_blank transcript); [|now auto].
    destruct (write_keeps_the_rest
                (set_messages st sid c
                   (messages c ++ [{| timestamp := now; speaker := USER;
                                      text_of := transcript |}])%list)
                sid USER transcript now) as (Hc & Hh & Hd).
    rewrite Hh, Hc. cbn [set_messages transcript_file_handles conversation_transcripts].
    repeat split.
    + intros sid' Hne. now apply lookup_insert_ne.
    + intros f Hf. now rewrite Hd.
  - destruct (String.eqb delta_text ""); [now auto|].
    cbn [set_messages transcript_file_handles conversation_transcripts disk].
    repeat split. intros sid' Hne. now apply lookup_insert_ne.
  - destruct (List.last (map Some (messages c)) None) as [m|]; [|now auto].
    destruct (String.eqb (speaker m) AI && non_blank (text_of m)); [|now auto].
    destruct (write_keeps_the_rest st sid AI (text_of m) now) as (Hc & Hh & Hd).
    rewrite Hh, Hc. repeat split. exact Hd.
Qed.

End Isolation.

(** X3: the events of one stream change nothing that belongs to another:
    the handles stay as they are, every other stream keeps its
    conversation, and every file other than that stream's own keeps its
    contents. *)
Theorem events_of_one_stream_leave_the_others
    (st : Relay.state) (sid : string)
    (events : list (Relay.openai_event * datetime)) :
  let st' := Relay.send_to_twilio st (Some sid) events in
  Relay.transcript_file_handles st' = Relay.transcript_file_handles st
  /\ (forall sid', sid' <> sid ->
        Relay.conversation_transcripts st' !! sid'
        = Relay.conversation_transcripts st !! sid')
  /\ (forall f, Relay.transcript_file_handles st !! sid <> Some f ->
        Relay.disk st' !! f = Relay.disk st !! f).
Proof.
  cbv zeta. revert st. induction events as [|[ev now] rest IH]; intros st.
  - now auto.
  - cbn [Relay.send_to_twilio].
    destruct (step_keeps_the_rest st sid ev now) as (Hh & Hc & Hd).
    destruct (IH (Relay.send_to_twilio_step st (Some sid) ev now))
      as (Hh' & Hc' & Hd').
    split; [congruence|]. split.
    + intros sid' Hne. now rewrite Hc', Hc.
    + intros f Hf. rewrite Hd', Hd; [reflexivity|exact Hf|]. now rewrite Hh.
Qed.

(** ** What the message list keeps *)

Section Messages.
Import Relay Call.
Local Open Scope string_scope.

Lemma step_messages st sid c ev now :
  sid <> "" ->
  conversation_transcripts st !! sid = Some c ->
  exists c',
    conversation_transcripts (send_to_twilio_step st (Some sid) ev now) !! sid
    = Some c'
    /\ messages c' = next_messages (messages c) ev now.
Proof.
  intros Hsid Hc. apply String.eqb_neq in Hsid. unfold send_to_twilio_step.
  rewrite Hsid, Hc.
  destruct ev as [|a|transcript|delta_text| | |ty]; cbn [next_messages];
    try (exists c; now split).
  - destruct (non_blank transcript); [|exists c; now split].
    exists (with_messages c
              (messages c ++ [{| timestamp := now; speaker := USER;
                                 text_of := transcript |}])%list).
    split; [|reflexivity].
    destruct (write_keeps_the_rest
                (set_messages st sid c
                   (messages c ++ [{| timestamp := now; speaker := USER;
                                      text_of := transcript |}])%list)
                sid USER transcript now) as (Heq & _).
    rewrite Heq. cbn [set_messages conversation_transcripts].
    rewrite lookup_insert_eq. reflexivity.
  - destruct (String.eqb delta_text ""); [exists c; now split|].
    exists (with_messages c (accumulate (messages c) delta_text now)).
    split; [|reflexivity].
    cbn [set_messages conversation_transcripts].
    rewrite lookup_insert_eq. reflexivity.
  - exists c. split; [|reflexivity].
    destruct (List.last (map Some (messages c)) None) as [m|]; [|exact Hc].
    destruct (String.eqb (speaker m) AI && non_blank (text_of m)); [|exact Hc].
    destruct (write_keeps_the_rest st sid AI (text_of m) now) as (Heq & _).
    now rewrite Heq.
Qed.

Lemma send_messages sid events :
  sid <> "" ->
  forall st c,
  conversation_transcripts st !! sid = Some c ->
  messages_of (send_to_twilio st (Some sid) events) sid
  = messages_after (messages c) events.
Proof.
  intros Hsid. induction events as [|[ev now] rest IH]; intros st c Hc.
  - cbn [send_to_twilio messages_after]. unfold messages_of. now rewrite Hc.
  - cbn [send_to_twilio messages_after].
    destruct (step_messages st sid c ev now Hsid Hc) as (c' & Hc' & Hms).
    rewrite (IH _ c' Hc'). now rewrite Hms.
Qed.

Lemma assistant_text_app (xs ys : list message) :
  assistant_text (xs ++ ys)%list = assistant_text xs ++ assistant_text ys.
Proof.
  unfold assistant_text. rewrite List.filter_app.
  induction (List.filter is_assistant xs) as [|m l IH]; [reflexivity|].
  cbn [app fold_right]. now rewrite IH, append_assoc.
Qed.

Lemma caller_texts_app (xs ys : list message) :
  caller_texts (xs ++ ys)%list = (caller_texts xs ++ caller_texts ys)%list.
Proof. unfold caller_texts. now rewrite List.filter_app, map_app. Qed.

Lemma last_cases (ms : list message) :
  ms = [] \/ exists ms' m, ms = (ms' ++ [m])%list.
Proof.
  destruct ms as [|x xs]; [now left|right].
  destruct (exists_last (l := x :: xs)) as (ms' & m & E); [discriminate|].
  now exists ms', m.
Qed.

Lemma accumulate_empty delta_text now :
  accumulate [] delta_text now
  = [{| timestamp := now; speaker := AI; text_of := delta_text |}].
Proof. reflexivity. Qed.

Lemma accumulate_after_other ms m delta_text now :
  String.eqb (speaker m) AI = false ->
  accumulate (ms ++ [m])%list delta_text now
  = (ms ++ [m] ++ [{| timestamp := now; speaker := AI; text_of := delta_text |}])%list.
Proof.
  intros H. unfold accumulate. rewrite last_snoc, H. now rewrite <- app_assoc.
Qed.

Lemma accumulate_keeps_text ms delta_text now :
  assistant_text (accumulate ms delta_text now) = assistant_text ms ++ delta_text
  /\ caller_texts (accumulate ms delta_text now) = caller_texts ms.
Proof.
  destruct (last_cases ms) as [-> | (ms' & m & ->)].
  - rewrite accumulate_empty. split; [|reflexivity].
    unfold assistant_text. cbn. now rewrite append_empty.
  - destruct (String.eqb (speaker m) AI) eqn:Hm.
    + apply String.eqb_eq in Hm as Hm'.
      rewrite accumulate_after_assistant by exact Hm'.
      rewrite !assistant_text_app, !caller_texts_app.
      unfold assistant_text, caller_texts, is_assistant, is_caller.
      cbn [List.filter speaker]. rewrite Hm, Hm'. cbn.
      rewrite !append_empty. now rewrite append_assoc.
    + rewrite accumulate_after_other by exact Hm.
      rewrite app_assoc, assistant_text_app, caller_texts_app. split.
      * unfold assistant_text at 3. cbn. now rewrite append_empty.
      * unfold caller_texts at 3. cbn. now rewrite app_nil_r.
Qed.

Lemma next_messages_keep_text ms ev now :
  assistant_text (next_messages ms ev now)
  = assistant_text ms ++ deltas_of [(ev, now)]
  /\ caller_texts (next_messages ms ev now)
     = (caller_texts ms ++ transcripts_of [(ev, now)])%list.
Proof.
  destruct ev as [|a|transcript|delta_text| | |ty];
    cbn [next_messages deltas_of transcripts_of flat_map fold_right fst app];
    rewrite ?append_empty, ?app_nil_r; try (split; reflexivity).
  - destruct (non_blank transcript); rewrite ?app_nil_r; [|split; reflexivity].
    rewrite assistant_text_app, caller_texts_app. split.
    + unfold assistant_text at 2. cbn. now rewrite append_empty.
    + reflexivity.
  - destruct (String.eqb_spec delta_text "") as [->|_].
    + now rewrite append_empty.
    + apply accumulate_keeps_text.
Qed.

Lemma deltas_of_cons e rest :
  deltas_of (e :: rest) = deltas_of [e] ++ deltas_of rest.
Proof.
  unfold deltas_of. cbn [fold_right].
  destruct (fst e); try reflexivity. now rewrite append_empty.
Qed.

Lemma messages_after_keep_text events :
  forall ms,
  assistant_text (messages_after ms events) = assistant_text ms ++ deltas_of events
  /\ caller_texts (messages_after ms events)
     = (caller_texts ms ++ transcripts_of events)%list.
Proof.
  induction events as [|[ev now] rest IH]; intros ms.
  - cbn. now rewrite append_empty, app_nil_r.
  - cbn [messages_after]. destruct (IH (next_messages ms ev now)) as [Ha Hc].
    destruct (next_messages_keep_text ms ev now) as [Ha' Hc'].
    rewrite Ha, Hc, Ha', Hc'. split.
    + now rewrite append_assoc, <- deltas_of_cons.
    + rewrite <- app_assoc. f_equal. unfold transcripts_of. cbn [flat_map].
      now rewrite app_nil_r.
Qed.

Lemma no_adjacent_snoc ms m :
  no_adjacent_assistant (ms ++ [m])%list
  = no_adjacent_assistant ms && negb (last_is_assistant ms && is_assistant m).
Proof.
  induction ms as [|x [|y ms] IH].
  - reflexivity.
  - cbn. unfold last_is_assistant, is_assistant. cbn.
    now rewrite !andb_true_r.
  - change (no_adjacent_assistant ((x :: y :: ms) ++ [m])%list)
      with (negb (is_assistant x && is_assistant y)
            && no_adjacent_assistant ((y :: ms) ++ [m])%list).
    rewrite IH. cbn [no_adjacent_assistant].
    replace (last_is_assistant (x :: y :: ms)) with (last_is_assistant (y :: ms))
      by reflexivity.
    now rewrite andb_assoc.
Qed.

Lemma last_is_assistant_snoc ms m :
  last_is_assistant (ms ++ [m])%list = is_assistant m.
Proof. unfold last_is_assistant. now rewrite last_snoc. Qed.

Lemma next_messages_keep_apart ms ev now :
  no_adjacent_assistant ms = true ->
  no_adjacent_assistant (next_messages ms ev now) = true.
Proof.
  intros H.
  destruct ev as [|a|transcript|delta_text| | |ty]; cbn [next_messages]; try exact H.
  - destruct (non_blank transcript); [|exact H].
    rewrite no_adjacent_snoc, H.
    replace (is_assistant {| timestamp := now; speaker := USER;
                             text_of := transcript |}) with false by reflexivity.
    now rewrite andb_false_r.
  - destruct (String.eqb delta_text ""); [exact H|].
    destruct (last_cases ms) as [-> | (ms' & m & ->)]; [reflexivity|].
    rewrite no_adjacent_snoc in H. apply andb_true_iff in H as [H1 H2].
    destruct (String.eqb (speaker m) AI) eqn:Hm.
    + apply String.eqb_eq in Hm as Hm'.
      rewrite accumulate_after_assistant by exact Hm'.
      rewrite no_adjacent_snoc, H1. exact H2.
    + rewrite accumulate_after_other by exact Hm.
      rewrite app_assoc, no_adjacent_snoc, no_adjacent_snoc, H1.
      rewrite last_is_assistant_snoc. unfold is_assistant. rewrite Hm.
      now rewrite andb_false_r.
Qed.

End Messages.

(** X4: while a stream, of an id that is not empty, has its
    conversation, no text is lost or reordered on the way into the
    message list: what the assistant's messages hold, put end to end, is
    what they held before followed by every text piece received, and the
    caller's messages are those of before followed by every non-blank
    transcript received, verbatim. *)
Theorem messages_keep_every_text
    (st : Relay.state) (sid : string) (c : Relay.conversation)
    (events : list (Relay.openai_event * datetime)) :
  sid <> ""%string ->
  Relay.conversation_transcripts st !! sid = Some c ->
  let ms := Relay.messages_of (Relay.send_to_twilio st (Some sid) events) sid in
  Call.assistant_text ms
  = (Call.assistant_text (Relay.messages c) ++ Call.deltas_of events)%string
  /\ Call.caller_texts ms
     = Call.caller_texts (Relay.messages c) ++ Call.transcripts_of events.
Proof.
  intros Hsid Hc. cbv zeta. rewrite (send_messages sid events Hsid st c Hc).
  apply messages_after_keep_text.
Qed.

Lemma messages_keep_every_text_witness :
  let ms := Relay.messages_of
              (Relay.send_to_twilio Samples.started (Some "MZ1"%string)
                 Samples.two_responses) "MZ1" in
  Call.assistant_text ms = "Hello there"%string /\ Call.caller_texts ms = [].
Proof.
  cbv zeta.
  exact (messages_keep_every_text Samples.started "MZ1"
           {| Relay.call_sid := "CA1"; Relay.start_time := Samples.call_start;
              Relay.messages := [] |}
           Samples.two_responses ltac:(discriminate) eq_refl).
Defined.

(** X5: the message list never holds two assistant messages side by
    side: if it holds none before a list of events, it holds none
    after. *)
Theorem assistant_messages_never_adjoin
    (st : Relay.state) (sid : string)
    (events : list (Relay.openai_event * datetime)) :
  Call.no_adjacent_assistant (Relay.messages_of st sid) = true ->
  Call.no_adjacent_assistant
    (Relay.messages_of (Relay.send_to_twilio st (Some sid) events) sid) = true.
Proof.
  revert st. induction events as [|[ev now] rest IH]; intros st H; [exact H|].
  cbn [Relay.send_to_twilio]. apply IH.
  destruct (String.eqb_spec sid "") as [->|Hsid]; [exact H|].
  destruct (Relay.conversation_transcripts st !! sid) as [c|] eqn:Hc.
  - destruct (step_messages st sid c ev now Hsid Hc) as (c' & Hc' & Hms).
    unfold Relay.messages_of in *. rewrite Hc', Hms. rewrite Hc in H.
    now apply next_messages_keep_apart.
  - now rewrite step_without_conversation.
Qed.

Lemma assistant_messages_never_adjoin_witness :
  Call.no_adjacent_assistant
    (Relay.messages_of
       (Relay.send_to_twilio Samples.started (Some "MZ1"%string)
          Samples.two_responses) "MZ1") = true.
Proof.
  exact (assistant_messages_never_adjoin Samples.started "MZ1"
           Samples.two_responses eq_refl).
Defined.

(** ** Conversations that take turns *)

Section Turns.
Import Relay Call.
Local Open Scope string_scope.

Lemma messages_after_app xs ys :
  forall ms,
  messages_after ms (xs ++ ys)%list = messages_after (messages_after ms xs) ys.
Proof.
  induction xs as [|[ev now] xs IH]; intros ms; [reflexivity|].
  cbn [app messages_after]. apply IH.
Qed.

Lemma lines_after_app xs ys :
  forall ms,
  lines_after ms (xs ++ ys)%list
  = (lines_after ms xs ++ lines_after (messages_after ms xs) ys)%list.
Proof.
  induction xs as [|[ev now] xs IH]; intros ms; [reflexivity|].
  cbn [app messages_after lines_after]. now rewrite IH, app_assoc.
Qed.

Lemma deltas_write_nothing deltas :
  forall ms, lines_after ms (delta_events deltas) = [].
Proof.
  induction deltas as [|[d t] deltas IH]; intros ms; [reflexivity|].
  cbn [delta_events map lines_after next_lines app fst snd]. apply IH.
Qed.

Lemma same_message (m : message) :
  {| timestamp := timestamp m; speaker := speaker m; text_of := text_of m ++ "" |}
  = m.
Proof. rewrite append_empty. now destruct m. Qed.

(** Pieces that arrive after an assistant message lengthen it. *)
Lemma deltas_continue deltas :
  forall ms m,
  speaker m = AI ->
  messages_after (ms ++ [m])%list (delta_events deltas)
  = (ms ++ [{| timestamp := timestamp m; speaker := speaker m;
               text_of := text_of m ++ spoken deltas |}])%list.
Proof.
  induction deltas as [|[d t] deltas IH]; intros ms m Hm.
  - cbn [delta_events map messages_after spoken fold_right].
    now rewrite same_message.
  - cbn [delta_events map messages_after next_messages spoken fold_right fst snd].
    fold (delta_events deltas). fold (spoken deltas).
    destruct (String.eqb_spec d "") as [->|_].
    + now rewrite IH.
    + rewrite accumulate_after_assistant by exact Hm.
      rewrite IH by exact Hm. cbn [timestamp speaker text_of].
      now rewrite append_assoc.
Qed.

(** Pieces that arrive after a caller message, or first of all, open a
    new assistant message. *)
Lemma deltas_fresh deltas :
  forall ms,
  last_is_assistant ms = false ->
  spoken deltas <> "" ->
  exists m,
    messages_after ms (delta_events deltas) = (ms ++ [m])%list
    /\ speaker m = AI /\ text_of m = spoken deltas.
Proof.
  induction deltas as [|[d t] deltas IH]; intros ms Hlast Hsaid.
  - now contradiction Hsaid.
  - cbn [delta_events map messages_after next_messages spoken fold_right fst snd]
      in *.
    fold (delta_events deltas). fold (spoken deltas) in *.
    destruct (String.eqb_spec d "") as [->|Hd].
    + apply IH; assumption.
    + assert (Hnew : accumulate ms d t
                     = (ms ++ [{| timestamp := t; speaker := AI; text_of := d |}])%list).
      { destruct (last_cases ms) as [-> | (ms' & m & ->)]; [reflexivity|].
        rewrite last_is_assistant_snoc in Hlast.
        rewrite accumulate_after_other by exact Hlast. now rewrite <- app_assoc. }
      rewrite Hnew, deltas_continue by reflexivity.
      eexists. split; [reflexivity|]. now split.
Qed.

Lemma non_blank_is_not_empty s : non_blank s = true -> s <> "".
Proof. intros H ->. discriminate H. Qed.

(** The messages and the lines of a conversation that takes turns. *)
Lemma turns_are_written_once turns :
  forall ms,
  alternating turns = true ->
  (last_is_assistant ms = true ->
   match turns with t :: _ => is_assistant_turn t = false | [] => True end) ->
  let events := flat_map events_of turns in
  lines_after ms events = map line_of turns
  /\ map text_of (messages_after ms events)
     = (map text_of ms ++ map text_of_turn turns)%list
  /\ map speaker (messages_after ms events)
     = (map speaker ms ++ map speaker_of turns)%list.
Proof.
  induction turns as [|t turns IH]; intros ms Halt Hfirst; cbv zeta.
  - cbn. now rewrite !app_nil_r.
  - cbn [alternating] in Halt.
    apply andb_true_iff in Halt as [Halt Hrest].
    apply andb_true_iff in Halt as [Hsaid Hnext].
    cbn [flat_map map]. rewrite lines_after_app, messages_after_app.
    destruct t as [transcript now | deltas done].
    + cbn [text_of_turn] in Hsaid.
      cbn [events_of messages_after lines_after next_messages next_lines line_of
           text_of_turn speaker_of]. rewrite Hsaid.
      destruct (IH (ms ++ [{| timestamp := now; speaker := USER;
                              text_of := transcript |}])%list Hrest)
        as (Hl & Ht & Hs).
      { rewrite last_is_assistant_snoc. discriminate. }
      cbv zeta in Hl, Ht, Hs. rewrite Hl, Ht, Hs, !map_app, <- !app_assoc.
      now cbn.
    + cbn [text_of_turn] in Hsaid.
      assert (Hlast : last_is_assistant ms = false).
      { destruct (last_is_assistant ms); [|reflexivity].
        now specialize (Hfirst eq_refl). }
      destruct (deltas_fresh deltas ms Hlast (non_blank_is_not_empty _ Hsaid))
        as (m & Hms & Hm & Htext).
      cbn [events_of]. rewrite lines_after_app, messages_after_app, Hms.
      rewrite deltas_write_nothing.
      cbn [messages_after lines_after next_messages next_lines line_of
           text_of_turn speaker_of app].
      rewrite last_snoc, Hm, Htext, Hsaid. cbn [String.eqb andb app].
      rewrite String.eqb_refl. cbn [andb app].
      destruct (IH (ms ++ [m])%list Hrest) as (Hl & Ht & Hs).
      { intros _. destruct turns as [|t' turns']; [exact I|].
        cbn [is_assistant_turn] in Hnext.
        now destruct (is_assistant_turn t'). }
      cbv zeta in Hl, Ht, Hs. rewrite Hl, Ht, Hs, !map_app, <- !app_assoc.
      cbn [map app]. now rewrite Hm, Htext.
Qed.

Lemma header_is_no_utterance sid cs t0 : is_utterance_line (header sid cs t0) = false.
Proof. reflexivity. Qed.

Lemma filter_utterances lines :
  forallb is_utterance_line lines = true ->
  List.filter is_utterance_line lines = lines.
Proof.
  induction lines as [|l lines IH]; [reflexivity|]. cbn [forallb List.filter].
  intros H. apply andb_true_iff in H as [Hl Hrest]. now rewrite Hl, IH.
Qed.

End Turns.

(** X6: when caller and assistant take turns on a stream whose id is not
    empty (every utterance says something, the assistant never speaks
    twice in a row, and each assistant response is completed before the
    next utterance), the transcript file holds exactly one line for each
    utterance, in order, with its complete text, and the message list
    holds exactly one message for each. *)
Theorem turn_taking_conversation_is_written_once
    (st0 : Relay.state) (sid cs : string) (t0 : datetime) (turns : list Call.turn) :
  sid <> ""%string ->
  Call.alternating turns = true ->
  let st := Relay.send_to_twilio (Relay.start_stream st0 sid cs t0) (Some sid)
              (flat_map Call.events_of turns) in
  Relay.utterance_lines st (Call.transcript_path cs t0) = map Call.line_of turns
  /\ map Relay.text_of (Relay.messages_of st sid) = map Call.text_of_turn turns
  /\ map Relay.speaker (Relay.messages_of st sid) = map Call.speaker_of turns.
Proof.
  intros Hsid Halt. cbv zeta.
  rewrite start_is_recording, send_recording by exact Hsid.
  cbn [Relay.messages].
  destruct (turns_are_written_once turns [] Halt) as (Hl & Ht & Hs);
    [discriminate|]. cbv zeta in Hl, Ht, Hs.
  unfold Relay.utterance_lines, Relay.messages_of, Call.recording.
  cbn [Relay.disk Relay.conversation_transcripts].
  rewrite !lookup_insert_eq. cbn [Relay.written Call.with_messages Relay.messages].
  rewrite Hl, Ht, Hs. split; [|now split].
  cbn [app List.filter]. rewrite header_is_no_utterance.
  apply filter_utterances. rewrite <- Hl. apply lines_after_are_utterances.
Qed.

Lemma turn_taking_conversation_is_written_once_witness :
  let turns :=
    [ Call.assistant_says [("Hello"%string, Samples.call_start);
                           (" there"%string, Samples.call_start)]
        Samples.call_start;
      Call.caller_says "Hi" Samples.call_later ] in
  let st := Relay.send_to_twilio Samples.started (Some "MZ1"%string)
              (flat_map Call.events_of turns) in
  Relay.utterance_lines st Samples.transcript_name
  = [ Relay.utterance_line Samples.call_start Relay.AI "Hello there";
      Relay.utterance_line Samples.call_later Relay.USER "Hi" ]
  /\ map Relay.text_of (Relay.messages_of st "MZ1") = ["Hello there"%string; "Hi"%string].
Proof.
  cbv zeta.
  destruct (turn_taking_conversation_is_written_once Relay.initial "MZ1" "CA1"
              Samples.call_start
              [ Call.assistant_says [("Hello"%string, Samples.call_start);
                                     (" there"%string, Samples.call_start)]
                  Samples.call_start;
                Call.caller_says "Hi" Samples.call_later ])
    as (Hl & Ht & _); [discriminate | reflexivity |].
  split; [exact Hl | exact Ht].
Defined.

(** ** Files only grow *)

Section AppendOnly.
Import Relay Call.
Local Open Scope string_scope.

Lemma same_file (file : file) :
  {| written := (written file ++ [])%list; is_open := is_open file |} = file.
Proof. rewrite app_nil_r. now destruct file. Qed.

Lemma write_only_appends st sid speaker text now f file :
  disk st !! f = Some file ->
  exists more,
    disk (write_to_transcript_file st sid speaker text now) !! f
    = Some {| written := (written file ++ more)%list; is_open := is_open file |}
    /\ forallb is_utterance_line more = true.
Proof.
  intros Hf.
  assert (Hsame : exists more,
            disk st !! f
            = Some {| written := (written file ++ more)%list;
                      is_open := is_open file |}
            /\ forallb is_utterance_line more = true).
  { exists []. now rewrite same_file. }
  unfold write_to_transcript_file.
  destruct (transcript_file_handles st !! sid) as [fn|]; [|exact Hsame].
  unfold write. destruct (disk st !! fn) as [target|] eqn:Ht; [|exact Hsame].
  destruct (is_open target) eqn:Ho; [|exact Hsame]. cbn [disk].
  destruct (decide (fn = f)) as [->|Hne].
  - rewrite lookup_insert_eq. rewrite Hf in Ht. inversion Ht; subst target.
    exists [utterance_line now speaker text]. now rewrite Ho.
  - rewrite lookup_insert_ne by exact Hne. exact Hsame.
Qed.

Lemma step_only_appends st sid ev now f file :
  disk st !! f = Some file ->
  exists more,
    disk (send_to_twilio_step st sid ev now) !! f
    = Some {| written := (written file ++ more)%list; is_open := is_open file |}
    /\ forallb is_utterance_line more = true.
Proof.
  intros Hf.
  assert (Hsame : exists more,
            disk st !! f
            = Some {| written := (written file ++ more)%list;
                      is_open := is_open file |}
            /\ forallb is_utterance_line more = true).
  { exists []. now rewrite same_file. }
  unfold send_to_twilio_step. destruct sid as [sid|]; [|exact Hsame].
  destruct (String.eqb sid ""); [exact Hsame|].
  destruct (conversation_transcripts st !! sid) as [c|]; [|exact Hsame].
  destruct ev as [|a|transcript|delta_text| | |ty]; try exact Hsame.
  - destruct (non_blank transcript); [|exact Hsame].
    now apply write_only_appends.
  - now destruct (String.eqb delta_text "").
  - destruct (List.last (map Some (messages c)) None) as [m|]; [|exact Hsame].
    destruct (String.eqb (speaker m) AI && non_blank (text_of m)); [|exact Hsame].
    now apply write_only_appends.
Qed.

End AppendOnly.

(** X7: whatever events arrive, for whatever stream, every file keeps
    what was written to it and stays open or closed as it was: events
    only add utterance lines at its end. *)
Theorem events_only_append
    (st : Relay.state) (sid : option string)
    (events : list (Relay.openai_event * datetime)) (f : string) (file : Relay.file) :
  Relay.disk st !! f = Some file ->
  exists more,
    Relay.disk (Relay.send_to_twilio st sid events) !! f
    = Some {| Relay.written := Relay.written file ++ more;
              Relay.is_open := Relay.is_open file |}
    /\ forallb Relay.is_utterance_line more = true.
Proof.
  revert st file. induction events as [|[ev now] rest IH]; intros st file Hf.
  - exists []. cbn [Relay.send_to_twilio]. now rewrite same_file.
  - cbn [Relay.send_to_twilio].
    destruct (step_only_appends st sid ev now f file Hf) as (more & Hstep & Hmore).
    destruct (IH _ _ Hstep) as (more' & Hrest & Hmore').
    cbn [Relay.written Relay.is_open] in Hrest.
    exists (more ++ more'). rewrite app_assoc. split; [exact Hrest|].
    now rewrite forallb_app, Hmore, Hmore'.
Qed.

Lemma events_only_append_witness :
  exists more,
    Relay.disk (Relay.send_to_twilio Samples.started (Some "MZ1"%string)
                  Samples.two_responses) !! Samples.transcript_name
    = Some {| Relay.written :=
                [Relay.header "MZ1" "CA1" Samples.call_start] ++ more;
              Relay.is_open := true |}
    /\ forallb Relay.is_utterance_line more = true.
Proof.
  exact (events_only_append Samples.started (Some "MZ1"%string) Samples.two_responses
           Samples.transcript_name
           {| Relay.written := [Relay.header "MZ1" "CA1" Samples.call_start];
              Relay.is_open := true |} eq_refl).
Defined.

(** ** Transcripts without a digit *)

Section Digits.
Import Shapes.

Lemma demands_sound q r :
  demands q r = true ->
  forall caps bef w aft caps',
  sem r caps bef w aft caps' -> existsb q w = true.
Proof.
  induction r as [|p|a IHa b IHb|a IHa b IHb|a IHa|g lo hi p|n a IHa|];
    cbn [demands]; intros Hd caps bef w aft caps' Hs; try discriminate;
    inversion Hs; subst.
  - cbn [existsb]. unfold class_within in Hd.
    now rewrite (class_implies p q Hd c) by assumption.
  - rewrite existsb_app. apply orb_true_iff in Hd as [Hd|Hd].
    + now rewrite (IHa Hd _ _ _ _ _ ltac:(eassumption)).
    + rewrite (IHb Hd _ _ _ _ _ ltac:(eassumption)). apply orb_true_r.
  - apply andb_true_iff in Hd as [Hd _]. eapply IHa; eassumption.
  - apply andb_true_iff in Hd as [_ Hd]. eapply IHb; eassumption.
  - apply andb_true_iff in Hd as [Hlo Hd]. apply Nat.ltb_lt in Hlo.
    destruct w as [|c w]; [cbn in *; lia|].
    cbn [forallb existsb] in *.
    match goal with H : _ && _ = true |- _ => apply andb_true_iff in H as [Hc _] end.
    unfold class_within in Hd. now rewrite (class_implies p q Hd c Hc).
  - eapply IHa; eassumption.
Qed.

Lemma existsb_none (q : ascii -> bool) (s : text) :
  forallb (fun c => negb (q c)) s = true -> existsb q s = false.
Proof.
  induction s as [|c s IH]; [reflexivity|]. cbn [forallb existsb].
  intros H. apply andb_true_iff in H as [Hc Hs]. apply negb_true_iff in Hc.
  now rewrite Hc, IH.
Qed.

Lemma search_needs q r s :
  demands q r = true ->
  forallb (fun c => negb (q c)) s = true ->
  search r s = None.
Proof.
  intros Hd Hs. destruct (search r s) as [m|] eqn:Hm; [|reflexivity].
  apply search_sound in Hm as (pre & w & post & caps & -> & Hsem & _).
  inversion Hsem; subst.
  pose proof (demands_sound q r Hd _ _ _ _ _ ltac:(eassumption)) as Hw.
  apply existsb_none in Hs. rewrite !existsb_app, Hw in Hs.
  now rewrite orb_true_r in Hs.
Qed.

Lemma finditer_needs q r s :
  demands q r = true ->
  forallb (fun c => negb (q c)) s = true ->
  finditer r s = [].
Proof.
  intros Hd Hs. pose proof (finditer_first r s) as H.
  now rewrite (search_needs q r s Hd Hs) in H.
Qed.

Lemma legacy_date_needs q patterns content :
  forallb (demands q) patterns = true ->
  forallb (fun c => negb (q c)) content = true ->
  legacy_date patterns content = None.
Proof.
  intros Hp Hs. induction patterns as [|r patterns IH]; [reflexivity|].
  cbn [forallb] in Hp. apply andb_true_iff in Hp as [Hr Hp].
  cbn [legacy_date]. rewrite (finditer_needs q r content Hr Hs). now apply IH.
Qed.

Lemma findall_needs q patterns content :
  forallb (demands q) patterns = true ->
  forallb (fun c => negb (q c)) content = true ->
  flat_map (fun pattern => findall pattern content) patterns = [].
Proof.
  intros Hp Hs. induction patterns as [|r patterns IH]; [reflexivity|].
  cbn [forallb] in Hp. apply andb_true_iff in Hp as [Hr Hp].
  cbn [flat_map]. unfold findall at 1.
  rewrite (finditer_needs q r content Hr Hs). now apply IH.
Qed.

End Digits.

(** X8: a transcript without any digit gives the result with all five
    fields empty: every pattern of the three stages asks for a digit. *)
Theorem transcript_without_digits_gives_nothing
    (parse_fuzzy : datetime -> text -> option datetime) (now : datetime)
    (content : text) :
  Shapes.digitless content = true ->
  extract_text parse_fuzzy now content = empty_result.
Proof.
  intros Hd. apply extract_without_slot. unfold find_slot.
  assert (Hstd : standardized_slot content = None).
  { unfold standardized_slot.
    now rewrite (search_needs is_digit standardized_pattern content eq_refl Hd). }
  assert (Hleg : legacy_slot content = None).
  { unfold legacy_slot.
    now rewrite (legacy_date_needs is_digit legacy_patterns content eq_refl Hd). }
  assert (Hun : unanchored_slot content = None).
  { unfold unanchored_slot, all_dates.
    now rewrite (findall_needs is_digit date_patterns content eq_refl Hd). }
  now rewrite Hstd, Hleg, Hun.
Qed.

Lemma transcript_without_digits_gives_nothing_witness :
  extract_text Dateutil.parse_fuzzy Samples.october_first
    (txt "Let us meet tomorrow afternoon, or on the first of March at noon")
  = empty_result.
Proof.
  exact (transcript_without_digits_gives_nothing Dateutil.parse_fuzzy
           Samples.october_first
           (txt "Let us meet tomorrow afternoon, or on the first of March at noon")
           eq_refl).
Defined.

(** ** The raw texts come from the transcript *)

Section Pieces.
Import Shapes.

Lemma piece_of_itself (s : text) : piece_of s s.
Proof. exists [], []. now rewrite app_nil_r. Qed.

Lemma nothing_is_a_piece (s : text) : piece_of [] s.
Proof. now exists [], s. Qed.

Lemma piece_of_piece (t u s : text) : piece_of t u -> piece_of u s -> piece_of t s.
Proof.
  intros (a & b & ->) (a' & b' & ->). exists (a' ++ a), (b ++ b').
  now rewrite <- !app_assoc.
Qed.

Lemma piece_of_left (t u v : text) : piece_of t u -> piece_of t (u ++ v).
Proof. intros (a & b & ->). exists a, (b ++ v). now rewrite <- !app_assoc. Qed.

Lemma piece_of_right (t u v : text) : piece_of t v -> piece_of t (u ++ v).
Proof. intros (a & b & ->). exists (u ++ a), b. now rewrite <- !app_assoc. Qed.

Lemma lstrip_is_a_piece (s : text) : piece_of (lstrip s) s.
Proof.
  induction s as [|c s IH]; [apply piece_of_itself|]. cbn [lstrip].
  destruct (is_space c); [|apply piece_of_itself].
  now apply (piece_of_right _ [c] s).
Qed.

Lemma piece_of_rev (t s : text) : piece_of t s -> piece_of (rev t) (rev s).
Proof.
  intros (a & b & ->). exists (rev b), (rev a).
  now rewrite !rev_app_distr, <- app_assoc.
Qed.

Lemma strip_is_a_piece (s : text) : piece_of (strip s) s.
Proof.
  unfold strip. rewrite <- (rev_involutive s) at 2. apply piece_of_rev.
  eapply piece_of_piece; [apply lstrip_is_a_piece|].
  rewrite <- (rev_involutive (lstrip s)). rewrite rev_involutive.
  apply piece_of_rev, lstrip_is_a_piece.
Qed.

(** What a match binds is what was bound before or a piece of the text
    matched. *)
Lemma captures_are_pieces r caps bef w aft caps' :
  sem r caps bef w aft caps' ->
  forall n t, lookup_cap n caps' = Some t ->
  lookup_cap n caps = Some t \/ piece_of t w.
Proof.
  induction 1 as [caps bef aft | p c caps bef aft Hc
                 | a b caps bef w1 w2 aft caps1 caps2 Ha IHa Hb IHb
                 | a b caps bef w aft caps1 Ha IHa
                 | a b caps bef w aft caps1 Hb IHb
                 | a caps bef w aft caps1 Ha IHa
                 | a caps bef aft
                 | g lo hi p caps bef w aft Hall Hlo Hhi
                 | n a caps bef w aft caps1 Ha IHa
                 | caps bef aft Hb]; intros k t Hk; try (now left); try (now apply IHa);
    try (now apply IHb).
  - destruct (IHb k t Hk) as [Hk1|Hp]; [|right; now apply piece_of_right].
    destruct (IHa k t Hk1) as [Hk0|Hp]; [now left|right; now apply piece_of_left].
  - cbn [lookup_cap] in Hk. destruct (n =? k).
    + inversion Hk; subst. right. apply piece_of_itself.
    + now apply IHa.
Qed.

Lemma bound_text_is_a_piece r bef w aft caps k :
  sem (Grp 0 r) [] bef w aft caps ->
  piece_of (match lookup_cap k caps with Some t => t | None => [] end) w.
Proof.
  intros Hs. destruct (lookup_cap k caps) as [t|] eqn:Hk; [|apply nothing_is_a_piece].
  destruct (captures_are_pieces _ _ _ _ _ _ Hs k t Hk) as [H|H]; [discriminate|exact H].
Qed.

Lemma group_of_search_is_a_piece r s m k :
  search r s = Some m -> piece_of (group m k) s.
Proof.
  intros H. apply search_sound in H as (pre & w & post & caps & -> & Hs & Hc).
  unfold group. rewrite Hc. apply piece_of_right, piece_of_left.
  exact (bound_text_is_a_piece r _ _ _ _ k Hs).
Qed.

Lemma groups_of_finditer_from_are_pieces r k fuel :
  forall bef aft m,
  In m (finditer_from fuel r bef aft) -> piece_of (group m k) (rev bef ++ aft).
Proof.
  induction fuel as [|fuel IH]; intros bef aft m Hin; [contradiction|].
  cbn [finditer_from] in Hin.
  destruct (search_from r bef aft) as [[m0 [bef' aft']]|] eqn:Hs; [|contradiction].
  apply search_from_sound in Hs as (pre & w & post & caps & -> & Hsem & -> & Hcur).
  inversion Hcur; subst bef' aft'. clear Hcur.
  assert (Hfirst : piece_of
            (group {| m_start := length bef + length pre;
                      m_end := length bef + length pre + length w;
                      m_caps := caps |} k)
            (rev bef ++ pre ++ w ++ post)).
  { unfold group. cbn [m_caps]. apply piece_of_right, piece_of_right, piece_of_left.
    exact (bound_text_is_a_piece r _ _ _ _ k Hsem). }
  assert (Hwhole : rev (rev w ++ rev pre ++ bef) ++ post
                   = rev bef ++ pre ++ w ++ post).
  { now rewrite !rev_app_distr, !rev_involutive, <- !app_assoc. }
  cbn [m_end m_start] in Hin.
  destruct (length bef + length pre + length w =? length bef + length pre).
  - destruct post as [|c post]; destruct Hin as [<-|Hin]; try exact Hfirst;
      try contradiction.
    apply IH in Hin. cbn [rev] in Hin. rewrite <- app_assoc in Hin. cbn [app] in Hin.
    now rewrite Hwhole in Hin.
  - destruct Hin as [<-|Hin]; [exact Hfirst|].
    apply IH in Hin. now rewrite Hwhole in Hin.
Qed.

Lemma groups_of_finditer_are_pieces r s m k :
  In m (finditer r s) -> piece_of (group m k) s.
Proof. intros H. now apply (groups_of_finditer_from_are_pieces r k) in H. Qed.

Lemma findall_gives_pieces r s :
  Forall (fun t => piece_of t s) (findall r s).
Proof.
  unfold findall. apply List.Forall_forall. intros t Ht.
  apply List.in_map_iff in Ht as (m & <- & Hm).
  exact (groups_of_finditer_are_pieces r s m 1 Hm).
Qed.

Lemma last_of_pieces (l : list text) (s : text) :
  Forall (fun t => piece_of t s) l -> piece_of (last_of l) s.
Proof.
  unfold last_of. induction 1 as [|t l Ht Hl IH]; [apply nothing_is_a_piece|].
  destruct l as [|t' l]; [exact Ht|exact IH].
Qed.

Lemma all_dates_are_pieces content :
  Forall (fun t => piece_of t content) (all_dates content).
Proof.
  unfold all_dates. induction date_patterns as [|r rs IH]; [constructor|].
  cbn [flat_map]. apply List.Forall_app. split; [apply findall_gives_pieces|exact IH].
Qed.

Lemma legacy_date_is_a_piece patterns content s :
  legacy_date patterns content = Some s ->
  piece_of (date_text s) content /\ time_text s = []
  /\ piece_of (full_match s) content.
Proof.
  induction patterns as [|r rs IH]; [discriminate|]. cbn [legacy_date].
  destruct (finditer r content) as [|m ms] eqn:Hf; [exact IH|].
  intros H. inversion H; subst. cbn [date_text time_text full_match].
  assert (Hm : In m (finditer r content)) by (rewrite Hf; now left).
  split; [|split; [reflexivity|]].
  - eapply piece_of_piece; [apply strip_is_a_piece|].
    exact (groups_of_finditer_are_pieces r content m 1 Hm).
  - exact (groups_of_finditer_are_pieces r content m 0 Hm).
Qed.

Lemma slot_is_made_of_pieces content s :
  find_slot content = Some s ->
  piece_of (date_text s) content /\ piece_of (time_text s) content
  /\ (fmt s <> None -> piece_of (full_match s) content).
Proof.
  unfold find_slot.
  destruct (standardized_slot content) as [s0|] eqn:Hstd.
  { intros H. inversion H; subst s0. unfold standardized_slot in Hstd.
    destruct (search standardized_pattern content) as [m|] eqn:Hm; [|discriminate].
    inversion Hstd; subst. cbn [date_text time_text full_match fmt].
    repeat split.
    - eapply piece_of_piece; [apply strip_is_a_piece|].
      now apply (group_of_search_is_a_piece standardized_pattern).
    - eapply piece_of_piece; [apply strip_is_a_piece|].
      now apply (group_of_search_is_a_piece standardized_pattern).
    - intros _. now apply (group_of_search_is_a_piece standardized_pattern). }
  destruct (legacy_slot content) as [s0|] eqn:Hleg.
  { intros H. inversion H; subst s0. unfold legacy_slot in Hleg.
    destruct (legacy_date legacy_patterns content) as [d|] eqn:Hd; [|discriminate].
    destruct (legacy_date_is_a_piece _ _ _ Hd) as (Hdate & Htime & Hfull).
    destruct (findall time_pattern content) as [|t ts] eqn:Hts.
    - inversion Hleg; subst. rewrite Htime.
      split; [exact Hdate|]. split; [apply nothing_is_a_piece|now intros _].
    - inversion Hleg; subst. cbn [date_text time_text full_match fmt].
      split; [exact Hdate|]. split; [|now intros _].
      rewrite <- Hts. apply last_of_pieces, findall_gives_pieces. }
  unfold unanchored_slot.
  destruct (all_dates content) as [|d ds] eqn:Hds; [discriminate|].
  destruct (all_times content) as [|t ts] eqn:Hts; [discriminate|].
  intros H. inversion H; subst. cbn [date_text time_text full_match fmt].
  split; [|split; [|now intros []]].
  - rewrite <- Hds. apply last_of_pieces, all_dates_are_pieces.
  - rewrite <- Hts. apply last_of_pieces. apply findall_gives_pieces.
Qed.

End Pieces.

(** X9: the extractor never makes up its raw texts: for every
    transcript, the raw date text and the raw time text of the result
    are pieces of the transcript (consecutive characters of it, or
    empty). *)
Theorem raw_texts_are_pieces_of_the_transcript
    (parse_fuzzy : datetime -> text -> option datetime) (now : datetime)
    (content : text) :
  let r := extract_text parse_fuzzy now content in
  Shapes.piece_of (raw_date_text r) content
  /\ Shapes.piece_of (raw_time_text r) content.
Proof.
  cbv zeta. destruct (find_slot content) as [s|] eqn:Hs.
  - rewrite (extract_with_slot parse_fuzzy now content s Hs).
    cbn [raw_date_text raw_time_text].
    destruct (slot_is_made_of_pieces content s Hs) as (Hd & Ht & _). now split.
  - rewrite (extract_without_slot parse_fuzzy now content Hs).
    split; apply nothing_is_a_piece.
Qed.

(** ** Transcripts without a time *)

Section NoTime.
Import Shapes.

(** A clock reading of the standardized phrase is also a time of the
    legacy grammar. *)
Lemma clock_is_a_time bef aft hh m1 m2 ws x y :
  clock_shape hh m1 m2 ws x y ->
  exists caps,
    sem (Grp 0 time_pattern) [] bef
      (hh ++ [":"%char] ++ [m1; m2] ++ ws ++ [x; y]) aft caps.
Proof.
  intros (Hhh & Hlen & Hm1 & Hm2 & Hws & Hx & Hy).
  eexists. apply sem_grp. unfold time_pattern. apply sem_grp.
  cbv [seqs alts lit_ci map txt list_ascii_of_string times star].
  eapply sem_seq.
  { apply sem_rep; [exact Hhh|lia|cbn; lia]. }
  eapply sem_seq.
  { apply sem_opt_some, sem_cls. reflexivity. }
  eapply sem_seq.
  { apply sem_rep; [cbn; now rewrite Hm1, Hm2|cbn; lia|cbn; lia]. }
  eapply sem_seq.
  { apply sem_rep; [exact Hws|lia|exact I]. }
  destruct Hx as [Hx|Hx].
  - apply sem_alt_l. eapply (sem_seq _ _ _ _ [x] [y]); now apply sem_cls.
  - apply sem_alt_r, sem_alt_l. eapply (sem_seq _ _ _ _ [x] [y]); now apply sem_cls.
Qed.

Lemma found_means_listed r s m :
  search r s = Some m -> findall r s <> [].
Proof.
  intros H. pose proof (finditer_first r s) as Hf. rewrite H in Hf.
  destruct Hf as (rest & Hf). unfold findall. now rewrite Hf.
Qed.

Lemma standardized_phrase_holds_a_time content m :
  search standardized_pattern content = Some m ->
  findall time_pattern content <> [].
Proof.
  intros H.
  destruct (standardized_match_shape content m H)
    as [_ (hh & m1 & m2 & ws & x & y & HT & Hclock)].
  destruct (group_of_search_is_a_piece standardized_pattern content m 2 H)
    as (a & b & Hcontent).
  rewrite HT in Hcontent.
  destruct (clock_is_a_time (rev a) b hh m1 m2 ws x y Hclock) as (caps & Hsem).
  destruct (search_complete time_pattern a _ b caps Hsem) as (m' & Hm' & _).
  rewrite <- Hcontent in Hm'. exact (found_means_listed _ _ _ Hm').
Qed.

End NoTime.

(** X10: when the transcript holds no time-like substring, the raw time
    text is empty; the result is the empty one unless a legacy
    confirmation gives a date, and then the time is reported as 00:00. *)
Theorem transcript_without_a_time
    (parse_fuzzy : datetime -> text -> option datetime) (now : datetime)
    (content : text) :
  findall time_pattern content = [] ->
  let r := extract_text parse_fuzzy now content in
  raw_time_text r = []
  /\ match legacy_date legacy_patterns content with
     | Some s =>
         raw_date_text r = date_text s /\ full_text r = full_match s
         /\ formatted_time r = txt "00:00"
     | None => r = empty_result
     end.
Proof.
  intros Hnone. cbv zeta.
  assert (Hstd : standardized_slot content = None).
  { unfold standardized_slot.
    destruct (search standardized_pattern content) as [m|] eqn:Hm; [|reflexivity].
    now destruct (standardized_phrase_holds_a_time content m Hm). }
  unfold extract_text, find_slot. rewrite Hstd. unfold legacy_slot. rewrite Hnone.
  destruct (legacy_date legacy_patterns content) as [s|] eqn:Hleg.
  - destruct (legacy_date_is_a_piece _ _ _ Hleg) as (_ & Htime & _).
    pose proof (legacy_date_format _ _ _ Hleg) as Hfmt.
    cbn [process_slot raw_time_text raw_date_text full_text formatted_time].
    unfold format_time. rewrite Hfmt, Htime. now repeat split.
  - unfold unanchored_slot, all_times. rewrite Hnone.
    now destruct (all_dates content).
Qed.

Lemma transcript_without_a_time_witness :
  let r := extract_text Dateutil.parse_fuzzy Samples.october_first
             (txt "The interview is scheduled for January 5th, 2041") in
  raw_date_text r = txt "January 5th, 2041"
  /\ raw_time_text r = [] /\ formatted_time r = txt "00:00".
Proof.
  cbv zeta.
  pose proof (transcript_without_a_time Dateutil.parse_fuzzy Samples.october_first
                (txt "The interview is scheduled for January 5th, 2041") eq_refl)
    as [Htime Hrest].
  cbv zeta in Hrest.
  change (legacy_date legacy_patterns
            (txt "The interview is scheduled for January 5th, 2041"))
    with (Some {| date_text := txt "January 5th, 2041"; time_text := [];
                  full_match := txt "scheduled for January 5th, 2041";
                  fmt := Some legacy_format |}) in Hrest.
  destruct Hrest as (Hdate & _ & Hclock).
  split; [exact Hdate|]. split; [exact Htime|exact Hclock].
Defined.

(** ** Dictionaries in insertion order *)

Section Dictionaries.
Import ZArith.
Local Open Scope Z_scope.
Context {V : Type}.
Implicit Types (d : PyDict.dict V) (k : Z) (v : V).

Lemma get_set_same k v d : PyDict.get k (PyDict.set k v d) = Some v.
Proof.
  induction d as [|[k' v'] d IH]; cbn [PyDict.set PyDict.get].
  - now rewrite Z.eqb_refl.
  - destruct (Z.eqb_spec k' k) as [->|Hne]; cbn [PyDict.get].
    + now rewrite Z.eqb_refl.
    + apply Z.eqb_neq in Hne. now rewrite Hne.
Qed.

Lemma get_set_other k k' v d :
  k' <> k -> PyDict.get k' (PyDict.set k v d) = PyDict.get k' d.
Proof.
  intros Hne. induction d as [|[k0 v0] d IH]; cbn [PyDict.set PyDict.get].
  - apply not_eq_sym in Hne. apply Z.eqb_neq in Hne. now rewrite Hne.
  - destruct (Z.eqb_spec k0 k) as [->|H0]; cbn [PyDict.get].
    + apply not_eq_sym in Hne. apply Z.eqb_neq in Hne. now rewrite Hne.
    + now rewrite IH.
Qed.

Lemma get_absent k d : ~ In k (PyDict.keys d) -> PyDict.get k d = None.
Proof.
  induction d as [|[k' v'] d IH]; cbn [PyDict.keys map PyDict.get fst];
    [reflexivity|].
  intros H. destruct (Z.eqb_spec k' k) as [->|Hne].
  - exfalso. apply H. now left.
  - apply IH. intros Hin. apply H. now right.
Qed.

Lemma get_present k d :
  In k (PyDict.keys d) -> exists v, PyDict.get k d = Some v.
Proof.
  induction d as [|[k' v'] d IH]; cbn [PyDict.keys map PyDict.get fst];
    [contradiction|].
  intros [->|Hin].
  - rewrite Z.eqb_refl. now exists v'.
  - destruct (k' =? k); [now exists v'|now apply IH].
Qed.

Lemma get_is_stored k v d : PyDict.get k d = Some v -> In (k, v) d.
Proof.
  induction d as [|[k' v'] d IH]; cbn [PyDict.get]; [discriminate|].
  destruct (Z.eqb_spec k' k) as [->|Hne].
  - intros H. inversion H. now left.
  - intros H. right. now apply IH.
Qed.

Lemma stored_is_got k v d :
  List.NoDup (PyDict.keys d) -> In (k, v) d -> PyDict.get k d = Some v.
Proof.
  induction d as [|[k' v'] d IH]; cbn [PyDict.keys map PyDict.get fst];
    [contradiction|].
  intros Hnd [Heq|Hin]; inversion Hnd as [|? ? Hnotin Hnd']; subst.
  - inversion Heq; subst. now rewrite Z.eqb_refl.
  - destruct (Z.eqb_spec k' k) as [->|Hne].
    + exfalso. apply Hnotin. change k with (fst (k, v)). now apply List.in_map.
    + now apply IH.
Qed.

Lemma set_new k v d :
  ~ In k (PyDict.keys d) -> PyDict.set k v d = d ++ [(k, v)].
Proof.
  induction d as [|[k' v'] d IH]; cbn [PyDict.keys map PyDict.set fst app];
    [reflexivity|].
  intros H. destruct (Z.eqb_spec k' k) as [->|Hne].
  - exfalso. apply H. now left.
  - rewrite IH; [reflexivity|]. intros Hin. apply H. now right.
Qed.

Lemma del_is_filter k d :
  List.NoDup (PyDict.keys d) ->
  PyDict.del k d = List.filter (fun item => negb (fst item =? k)) d.
Proof.
  induction d as [|[k' v'] d IH]; cbn [PyDict.keys map PyDict.del List.filter fst];
    [reflexivity|].
  intros Hnd. inversion Hnd as [|? ? Hnotin Hnd']; subst.
  destruct (Z.eqb_spec k' k) as [->|Hne]; cbn [negb].
  - symmetry. apply List.forallb_filter_id. apply List.forallb_forall.
    intros [k0 v0] Hin. cbn [fst]. apply negb_true_iff, Z.eqb_neq. intros ->.
    apply Hnotin. change k with (fst (k, v0)). now apply List.in_map.
  - now rewrite IH.
Qed.

End Dictionaries.

(** ** The store keeps its numbering *)

Section Numbering.
Import ZArith QArith Sorted Storage.
Local Open Scope Z_scope.

Lemma first_numbers_snoc n :
  first_numbers (S n) = first_numbers n ++ [Z.of_nat (S n)].
Proof. unfold first_numbers. now rewrite seq_S, map_app. Qed.

Lemma first_numbers_in n k :
  In k (first_numbers n) <-> 1 <= k <= Z.of_nat n.
Proof.
  unfold first_numbers. rewrite List.in_map_iff. split.
  - intros (i & <- & Hi). apply List.in_seq in Hi. lia.
  - intros H. exists (Z.to_nat k). split; [lia|]. apply List.in_seq. lia.
Qed.

Lemma first_numbers_ascending n : StronglySorted Z.lt (first_numbers n).
Proof.
  induction n as [|n IH]; [constructor|].
  rewrite first_numbers_snoc.
  assert (Hall : Forall (fun k => k < Z.of_nat (S n)) (first_numbers n)).
  { apply List.Forall_forall. intros k Hk. apply first_numbers_in in Hk. lia. }
  clear -IH Hall. induction IH as [|k ks Hs IHs Hk]; cbn [app].
  - repeat constructor.
  - inversion Hall; subst. constructor; [now apply IHs|].
    apply List.Forall_app. split; [exact Hk|]. now repeat constructor.
Qed.

Lemma issued_is_ascending_below keys next :
  issued keys next -> ascending_below keys next.
Proof.
  intros [Hk ->]. split.
  - rewrite Hk. apply first_numbers_ascending.
  - apply List.Forall_forall. intros k Hin. rewrite Hk in Hin.
    apply first_numbers_in in Hin. lia.
Qed.

Lemma ascending_has_no_duplicate keys :
  StronglySorted Z.lt keys -> List.NoDup keys.
Proof.
  induction 1 as [|k ks Hs IH Hk]; constructor; [|exact IH].
  intros Hin. rewrite List.Forall_forall in Hk. specialize (Hk k Hin). lia.
Qed.

Lemma below_is_new keys next :
  Forall (fun k => k < next) keys -> ~ In next keys.
Proof.
  intros H Hin. rewrite List.Forall_forall in H. specialize (H next Hin). lia.
Qed.

Lemma issued_snoc keys next :
  issued keys next -> issued (keys ++ [next]) (next + 1).
Proof.
  intros [Hk ->]. unfold issued. rewrite length_app. cbn [length].
  rewrite Nat.add_1_r, first_numbers_snoc, <- Hk. split; [reflexivity|lia].
Qed.

Lemma ascending_below_snoc keys next :
  ascending_below keys next -> ascending_below (keys ++ [next]) (next + 1).
Proof.
  intros [Hs Hb]. split.
  - clear -Hs Hb. induction Hs as [|k ks Hs IH Hk]; cbn [app].
    + repeat constructor.
    + inversion Hb; subst. constructor; [now apply IH|].
      apply List.Forall_app. split; [exact Hk|]. now repeat constructor.
  - apply List.Forall_app. split.
    + eapply List.Forall_impl; [|exact Hb]. cbv beta. intros; lia.
    + repeat constructor. lia.
Qed.

Lemma keys_of_new {V} (d : PyDict.dict V) k v :
  ~ In k (PyDict.keys d) ->
  PyDict.keys (PyDict.set k v d) = PyDict.keys d ++ [k].
Proof. intros H. rewrite set_new by exact H. unfold PyDict.keys. now rewrite map_app. Qed.

Lemma numbered_new {V} (number : V -> Z) (d : PyDict.dict V) k v :
  ~ In k (PyDict.keys d) -> number v = k ->
  numbered number d -> numbered number (PyDict.set k v d).
Proof.
  intros H Hv Hd. rewrite set_new by exact H. apply List.Forall_app. split; [exact Hd|].
  now repeat constructor.
Qed.

(** Deleting the matches of a job leaves the others, in their order. *)
Lemma del_keeps_head {V} (ks : list Z) :
  forall (d : PyDict.dict V) k v,
  ~ In k ks ->
  fold_left (fun d match_id => PyDict.del match_id d) ks ((k, v) :: d)
  = (k, v) :: fold_left (fun d match_id => PyDict.del match_id d) ks d.
Proof.
  induction ks as [|k0 ks IH]; intros d k v H; [reflexivity|].
  cbn [fold_left PyDict.del].
  destruct (Z.eqb_spec k k0) as [->|Hne]; [exfalso; apply H; now left|].
  apply IH. intros Hin. apply H. now right.
Qed.

Lemma delete_is_filter {V} (chosen : Z * V -> bool) (d : PyDict.dict V) :
  List.NoDup (PyDict.keys d) ->
  fold_left (fun d match_id => PyDict.del match_id d)
    (map fst (List.filter chosen d)) d
  = List.filter (fun item => negb (chosen item)) d.
Proof.
  induction d as [|[k v] d IH]; [reflexivity|].
  cbn [PyDict.keys map fst]. intros Hnd.
  inversion Hnd as [|? ? Hnotin Hnd']; subst.
  cbn [List.filter]. destruct (chosen (k, v)); cbn [negb map fst fold_left PyDict.del].
  - rewrite Z.eqb_refl. now apply IH.
  - rewrite del_keeps_head; [now rewrite IH|].
    intros Hin. apply Hnotin. apply List.in_map_iff in Hin as (item & <- & Hitem).
    apply List.filter_In in Hitem as [Hitem _]. now apply List.in_map.
Qed.

Lemma filter_keeps_ascending_below {V} (keep : Z * V -> bool) (d : PyDict.dict V) next :
  ascending_below (PyDict.keys d) next ->
  ascending_below (PyDict.keys (List.filter keep d)) next.
Proof.
  intros [Hs Hb]. unfold PyDict.keys in *. induction d as [|[k v] d IH].
  - split; constructor.
  - cbn [map fst] in Hs, Hb. inversion Hs as [|? ? Hs' Hk]; subst.
    inversion Hb as [|? ? Hk' Hb']; subst.
    destruct (IH Hs' Hb') as [IHs IHb].
    cbn [List.filter]. destruct (keep (k, v)); [|now split].
    cbn [map fst]. split; constructor; try assumption.
    apply List.Forall_forall. intros k0 Hin. rewrite List.Forall_forall in Hk. apply Hk.
    apply List.in_map_iff in Hin as (item & <- & Hitem).
    apply List.filter_In in Hitem as [Hitem _]. now apply List.in_map.
Qed.

Lemma well_kept_init : well_kept init.
Proof.
  unfold well_kept, issued, ascending_below, numbered.
  cbn. repeat split; constructor.
Qed.

Lemma delete_job_matches_filters s job :
  well_kept s ->
  job_matches (delete_job_matches_by_job_id s job)
  = List.filter (fun item => negb (job_id (match_fields (snd item)) =? job))
      (job_matches s).
Proof.
  intros (_ & _ & [Hs _] & _). cbn [delete_job_matches_by_job_id job_matches].
  apply (delete_is_filter (fun item => job_id (match_fields (snd item)) =? job)).
  now apply ascending_has_no_duplicate.
Qed.

Lemma serve_well_kept email_str s r : well_kept s -> well_kept (serve email_str s r).
Proof.
  intros Hs. pose proof Hs as (Hj & Hc & Hm & Hnj & Hnc & Hnm).
  destruct r as [job_data now|candidate_data now|match_data now|job];
    cbn [serve].
  - pose proof (below_is_new _ _ (proj2 (issued_is_ascending_below _ _ Hj))) as Hnew.
    unfold well_kept. cbn [create_job fst jobs candidates job_matches
      current_job_id current_candidate_id current_match_id].
    rewrite keys_of_new by exact Hnew.
    split; [apply issued_snoc, Hj|]. do 2 (split; [assumption|]).
    split; [now apply numbered_new|]. now split.
  - unfold create_candidate, build_candidate.
    destruct (email_str (email candidate_data)) as [address|]; [|exact Hs].
    pose proof (below_is_new _ _ (proj2 (issued_is_ascending_below _ _ Hc))) as Hnew.
    unfold well_kept. cbn [jobs candidates job_matches
      current_job_id current_candidate_id current_match_id].
    rewrite keys_of_new by exact Hnew.
    split; [assumption|]. split; [apply issued_snoc, Hc|].
    do 2 (split; [assumption|]). split; [now apply numbered_new|assumption].
  - pose proof (below_is_new _ _ (proj2 Hm)) as Hnew.
    unfold well_kept. cbn [create_job_match fst jobs candidates job_matches
      current_job_id current_candidate_id current_match_id].
    rewrite keys_of_new by exact Hnew.
    do 2 (split; [assumption|]). split; [apply ascending_below_snoc, Hm|].
    do 2 (split; [assumption|]). now apply numbered_new.
  - unfold well_kept. rewrite delete_job_matches_filters by exact Hs.
    cbn [delete_job_matches_by_job_id jobs candidates
      current_job_id current_candidate_id current_match_id].
    do 2 (split; [assumption|]).
    split; [now apply filter_keeps_ascending_below|].
    do 2 (split; [assumption|]).
    unfold numbered in *. rewrite List.Forall_forall in *. intros item Hin.
    apply List.filter_In in Hin as [Hin _]. now apply Hnm.
Qed.

Lemma serve_all_well_kept email_str requests :
  forall s, well_kept s -> well_kept (fold_left (serve email_str) requests s).
Proof.
  induction requests as [|r requests IH]; intros s Hs; [exact Hs|].
  cbn [fold_left]. apply IH. now apply serve_well_kept.
Qed.

Lemma history_well_kept email_str requests : well_kept (history email_str requests).
Proof. apply serve_all_well_kept, well_kept_init. Qed.

End Numbering.

Section JobNumbers.
Import ZArith QArith Sorted Storage.
Local Open Scope Z_scope.

Lemma served_jobs email_str requests :
  forall s,
  well_kept s ->
  length (jobs (fold_left (serve email_str) requests s))
  = (length (jobs s) + jobs_created requests)%nat.
Proof.
  induction requests as [|r requests IH]; intros s Hs.
  - cbn. lia.
  - cbn [fold_left]. rewrite IH by now apply serve_well_kept.
    unfold jobs_created. cbn [List.filter].
    destruct r as [job_data now|candidate_data now|match_data now|job];
      cbn [serve length].
    + destruct Hs as (Hj & _).
      pose proof (below_is_new _ _ (proj2 (issued_is_ascending_below _ _ Hj))) as Hnew.
      cbn [create_job fst jobs]. rewrite set_new by exact Hnew.
      rewrite length_app. cbn [length]. lia.
    + destruct (create_candidate email_str s candidate_data now) as [[s' c]|] eqn:E;
        [|reflexivity].
      unfold create_candidate in E.
      destruct (build_candidate email_str (current_candidate_id s) now candidate_data);
        [|discriminate].
      now inversion E.
    + reflexivity.
    + reflexivity.
Qed.

Lemma numbers_are_keys {V} (number : V -> Z) (d : PyDict.dict V) :
  numbered number d -> map number (PyDict.values d) = PyDict.keys d.
Proof.
  unfold numbered, PyDict.values, PyDict.keys. induction 1 as [|item d H Hd IH];
    [reflexivity|].
  cbn [map]. now rewrite H, IH.
Qed.

End JobNumbers.

(** X11: whatever calls the store has served, its jobs carry the numbers
    1, 2, ..., n in the order they were created, n being the number of
    [create_job] calls; the [get_job] endpoint returns the job of that
    number for each of them and answers 404 for every other id. *)
Theorem jobs_are_numbered_in_creation_order
    (email_str : string -> option string) (requests : list Storage.request) (k : Z) :
  let s := Storage.history email_str requests in
  let n := Storage.jobs_created requests in
  map Storage.job_number (Storage.get_all_jobs s) = Storage.first_numbers n
  /\ Storage.current_job_id s = Z.of_nat (S n)
  /\ ((1 <= k <= Z.of_nat n)%Z ->
      exists job, Api.get_job s k = Api.returns job /\ Storage.job_number job = k)
  /\ (~ (1 <= k <= Z.of_nat n)%Z ->
      Api.get_job s k
      = Api.raises {| Api.status_code := 404;
                      Api.detail_of := Api.says "Job not found" |}).
Proof.
  cbv zeta.
  pose proof (history_well_kept email_str requests) as Hs.
  pose proof Hs as ([Hkeys Hnext] & _ & _ & Hnum & _).
  assert (Hlen : length (PyDict.keys (Storage.jobs (Storage.history email_str requests)))
                 = Storage.jobs_created requests).
  { unfold PyDict.keys. rewrite length_map. unfold Storage.history.
    now rewrite served_jobs by apply well_kept_init. }
  rewrite Hlen in Hkeys, Hnext.
  split; [|split; [exact Hnext|split]].
  - unfold Storage.get_all_jobs. now rewrite numbers_are_keys.
  - intros Hk. unfold Api.get_job, Storage.get_job.
    destruct (get_present k (Storage.jobs (Storage.history email_str requests)))
      as (job & Hjob).
    { rewrite Hkeys. now apply first_numbers_in. }
    rewrite Hjob. exists job. split; [reflexivity|].
    apply get_is_stored in Hjob. unfold Storage.numbered in Hnum.
    rewrite List.Forall_forall in Hnum. exact (Hnum _ Hjob).
  - intros Hk. unfold Api.get_job, Storage.get_job.
    rewrite get_absent; [reflexivity|].
    rewrite Hkeys. intros Hin. now apply first_numbers_in in Hin.
Qed.

(** X12: creating a job in a store that has served any calls gives it a
    number no job had, stores it under that number after all the others,
    and changes no other job, no candidate and no match. *)
Theorem create_job_then_get_job
    (email_str : string -> option string) (requests : list Storage.request)
    (job_data : Storage.JobCreate) (now : datetime) :
  let s := Storage.history email_str requests in
  let s' := fst (Storage.create_job s job_data now) in
  let job := snd (Storage.create_job s job_data now) in
  Storage.job_fields job = job_data
  /\ Storage.get_job s (Storage.job_number job) = None
  /\ Storage.get_job s' (Storage.job_number job) = Some job
  /\ (forall k, k <> Storage.job_number job ->
        Storage.get_job s' k = Storage.get_job s k)
  /\ Storage.get_all_jobs s' = Storage.get_all_jobs s ++ [job]
  /\ Storage.get_all_candidates s' = Storage.get_all_candidates s
  /\ Storage.job_matches s' = Storage.job_matches s.
Proof.
  cbv zeta.
  pose proof (history_well_kept email_str requests) as (Hj & _).
  pose proof (below_is_new _ _ (proj2 (issued_is_ascending_below _ _ Hj))) as Hnew.
  cbn [Storage.create_job fst snd Storage.job_fields Storage.job_number].
  unfold Storage.get_job, Storage.get_all_jobs, Storage.get_all_candidates.
  cbn [Storage.jobs Storage.candidates Storage.job_matches].
  split; [reflexivity|]. split; [now apply get_absent|].
  split; [apply get_set_same|]. split; [intros k Hk; now apply get_set_other|].
  split; [|now split].
  rewrite set_new by exact Hnew. unfold PyDict.values. now rewrite map_app.
Qed.

(** ** Matches, best first *)

Section BestFirst.
Import ZArith QArith Sorted Lqa Storage.
Local Open Scope Z_scope.

Lemma below_spec a b : below a b = true <-> (a < b)%Q.
Proof.
  unfold below. rewrite negb_true_iff. split.
  - intros H. apply Qnot_le_lt. intros Hle. apply Qle_bool_iff in Hle. congruence.
  - intros H. destruct (Qle_bool b a) eqn:E; [|reflexivity].
    apply Qle_bool_iff in E. lra.
Qed.

Lemma in_insert_match m x l : In x (insert_match m l) <-> x = m \/ In x l.
Proof.
  induction l as [|m' l IH]; cbn [insert_match].
  - cbn. intuition.
  - destruct (below (percentage m) (percentage m')); cbn [In]; [|intuition].
    rewrite IH. intuition.
Qed.

Lemma in_sort_descending x l : In x (sort_descending l) <-> In x l.
Proof.
  induction l as [|m l IH]; [reflexivity|].
  change (sort_descending (m :: l)) with (insert_match m (sort_descending l)).
  rewrite in_insert_match, IH. cbn [In]. intuition.
Qed.

Lemma insert_match_sorted m l :
  StronglySorted match_before l ->
  Forall (created_before m) l ->
  StronglySorted match_before (insert_match m l).
Proof.
  induction 1 as [|m' l Hs IH Hm']; intros Hnew; cbn [insert_match].
  - repeat constructor.
  - inversion Hnew as [|? ? Hm Hnew']; subst.
    destruct (below (percentage m) (percentage m')) eqn:Hb.
    + apply below_spec in Hb. constructor; [now apply IH|].
      apply List.Forall_forall. intros x Hx. apply in_insert_match in Hx as [->|Hx].
      * now left.
      * rewrite List.Forall_forall in Hm'. now apply Hm'.
    + assert (Hle : (percentage m' <= percentage m)%Q).
      { apply Qnot_lt_le. intros H. apply below_spec in H. congruence. }
      constructor; [now constructor|]. constructor.
      * destruct (Qle_lt_or_eq _ _ Hle) as [Hlt|Heq]; [now left|].
        right. split; [now symmetry|exact Hm].
      * apply List.Forall_forall. intros x Hx.
        rewrite List.Forall_forall in Hm', Hnew'.
        specialize (Hm' x Hx). specialize (Hnew' x Hx).
        destruct Hm' as [Hlt|[Heq Hnum]].
        -- left. lra.
        -- destruct (Qle_lt_or_eq _ _ Hle) as [Hlt|Heq'].
           ++ left. lra.
           ++ right. split; [lra|exact Hnew'].
Qed.

Lemma sort_descending_sorted l :
  StronglySorted created_before l ->
  StronglySorted match_before (sort_descending l).
Proof.
  induction 1 as [|m l Hs IH Hm]; [constructor|].
  change (sort_descending (m :: l)) with (insert_match m (sort_descending l)).
  apply insert_match_sorted; [exact IH|].
  apply List.Forall_forall. intros x Hx.
  apply (proj1 (in_sort_descending x l)) in Hx.
  rewrite List.Forall_forall in Hm. now apply Hm.
Qed.

Lemma filter_sorted {A} (R : A -> A -> Prop) (keep : A -> bool) l :
  StronglySorted R l -> StronglySorted R (List.filter keep l).
Proof.
  induction 1 as [|x l Hs IH Hx]; [constructor|].
  cbn [List.filter]. destruct (keep x); [|exact IH].
  constructor; [exact IH|]. apply List.Forall_forall. intros y Hy.
  apply List.filter_In in Hy as [Hy _]. rewrite List.Forall_forall in Hx. now apply Hx.
Qed.

Lemma in_joined s r l :
  In r (joined s l) <-> exists m, In m l /\ join s m = Some r.
Proof.
  induction l as [|m l IH]; cbn [joined].
  - split; [contradiction|]. now intros (m & [] & _).
  - destruct (join s m) as [r'|] eqn:Hj; cbn [In]; rewrite IH; split.
    + intros [<-|(m' & Hin & Hm')]; [exists m; auto|exists m'; auto].
    + intros (m' & [<-|Hin] & Hm'); [left; congruence|right; exists m'; auto].
    + intros (m' & Hin & Hm'). exists m'. auto.
    + intros (m' & [<-|Hin] & Hm'); [congruence|exists m'; auto].
Qed.

Lemma join_keeps_match s m r : join s m = Some r -> result_match r = m.
Proof.
  unfold join. destruct (PyDict.get _ (jobs s)); [|discriminate].
  destruct (PyDict.get _ (candidates s)); [|discriminate].
  intros H. now inversion H.
Qed.

Lemma joined_sorted s l :
  StronglySorted match_before l -> StronglySorted before (joined s l).
Proof.
  induction 1 as [|m l Hs IH Hm]; [constructor|]. cbn [joined].
  destruct (join s m) as [r|] eqn:Hj; [|exact IH].
  constructor; [exact IH|]. apply List.Forall_forall. intros r' Hr'.
  apply in_joined in Hr' as (m' & Hin & Hm').
  rewrite List.Forall_forall in Hm. specialize (Hm m' Hin).
  unfold before. now rewrite (join_keeps_match _ _ _ Hj), (join_keeps_match _ _ _ Hm').
Qed.

Lemma values_created_in_order s :
  well_kept s -> StronglySorted created_before (PyDict.values (job_matches s)).
Proof.
  intros (_ & _ & [Hs _] & _ & _ & Hnum).
  unfold PyDict.keys, PyDict.values, numbered in *.
  induction (job_matches s) as [|[k m] d IH]; [constructor|].
  cbn [map fst snd] in *. inversion Hs as [|? ? Hs' Hk]; subst.
  inversion Hnum as [|? ? Hm Hnum']; subst. cbn [fst snd] in Hm.
  constructor; [now apply IH|].
  apply List.Forall_forall. intros m' Hm'. apply List.in_map_iff in Hm' as ([k' m''] & <- & Hin).
  rewrite List.Forall_forall in Hk, Hnum'. specialize (Hnum' _ Hin). cbn [fst snd] in *.
  unfold created_before. rewrite Hm, Hnum'. apply Hk.
  change k' with (fst (k', m'')). now apply List.in_map.
Qed.

Lemma stored_match s m :
  well_kept s ->
  In m (PyDict.values (job_matches s))
  <-> PyDict.get (match_number m) (job_matches s) = Some m.
Proof.
  intros (_ & _ & [Hs _] & _ & _ & Hnum). split.
  - intros Hin. apply List.in_map_iff in Hin as ([k m'] & Hm & Hin). cbn [snd] in Hm.
    subst m'. unfold numbered in Hnum. rewrite List.Forall_forall in Hnum.
    pose proof (Hnum _ Hin) as Hk. cbn [fst snd] in Hk. rewrite Hk.
    apply stored_is_got; [now apply ascending_has_no_duplicate|exact Hin].
  - intros Hget. apply get_is_stored in Hget.
    change m with (snd (match_number m, m)). now apply List.in_map.
Qed.

End BestFirst.

(** X13: whatever calls the store has served, [get_job_matches] returns
    its results best first (a higher percentage before a lower one, and
    among equal percentages the match created first), and returns
    exactly the stored matches that pass the two filters and whose job
    and candidate are both stored, each with that job and that
    candidate. *)
Theorem matches_come_best_first
    (email_str : string -> option string) (requests : list Storage.request)
    (job : option Z) (min_percentage : option QArith_base.Q) :
  let s := Storage.history email_str requests in
  let results := Storage.get_job_matches s job min_percentage in
  Sorted.StronglySorted Storage.before results
  /\ forall r,
       In r results
       <-> (PyDict.get (Storage.match_number (Storage.result_match r))
              (Storage.job_matches s) = Some (Storage.result_match r)
            /\ Storage.of_job job (Storage.result_match r) = true
            /\ Storage.at_least min_percentage (Storage.result_match r) = true
            /\ Storage.get_job s
                 (Storage.job_id (Storage.match_fields (Storage.result_match r)))
               = Some (Storage.result_job r)
            /\ Storage.get_candidate s
                 (Storage.candidate_id (Storage.match_fields (Storage.result_match r)))
               = Some (Storage.result_candidate r)).
Proof.
  cbv zeta. pose proof (history_well_kept email_str requests) as Hs.
  set (s := Storage.history email_str requests) in *.
  unfold Storage.get_job_matches. split.
  - apply joined_sorted, sort_descending_sorted.
    do 2 apply filter_sorted. now apply values_created_in_order.
  - intros r. rewrite in_joined. split.
    + intros (m & Hin & Hjoin).
      apply (proj1 (in_sort_descending _ _)) in Hin.
      apply List.filter_In in Hin as [Hin Hmin].
      apply List.filter_In in Hin as [Hin Hjob].
      apply stored_match in Hin; [|exact Hs].
      pose proof (join_keeps_match _ _ _ Hjoin) as Hm. subst m.
      unfold Storage.join in Hjoin. unfold Storage.get_job, Storage.get_candidate.
      destruct (PyDict.get _ (Storage.jobs s)) as [j|]; [|discriminate].
      destruct (PyDict.get _ (Storage.candidates s)) as [c|]; [|discriminate].
      inversion Hjoin as [Hr]. rewrite <- Hr at 4 5. cbn. auto.
    + intros (Hget & Hjob & Hmin & Hj & Hc).
      exists (Storage.result_match r). split.
      * apply in_sort_descending. apply List.filter_In. split; [|exact Hmin].
        apply List.filter_In. split; [|exact Hjob]. now apply stored_match.
      * unfold Storage.join. unfold Storage.get_job, Storage.get_candidate in Hj, Hc.
        rewrite Hj, Hc. now destruct r.
Qed.

(** ** Deleting the matches of a job *)

Section Deleting.
Import ZArith QArith Sorted Lqa Storage.
Local Open Scope Z_scope.

Lemma insert_match_first m l :
  Forall (fun x => (percentage x <= percentage m)%Q) l ->
  insert_match m l = m :: l.
Proof.
  destruct l as [|m' l]; [reflexivity|]. intros H. inversion H as [|? ? Hm' _]; subst.
  cbn [insert_match]. destruct (below (percentage m) (percentage m')) eqn:Hb;
    [|reflexivity].
  apply below_spec in Hb. lra.
Qed.

Lemma match_before_weak a b :
  match_before a b -> (percentage b <= percentage a)%Q.
Proof. intros [H|[H _]]; lra. Qed.

Lemma filter_insert_match keep m l :
  StronglySorted match_before l ->
  List.filter keep (insert_match m l)
  = if keep m then insert_match m (List.filter keep l) else List.filter keep l.
Proof.
  induction 1 as [|m' l Hs IH Hm']; cbn [insert_match List.filter].
  - now destruct (keep m).
  - destruct (below (percentage m) (percentage m')) eqn:Hb; cbn [List.filter].
    + rewrite IH. destruct (keep m'), (keep m); cbn [insert_match]; try reflexivity.
      now rewrite Hb.
    + assert (Hle : (percentage m' <= percentage m)%Q).
      { apply Qnot_lt_le. intros H. apply below_spec in H. congruence. }
      destruct (keep m); [|reflexivity].
      symmetry. apply insert_match_first.
      apply List.Forall_forall. intros x Hx.
      assert (Hin : In x (m' :: l)).
      { destruct (keep m'); [destruct Hx as [<-|Hx]; [now left|]|];
          right; now apply List.filter_In in Hx as [Hx _]. }
      destruct Hin as [<-|Hin]; [exact Hle|].
      rewrite List.Forall_forall in Hm'.
      pose proof (match_before_weak _ _ (Hm' x Hin)). lra.
Qed.

Lemma filter_sort_descending keep l :
  StronglySorted created_before l ->
  List.filter keep (sort_descending l) = sort_descending (List.filter keep l).
Proof.
  induction 1 as [|m l Hs IH Hm]; [reflexivity|].
  change (sort_descending (m :: l)) with (insert_match m (sort_descending l)).
  rewrite filter_insert_match by now apply sort_descending_sorted.
  cbn [List.filter]. destruct (keep m); [|exact IH].
  change (sort_descending (m :: List.filter keep l))
    with (insert_match m (sort_descending (List.filter keep l))).
  now rewrite IH.
Qed.

Lemma filter_joined s s' job l :
  jobs s' = jobs s -> candidates s' = candidates s ->
  joined s' (List.filter (fun m => negb (job_id (match_fields m) =? job)) l)
  = List.filter (not_about job) (joined s l).
Proof.
  intros Hj Hc. induction l as [|m l IH]; [reflexivity|].
  cbn [List.filter joined].
  assert (Hjoin : join s' m = join s m) by (unfold join; now rewrite Hj, Hc).
  destruct (negb (job_id (match_fields m) =? job)) eqn:Hkeep; cbn [joined].
  - rewrite Hjoin. destruct (join s m) as [r|] eqn:Hr; [|exact IH].
    cbn [List.filter]. unfold not_about at 1.
    rewrite (join_keeps_match _ _ _ Hr), Hkeep. now rewrite IH.
  - destruct (join s m) as [r|] eqn:Hr; [|exact IH].
    cbn [List.filter]. unfold not_about at 1.
    now rewrite (join_keeps_match _ _ _ Hr), Hkeep.
Qed.

Lemma filter_twice {A} (f g : A -> bool) l :
  List.filter f (List.filter g l) = List.filter g (List.filter f l).
Proof.
  induction l as [|x l IH]; [reflexivity|]. cbn [List.filter].
  destruct (f x) eqn:Hf, (g x) eqn:Hg; cbn [List.filter];
    rewrite ?Hf, ?Hg, IH; reflexivity.
Qed.

Lemma values_filter {V} (keep : V -> bool) (d : PyDict.dict V) :
  PyDict.values (List.filter (fun item => keep (snd item)) d)
  = List.filter keep (PyDict.values d).
Proof.
  unfold PyDict.values. induction d as [|[k v] d IH]; [reflexivity|].
  cbn [List.filter map snd]. destruct (keep v); cbn [map snd]; now rewrite IH.
Qed.

Lemma get_job_matches_after_delete s job wanted min_percentage :
  well_kept s ->
  get_job_matches (delete_job_matches_by_job_id s job) wanted min_percentage
  = List.filter (not_about job) (get_job_matches s wanted min_percentage).
Proof.
  intros Hs. unfold get_job_matches.
  rewrite delete_job_matches_filters by exact Hs.
  rewrite (values_filter (fun m => negb (job_id (match_fields m) =? job))).
  rewrite (filter_twice (of_job wanted)), (filter_twice (at_least min_percentage)).
  rewrite <- filter_sort_descending
    by (do 2 apply filter_sorted; now apply values_created_in_order).
  now apply filter_joined.
Qed.

End Deleting.

(** X14: whatever calls the store has served, deleting the matches of a
    job removes from every answer of [get_job_matches] the results about
    that job and nothing else, keeping the order of the others; asking
    for that job's matches then gives none, and jobs and candidates are
    untouched. *)
Theorem deleting_the_matches_of_a_job
    (email_str : string -> option string) (requests : list Storage.request)
    (job : Z) (wanted : option Z) (min_percentage : option QArith_base.Q) :
  let s := Storage.history email_str requests in
  let s' := Storage.delete_job_matches_by_job_id s job in
  Storage.get_job_matches s' wanted min_percentage
  = List.filter (Storage.not_about job)
      (Storage.get_job_matches s wanted min_percentage)
  /\ Storage.get_job_matches s' (Some job) min_percentage = []
  /\ Storage.get_all_jobs s' = Storage.get_all_jobs s
  /\ Storage.get_all_candidates s' = Storage.get_all_candidates s.
Proof.
  cbv zeta. pose proof (history_well_kept email_str requests) as Hs.
  split; [now apply get_job_matches_after_delete|]. split; [|now split].
  rewrite get_job_matches_after_delete by exact Hs.
  assert (Hnone : forall l, (forall r, In r l -> Storage.not_about job r = false) ->
                            List.filter (Storage.not_about job) l = []).
  { induction l as [|r l IH]; [reflexivity|]. intros H. cbn [List.filter].
    rewrite (H r) by now left. apply IH. intros r' Hr'. apply H. now right. }
  apply Hnone.
  intros r Hr. unfold Storage.get_job_matches in Hr.
  apply in_joined in Hr as (m & Hin & Hjoin).
  apply (proj1 (in_sort_descending _ _)) in Hin.
  apply List.filter_In in Hin as [Hin _]. apply List.filter_In in Hin as [_ Hjob].
  unfold Storage.not_about. rewrite (join_keeps_match _ _ _ Hjoin).
  cbn [Storage.of_job] in Hjob. now rewrite Hjob.
Qed.

(** ** One candidate for each address *)

Section Addresses.
Import ZArith QArith Sorted Storage Api.
Local Open Scope Z_scope.
Variable email_str : string -> option string.
Hypothesis email_str_settled : settled email_str.

Lemma built_address name email phone experience resume_content resume_file_name data :
  build_candidate_create email_str name email phone experience resume_content
    resume_file_name = Some data ->
  email_str (Storage.email data) = Some (Storage.email data).
Proof.
  unfold build_candidate_create.
  destruct (email_str email) as [address|] eqn:E; [|discriminate].
  intros H. inversion H. cbn [Storage.email]. exact (email_str_settled _ _ E).
Qed.

Lemma read_address resume name email phone experience extracted data :
  read_candidate email_str resume name email phone experience extracted
  = returns data ->
  email_str (Storage.email data) = Some (Storage.email data).
Proof.
  unfold read_candidate.
  destruct (match content_type resume with
            | Some t => Chars.starts_with (Chars.txt "image/") (Chars.txt t)
            | None => false
            end).
  - destruct extracted as [extracted_data|]; [|discriminate].
    destruct (build_candidate_create _ _ _ _ _ _ _) as [data'|] eqn:E; [|discriminate].
    intros H. inversion H; subst. exact (built_address _ _ _ _ _ _ _ E).
  - destruct experience as [years|]; [|discriminate].
    destruct (given name && given email && given phone); [|discriminate].
    destruct (build_candidate_create _ _ _ _ _ _ _) as [data'|] eqn:E; [|discriminate].
    intros H. inversion H; subst. exact (built_address _ _ _ _ _ _ _ E).
Qed.

Lemma find_none_address s address :
  get_candidate_by_email s address = None -> ~ In address (addresses s).
Proof.
  unfold get_candidate_by_email, addresses, get_all_candidates.
  intros Hfind Hin. apply List.in_map_iff in Hin as (c & Hc & Hin).
  pose proof (find_none _ _ Hfind c Hin) as H. cbv beta in H.
  rewrite Hc, String.eqb_refl in H. discriminate.
Qed.

(** What a call of the endpoint does to the store. *)
Lemma create_candidate_cases s resume name email phone experience extracted now :
  let out := create_candidate email_str s resume name email phone experience
               extracted now in
  (fst out = s /\ exists e, snd out = raises e)
  \/ (exists data candidate,
        email_str (Storage.email data) = Some (Storage.email data)
        /\ get_candidate_by_email s (Storage.email data) = None
        /\ Storage.create_candidate email_str s data now = Some (fst out, candidate)
        /\ snd out = returns candidate).
Proof.
  cbv zeta. unfold create_candidate.
  destruct (negb (given (content_type resume))); [left; eauto|].
  destruct (read_candidate email_str resume name email phone experience extracted)
    as [data|e] eqn:Hread; [|left; eauto].
  destruct (get_candidate_by_email s (Storage.email data)) eqn:Hfind; [left; eauto|].
  destruct (Storage.create_candidate email_str s data now) as [[s' c]|] eqn:Hc;
    [|left; eauto].
  right. exists data, c. cbn [fst snd]. repeat split; try assumption.
  exact (read_address _ _ _ _ _ _ _ Hread).
Qed.

Lemma created_candidate s data now s' candidate :
  well_kept s ->
  email_str (Storage.email data) = Some (Storage.email data) ->
  Storage.create_candidate email_str s data now = Some (s', candidate) ->
  get_all_candidates s' = get_all_candidates s ++ [candidate]
  /\ Storage.email (candidate_fields candidate) = Storage.email data
  /\ get_candidate s' (candidate_number candidate) = Some candidate
  /\ s' = serve email_str s (CreateCandidate data now).
Proof.
  intros (_ & Hc & _) Haddr. cbn [serve].
  unfold Storage.create_candidate, build_candidate. rewrite Haddr.
  intros H. inversion H; subst. cbn [candidate_fields Storage.email candidate_number].
  pose proof (below_is_new _ _ (proj2 (issued_is_ascending_below _ _ Hc))) as Hnew.
  unfold get_all_candidates, get_candidate. cbn [candidates].
  rewrite get_set_same.
  rewrite set_new by exact Hnew. unfold PyDict.values. rewrite map_app.
  now repeat split.
Qed.

Lemma no_duplicate_snoc {A} (l : list A) a :
  List.NoDup l -> ~ In a l -> List.NoDup (l ++ [a]).
Proof.
  induction 1 as [|x l Hx Hl IH]; intros Ha; cbn [app].
  - repeat constructor. intros [].
  - constructor.
    + intros Hin. apply in_app_or in Hin as [Hin|[<-|[]]]; [now apply Hx|].
      apply Ha. now left.
    + apply IH. intros Hin. apply Ha. now right.
Qed.

Lemma receive_keeps_addresses_apart s u :
  well_kept s -> List.NoDup (addresses s) ->
  well_kept (receive email_str s u) /\ List.NoDup (addresses (receive email_str s u)).
Proof.
  intros Hs Hnd. unfold receive, answer_to.
  destruct (create_candidate_cases s (resume u) (form_name u) (form_email u)
              (form_phone u) (form_experience u) (extracted u) (received u))
    as [[-> _] | (data & c & Haddr & Hfind & Hcreate & _)]; [now split|].
  destruct (created_candidate _ _ _ _ _ Hs Haddr Hcreate) as (Hall & Hemail & _ & Hserve).
  split.
  - rewrite Hserve. now apply serve_well_kept.
  - unfold addresses. rewrite Hall, map_app. cbn [map]. rewrite Hemail.
    apply no_duplicate_snoc; [exact Hnd|]. exact (find_none_address _ _ Hfind).
Qed.

End Addresses.

(** X15: when validating a validated address changes nothing, the
    candidates stored through the [create_candidate] endpoint have
    pairwise distinct addresses, whatever uploads were received. *)
Theorem one_candidate_for_each_address
    (email_str : string -> option string) (uploads : list Api.upload) :
  Api.settled email_str ->
  List.NoDup (Api.addresses (fold_left (Api.receive email_str) uploads Storage.init)).
Proof.
  intros Hsettled.
  assert (H : forall s, Storage.well_kept s -> List.NoDup (Api.addresses s) ->
            List.NoDup (Api.addresses (fold_left (Api.receive email_str) uploads s))).
  { induction uploads as [|u uploads IH]; intros s Hs Hnd; [exact Hnd|].
    cbn [fold_left].
    destruct (receive_keeps_addresses_apart email_str Hsettled s u Hs Hnd).
    now apply IH. }
  apply H; [apply well_kept_init|constructor].
Qed.

Lemma with_at_sign_settled : Api.settled Records.with_at_sign.
Proof.
  intros raw address. unfold Records.with_at_sign.
  destruct (Chars.contains (Chars.txt "@") (Chars.txt raw)) eqn:E; [|discriminate].
  intros H. inversion H; subst. now rewrite E.
Qed.

Lemma one_candidate_for_each_address_witness :
  Api.addresses (fold_left (Api.receive Records.with_at_sign) Records.same_address_twice
                   Storage.init)
  = ["ada@example.org"%string]
  /\ List.NoDup (Api.addresses
                   (fold_left (Api.receive Records.with_at_sign)
                      Records.same_address_twice Storage.init)).
Proof.
  split; [vm_compute; reflexivity|].
  exact (one_candidate_for_each_address Records.with_at_sign
           Records.same_address_twice with_at_sign_settled).
Defined.

Section Refusals.
Import ZArith Storage Api.
Local Open Scope Z_scope.
Variable email_str : string -> option string.

Lemma answer_well_kept s u : well_kept s -> well_kept (fst (answer_to email_str s u)).
Proof.
  intros Hs. unfold answer_to, create_candidate.
  destruct (negb (given (content_type (resume u)))); [exact Hs|].
  destruct (read_candidate email_str (resume u) (form_name u) (form_email u)
              (form_phone u) (form_experience u) (extracted u)) as [data|e];
    [|exact Hs].
  destruct (get_candidate_by_email s (Storage.email data)); [exact Hs|].
  pose proof (serve_well_kept email_str s (CreateCandidate data (received u)) Hs) as H.
  cbn [serve] in H.
  now destruct (Storage.create_candidate email_str s data (received u)) as [[s' c]|].
Qed.

Lemma uploads_well_kept uploads :
  well_kept (fold_left (receive email_str) uploads init).
Proof.
  assert (H : forall s, well_kept s ->
            well_kept (fold_left (receive email_str) uploads s)).
  { induction uploads as [|u uploads IH]; intros s Hs; [exact Hs|].
    cbn [fold_left]. apply IH. now apply answer_well_kept. }
  apply H, well_kept_init.
Qed.

End Refusals.

Lemma find_last {A} (f : A -> bool) l x :
  List.find f l = None -> f x = true -> List.find f (l ++ [x]) = Some x.
Proof.
  induction l as [|y l IH]; cbn [List.find app]; intros Hl Hx.
  - now rewrite Hx.
  - destruct (f y); [discriminate|]. now apply IH.
Qed.

Section Staying.
Import ZArith Storage Api.
Local Open Scope Z_scope.
Variable email_str : string -> option string.
Hypothesis email_str_settled : settled email_str.

Lemma find_first {A} (f : A -> bool) l l' x :
  List.find f l = Some x -> List.find f (l ++ l') = Some x.
Proof.
  induction l as [|y l IH]; cbn [List.find app]; [discriminate|].
  destruct (f y); [trivial|exact IH].
Qed.

Lemma created_candidate_keeps s data now s' candidate k kept :
  well_kept s ->
  Storage.create_candidate email_str s data now = Some (s', candidate) ->
  get_candidate s k = Some kept -> get_candidate s' k = Some kept.
Proof.
  intros (_ & Hc & _). unfold Storage.create_candidate.
  destruct (build_candidate email_str (current_candidate_id s) now data) as [c|];
    [|discriminate].
  intros H Hk. inversion H; subst. unfold get_candidate in *. cbn [candidates].
  pose proof (below_is_new _ _ (proj2 (issued_is_ascending_below _ _ Hc))) as Hnew.
  rewrite get_set_other; [exact Hk|].
  intros ->. rewrite (get_absent _ _ Hnew) in Hk. discriminate.
Qed.

(** A stored candidate stays the one found by its address and by its
    number, whatever is uploaded afterwards. *)
Lemma candidate_stays candidate more :
  forall s,
  well_kept s ->
  get_candidate_by_email s (Storage.email (candidate_fields candidate))
  = Some candidate ->
  get_candidate s (candidate_number candidate) = Some candidate ->
  let s' := fold_left (receive email_str) more s in
  get_candidate_by_email s' (Storage.email (candidate_fields candidate))
  = Some candidate
  /\ get_candidate s' (candidate_number candidate) = Some candidate.
Proof.
  induction more as [|u more IH]; intros s Hs Hfound Hget; [now split|].
  cbn [fold_left]. apply IH.
  - now apply answer_well_kept.
  - unfold receive, answer_to.
    destruct (create_candidate_cases email_str email_str_settled s (resume u)
                (form_name u) (form_email u) (form_phone u) (form_experience u)
                (extracted u) (received u))
      as [[-> _] | (data & c & Haddr & _ & Hcreate & _)]; [exact Hfound|].
    destruct (created_candidate email_str _ _ _ _ _ Hs Haddr Hcreate) as (Hall & _).
    unfold get_candidate_by_email in *.
    change (PyDict.values (candidates ?x)) with (get_all_candidates x) in *.
    rewrite Hall. now apply find_first.
  - unfold receive, answer_to.
    destruct (create_candidate_cases email_str email_str_settled s (resume u)
                (form_name u) (form_email u) (form_phone u) (form_experience u)
                (extracted u) (received u))
      as [[-> _] | (data & c & _ & _ & Hcreate & _)]; [exact Hget|].
    exact (created_candidate_keeps _ _ _ _ _ _ _ Hs Hcreate Hget).
Qed.

End Staying.

(** X16: when validating a validated address changes nothing, a
    candidate the [create_candidate] endpoint returned is stored for
    good: whatever uploads follow, it is the one found by its address,
    its resume can be downloaded under its number, and every later upload
    that describes a candidate with the same address is refused with
    status 400 and changes nothing. *)
Theorem stored_candidate_is_found_and_not_replaced
    (email_str : string -> option string) (uploads more : list Api.upload)
    (u again : Api.upload) (candidate : Storage.Candidate)
    (data : Storage.CandidateCreate) :
  Api.settled email_str ->
  let s := fold_left (Api.receive email_str) uploads Storage.init in
  let s' := fold_left (Api.receive email_str) more
              (fst (Api.answer_to email_str s u)) in
  snd (Api.answer_to email_str s u) = Api.returns candidate ->
  Api.given (Api.content_type (Api.resume again)) = true ->
  Api.read email_str again = Api.returns data ->
  Storage.email data = Storage.email (Storage.candidate_fields candidate) ->
  Storage.get_candidate_by_email s'
    (Storage.email (Storage.candidate_fields candidate)) = Some candidate
  /\ Api.download_resume s' (Storage.candidate_number candidate)
     = Api.returns
         {| Api.content :=
              Storage.resume_content (Storage.candidate_fields candidate);
            Api.content_disposition :=
              ("attachment; filename=" ++ Api.quote
               ++ Storage.resume_file_name (Storage.candidate_fields candidate)
               ++ Api.quote)%string |}
  /\ Api.answer_to email_str s' again
     = (s', Api.raises
              (Api.bad_request (Api.says "Candidate with this email already exists"))).
Proof.
  intros Hsettled. cbv zeta. intros Hanswer Hgiven Hread Hsame.
  pose proof (uploads_well_kept email_str uploads) as Hs.
  set (s := fold_left (Api.receive email_str) uploads Storage.init) in *.
  pose proof (answer_well_kept email_str s u Hs) as Hs1.
  unfold Api.answer_to in *.
  destruct (create_candidate_cases email_str Hsettled s (Api.resume u)
              (Api.form_name u) (Api.form_email u) (Api.form_phone u)
              (Api.form_experience u) (Api.extracted u) (Api.received u))
    as [[_ (e & He)] | (data0 & c & Haddr & Hfind & Hcreate & Hc)].
  { rewrite He in Hanswer. discriminate. }
  rewrite Hc in Hanswer. inversion Hanswer; subst c. clear Hanswer Hc.
  set (s1 := fst (Api.create_candidate email_str s (Api.resume u)
                    (Api.form_name u) (Api.form_email u) (Api.form_phone u)
                    (Api.form_experience u) (Api.extracted u) (Api.received u)))
    in *.
  destruct (created_candidate email_str _ _ _ _ _ Hs Haddr Hcreate)
    as (Hall & Hemail & Hnumber & _).
  assert (Hfound1 : Storage.get_candidate_by_email s1
                      (Storage.email (Storage.candidate_fields candidate))
                    = Some candidate).
  { unfold Storage.get_candidate_by_email.
    change (PyDict.values (Storage.candidates s1)) with (Storage.get_all_candidates s1).
    rewrite Hall. apply find_last; [|apply String.eqb_refl].
    rewrite Hemail. exact Hfind. }
  destruct (candidate_stays email_str Hsettled candidate more s1 Hs1 Hfound1 Hnumber)
    as (Hfound & Hget).
  set (s' := fold_left (Api.receive email_str) more s1) in *.
  split; [exact Hfound|]. split.
  - unfold Api.download_resume. now rewrite Hget.
  - unfold Api.create_candidate. rewrite Hgiven. cbn [negb].
    unfold Api.read in Hread. rewrite Hread, Hsame, Hfound. reflexivity.
Qed.

Lemma stored_candidate_is_found_and_not_replaced_witness :
  let s' := fold_left (Api.receive Records.with_at_sign) [Records.pdf_of_grace]
              (Api.receive Records.with_at_sign Storage.init Records.pdf_of_ada) in
  Api.addresses s' = ["ada@example.org"%string; "grace@example.org"%string]
  /\ Api.answer_to Records.with_at_sign s' Records.image_of_ada
     = (s', Api.raises
              (Api.bad_request (Api.says "Candidate with this email already exists"))).
Proof.
  cbv zeta. split; [vm_compute; reflexivity|].
  eassert (Hc : snd (Api.answer_to Records.with_at_sign Storage.init Records.pdf_of_ada)
                = Api.returns _) by (vm_compute; reflexivity).
  eassert (Hd : Api.read Records.with_at_sign Records.image_of_ada = Api.returns _)
    by (vm_compute; reflexivity).
  exact (proj2 (proj2 (stored_candidate_is_found_and_not_replaced
                         Records.with_at_sign [] [Records.pdf_of_grace]
                         Records.pdf_of_ada Records.image_of_ada _ _
                         with_at_sign_settled Hc eq_refl Hd eq_refl))).
Defined.

(** X17: every result of the [get_matches] endpoint is about the job
    asked for, when one is asked for, and has a percentage at least the
    minimum asked for, or at least 50 when none is asked for. *)
Theorem get_matches_keeps_the_threshold
    (s : Storage.storage) (job_id : option Z) (min_percentage : option QArith_base.Q)
    (r : Storage.JobMatchResult) :
  In r (Api.get_matches s job_id min_percentage) ->
  QArith_base.Qle
    (match min_percentage with Some p => p | None => QArith_base.Qmake 50 1 end)
    (Storage.percentage (Storage.result_match r))
  /\ match job_id with
     | Some j => Storage.job_id (Storage.match_fields (Storage.result_match r)) = j
     | None => True
     end.
Proof.
  unfold Api.get_matches, Storage.get_job_matches. intros Hin.
  apply in_joined in Hin as (m & Hin & Hjoin).
  apply (proj1 (in_sort_descending _ _)) in Hin.
  apply List.filter_In in Hin as [Hin Hmin]. apply List.filter_In in Hin as [_ Hjob].
  rewrite (join_keeps_match _ _ _ Hjoin). split.
  - cbn [Storage.at_least] in Hmin. apply QArith_base.Qle_bool_iff in Hmin.
    now destruct min_percentage.
  - destruct job_id as [j|]; [|exact I]. cbn [Storage.of_job] in Hjob.
    now apply Z.eqb_eq in Hjob.
Qed.

Lemma get_matches_keeps_the_threshold_witness :
  Api.get_matches Records.two_matches None None = [Records.good_match]
  /\ QArith_base.Qle (QArith_base.Qmake 50 1)
       (Storage.percentage (Storage.result_match Records.good_match)).
Proof.
  split; [vm_compute; reflexivity|].
  exact (proj1 (get_matches_keeps_the_threshold Records.two_matches None None
                  Records.good_match ltac:(vm_compute; now left))).
Defined.


(** X18: whatever uploads the [create_candidate] endpoint has received,
    an upload it refuses leaves the store as it was, and the refusal has
    status 400; an upload it accepts stores the candidate it returns,
    under a number no candidate had, after all the others, and leaves
    the jobs and the matches as they were. *)
Theorem refused_upload_changes_nothing
    (email_str : string -> option string) (uploads : list Api.upload)
    (u : Api.upload) :
  let s := fold_left (Api.receive email_str) uploads Storage.init in
  match Api.answer_to email_str s u with
  | (s', Api.raises e) => s' = s /\ Api.status_code e = 400
  | (s', Api.returns candidate) =>
      Storage.get_candidate s (Storage.candidate_number candidate) = None
      /\ Storage.get_all_candidates s' = Storage.get_all_candidates s ++ [candidate]
      /\ Storage.jobs s' = Storage.jobs s
      /\ Storage.job_matches s' = Storage.job_matches s
  end.
Proof.
  cbv zeta. pose proof (uploads_well_kept email_str uploads) as (_ & Hc & _).
  set (s := fold_left (Api.receive email_str) uploads Storage.init) in *.
  pose proof (below_is_new _ _ (proj2 (issued_is_ascending_below _ _ Hc))) as Hnew.
  unfold Api.answer_to, Api.create_candidate.
  destruct (negb (Api.given (Api.content_type (Api.resume u)))); [now split|].
  destruct (Api.read_candidate email_str (Api.resume u) (Api.form_name u)
              (Api.form_email u) (Api.form_phone u) (Api.form_experience u)
              (Api.extracted u)) as [data|e] eqn:Hread.
  - destruct (Storage.get_candidate_by_email s (Storage.email data)); [now split|].
    unfold Storage.create_candidate.
    destruct (Storage.build_candidate email_str (Storage.current_candidate_id s)
                (Api.received u) data) as [candidate|] eqn:Hbuild; [|now split].
    assert (Hnumber : Storage.candidate_number candidate
                      = Storage.current_candidate_id s).
    { unfold Storage.build_candidate in Hbuild.
      destruct (email_str (Storage.email data)); [|discriminate].
      now inversion Hbuild. }
    unfold Storage.get_all_candidates, Storage.get_candidate, PyDict.values.
    cbn [Storage.candidates Storage.jobs Storage.job_matches].
    rewrite Hnumber, set_new, map_app by exact Hnew.
    split; [now apply get_absent|now repeat split].
  - split; [reflexivity|].
    unfold Api.read_candidate in Hread.
    destruct (match Api.content_type (Api.resume u) with
              | Some t => Chars.starts_with (Chars.txt "image/") (Chars.txt t)
              | None => false
              end).
    + destruct (Api.extracted u) as [extracted_data|];
        [destruct (Api.build_candidate_create _ _ _ _ _ _ _)|];
        inversion Hread; reflexivity.
    + destruct (Api.form_experience u) as [years|];
        [destruct (Api.given (Api.form_name u) && Api.given (Api.form_email u)
                   && Api.given (Api.form_phone u));
         [destruct (Api.build_candidate_create _ _ _ _ _ _ _)|]|];
        inversion Hread; reflexivity.
Qed.
